(** * Ultimate Tic-Tac-Toe: rules engine, heuristic AI and match coordinator

    A shallow embedding of [utils/gameLogic], [utils/aiLogic] and of the
    state reducer of [components/Game.tsx], with the properties the
    specification states about them.

    Conventions of the embedding.
    - A JavaScript array is a [list]; [arr[i]] is [arr !! i], where [None]
      stands for [undefined].  [null] is the [None] of the element type
      ([CellValue], [Player | null], [number | null]).
    - Code that can throw lives in the [result] monad.  [TypeError] is a
      property read on [undefined]; [OutOfModel] is a write past the end of
      an array, which JavaScript answers by padding the array with holes
      that the declared element types do not describe, or a count that
      would fall below zero where the model holds a natural number.
    - A JavaScript number is an IEEE 754 double: a [float] of the kernel,
      with the kernel's operations, which round to nearest, ties to even,
      as JavaScript does.  The scores [evaluateMove] adds up are integers
      of small magnitude, on which double arithmetic is exact; they are
      kept in [Z] and enter double arithmetic through [of_int] where the
      code adds the noise.  [Math.random()] is an oracle that gives a
      double for each call. *)

From stdpp Require Import base option list numbers sorting.
From Stdlib Require Import Floats Uint63.

(** ** Outcomes of code that can throw *)

Inductive result (A : Type) : Type :=
  | Ok (a : A)
  | TypeError
  | OutOfModel.
Arguments Ok {A} a.
Arguments TypeError {A}.
Arguments OutOfModel {A}.

#[global] Instance result_ret : MRet result := fun A a => Ok a.
#[global] Instance result_bind : MBind result := fun A B f m =>
  match m with
  | Ok a => f a
  | TypeError => TypeError
  | OutOfModel => OutOfModel
  end.

(** [o.field] for a value [o] that may be [undefined]. *)
Definition defined {A : Type} (o : option A) : result A :=
  match o with
  | Some a => Ok a
  | None => TypeError
  end.

(** [arr[i] = x] on a copy of [arr]. *)
Definition array_set {A : Type} (arr : list A) (i : nat) (x : A) : result (list A) :=
  if decide (i < length arr) then Ok (<[i:=x]> arr) else OutOfModel.

(** [arr[z]] for a numeric index that need not be a natural number. *)
Definition array_at {A : Type} (arr : list A) (z : Z) : option A :=
  if decide (z < 0)%Z then None else arr !! Z.to_nat z.

(** ** Numbers *)

(** The double that is the integer [z]; exact for magnitudes below 2^53,
    beyond any count or score of this program. *)
Definition of_int (z : Z) : float :=
  if (z <? 0)%Z then (- of_uint63 (Uint63.of_Z (- z)))%float
  else of_uint63 (Uint63.of_Z z).

(** [Math.floor(x)] as an integer; [None] for [NaN] and the infinities.
    The floor of [-0] is [-0], which indexes an array as [0] does. *)
Definition Math_floor (x : float) : option Z :=
  match Prim2SF x with
  | S754_zero _ => Some 0%Z
  | S754_finite s m e => Some (Z.shiftl (cond_Zopp s (Z.pos m)) e)
  | _ => None
  end.

(** [arr[Math.floor(x)]]; [NaN] and the infinities name no element. *)
Definition array_at_floor {A : Type} (arr : list A) (x : float) : option A :=
  z ← Math_floor x; array_at arr z.

(** The literal [0.1]: the double nearest to one tenth. *)
Definition tenth : float := 0x1.999999999999ap-4%float.

(** ** Data model *)

(** The enums and records of [types.ts], with the fields the code reads
    and writes. *)
Module Player.
Inductive t : Set := X | O.
End Player.

#[global] Instance Player_eq_dec : EqDecision Player.t.
Proof. solve_decision. Defined.

Abbreviation CellValue := (option Player.t) (only parsing).
Abbreviation SmallBoardState := (list CellValue) (only parsing).

Record SmallBoardStatus : Set := {
  winner : option Player.t;
  isDraw : bool
}.

#[global] Instance SmallBoardStatus_eq_dec : EqDecision SmallBoardStatus.
Proof. solve_decision. Defined.

Record Move : Set := {
  boardIndex : nat;
  cellIndex : nat
}.

#[global] Instance Move_eq_dec : EqDecision Move.
Proof. solve_decision. Defined.

Inductive GameMode : Set := PvP | PvCPU | PvOnline.
Inductive AiDifficulty : Set := Beginner | Intermediate | Advanced.
Inductive OnlineRole : Set := HOST | GUEST.
Inductive OnlineState : Set := IDLE | HOSTING | JOINING | CONNECTED | DISCONNECTED.

#[global] Instance GameMode_eq_dec : EqDecision GameMode.
Proof. solve_decision. Defined.
#[global] Instance AiDifficulty_eq_dec : EqDecision AiDifficulty.
Proof. solve_decision. Defined.
#[global] Instance OnlineRole_eq_dec : EqDecision OnlineRole.
Proof. solve_decision. Defined.
#[global] Instance OnlineState_eq_dec : EqDecision OnlineState.
Proof. solve_decision. Defined.

Record GameHistoryItem : Set := {
  h_board : list SmallBoardState;
  h_smallBoardStatuses : list SmallBoardStatus;
  h_currentPlayer : Player.t;
  h_nextBoardIndex : option nat;
  h_lastMove : option Move
}.

Record GameState : Set := {
  board : list SmallBoardState;
  smallBoardStatuses : list SmallBoardStatus;
  currentPlayer : Player.t;
  nextBoardIndex : option nat;
  globalWinner : option Player.t;
  isGlobalDraw : bool;
  history : list GameHistoryItem;
  moveCount : nat;
  gameMode : GameMode;
  aiDifficulty : AiDifficulty
}.

#[global] Instance GameHistoryItem_eq_dec : EqDecision GameHistoryItem.
Proof. solve_decision. Defined.
#[global] Instance GameState_eq_dec : EqDecision GameState.
Proof. solve_decision. Defined.

(** [p === Player.X ? Player.O : Player.X] *)
Definition other (p : Player.t) : Player.t :=
  match p with
  | Player.X => Player.O
  | Player.O => Player.X
  end.

(** [s.winner !== null || s.isDraw], also written [status.winner || status.isDraw]. *)
Definition decided (s : SmallBoardStatus) : bool :=
  match winner s with
  | Some _ => true
  | None => isDraw s
  end.

(** ** utils/gameLogic *)

Abbreviation combo := (nat * nat * nat)%type (only parsing).

Definition WINNING_COMBINATIONS : list combo :=
  [ (0, 1, 2); (3, 4, 5); (6, 7, 8);
    (0, 3, 6); (1, 4, 7); (2, 5, 8);
    (0, 4, 8); (2, 4, 6) ].

(** [cells[a] && cells[a] === cells[b] && cells[a] === cells[c]]: the mark
    shared by the three cells, if there is one. *)
Definition cells_line (cells : SmallBoardState) (cb : combo) : option Player.t :=
  let '(a, b, c) := cb in
  match cells !! a with
  | Some (Some p) =>
      if decide (cells !! b = Some (Some p)) then
        if decide (cells !! c = Some (Some p)) then Some p else None
      else None
  | _ => None
  end.

(** The [for (const combo of WINNING_COMBINATIONS)] loop of
    [checkSmallBoardStatus], leaving at the first full line. *)
Fixpoint scan_cells (cells : SmallBoardState) (combos : list combo) : option Player.t :=
  match combos with
  | [] => None
  | cb :: rest =>
      match cells_line cells cb with
      | Some p => Some p
      | None => scan_cells cells rest
      end
  end.

Definition checkSmallBoardStatus (cells : SmallBoardState) : SmallBoardStatus :=
  match scan_cells cells WINNING_COMBINATIONS with
  | Some p => {| winner := Some p; isDraw := false |}
  | None =>
      let isFull := forallb (fun cell : CellValue => bool_decide (cell ≠ None)) cells in
      if isFull then {| winner := None; isDraw := true |}
      else {| winner := None; isDraw := false |}
  end.

(** The test of one combination in [checkGlobalWinner]; [statA.winner] is
    read first, [statB.winner] and [statC.winner] only as far as [&&]
    gets. *)
Definition statuses_line (statuses : list SmallBoardStatus) (cb : combo)
  : result (option Player.t) :=
  let '(a, b, c) := cb in
  statA ← defined (statuses !! a);
  match winner statA with
  | None => Ok None
  | Some p =>
      statB ← defined (statuses !! b);
      if decide (winner statB = Some p) then
        statC ← defined (statuses !! c);
        if decide (winner statC = Some p) then Ok (Some p) else Ok None
      else Ok None
  end.

Fixpoint scan_statuses (statuses : list SmallBoardStatus) (combos : list combo)
  : result (option Player.t) :=
  match combos with
  | [] => Ok None
  | cb :: rest =>
      line ← statuses_line statuses cb;
      match line with
      | Some p => Ok (Some p)
      | None => scan_statuses statuses rest
      end
  end.

Definition checkGlobalWinner (statuses : list SmallBoardStatus) : result SmallBoardStatus :=
  line ← scan_statuses statuses WINNING_COMBINATIONS;
  match line with
  | Some p => Ok {| winner := Some p; isDraw := false |}
  | None =>
      let allDecided := forallb decided statuses in
      if allDecided then Ok {| winner := None; isDraw := true |}
      else Ok {| winner := None; isDraw := false |}
  end.

Definition createInitialBoard : list SmallBoardState :=
  replicate 9 (replicate 9 None).

Definition createInitialStatuses : list SmallBoardStatus :=
  replicate 9 {| winner := None; isDraw := false |}.

(** [board[bIdx].forEach((cell, cIdx) => { if (cell === null) moves.push(..) })]:
    the moves pushed, [cIdx] being the index of the first cell of [cells]. *)
Fixpoint forEach_empty (bIdx : nat) (cells : SmallBoardState) (cIdx : nat) : list Move :=
  match cells with
  | [] => []
  | cell :: rest =>
      match cell with
      | None => {| boardIndex := bIdx; cellIndex := cIdx |} :: forEach_empty bIdx rest (S cIdx)
      | Some _ => forEach_empty bIdx rest (S cIdx)
      end
  end.

(** The [for (const bIdx of targetBoards)] loop of [getValidMoves]; [moves]
    is the array filled so far. *)
Fixpoint collect_moves (gameState : GameState) (targetBoards : list nat) (moves : list Move)
  : result (list Move) :=
  match targetBoards with
  | [] => Ok moves
  | bIdx :: rest =>
      status ← defined (smallBoardStatuses gameState !! bIdx);
      if negb (decided status) then
        cells ← defined (board gameState !! bIdx);
        collect_moves gameState rest (moves ++ forEach_empty bIdx cells 0)
      else collect_moves gameState rest moves
  end.

Definition getValidMoves (gameState : GameState) : result (list Move) :=
  match globalWinner gameState with
  | Some _ => Ok []
  | None =>
      targetBoards ←
        match nextBoardIndex gameState with
        | Some nextBoardIndex =>
            status ← defined (smallBoardStatuses gameState !! nextBoardIndex);
            if negb (decided status) then Ok [nextBoardIndex]
            else Ok [0; 1; 2; 3; 4; 5; 6; 7; 8]
        | None => Ok [0; 1; 2; 3; 4; 5; 6; 7; 8]
        end;
      collect_moves gameState targetBoards []
  end.

(** ** utils/aiLogic *)

(** The [for (let i = 0; i < 9; i++)] loop of [canWinBoard] over the
    indices [todo] still to visit.  The write [tempBoard[i] = player] is made
    only where [board[i] === null], so it is inside the array. *)
Fixpoint canWinBoard_from (board : SmallBoardState) (player : Player.t) (todo : list nat)
  : option nat :=
  match todo with
  | [] => None
  | i :: rest =>
      if decide (board !! i = Some None) then
        let tempBoard := <[i := Some player]> board in
        let result := checkSmallBoardStatus tempBoard in
        if decide (winner result = Some player) then Some i
        else canWinBoard_from board player rest
      else canWinBoard_from board player rest
  end.

Definition canWinBoard (board : SmallBoardState) (player : Player.t) : option nat :=
  canWinBoard_from board player (seq 0 9).

(** [i === 4 ? center : [0, 2, 6, 8].includes(i) ? corner : 0] *)
Definition position_bonus (center corner : Z) (i : nat) : Z :=
  if decide (i = 4) then center
  else if bool_decide (i ∈ [0; 2; 6; 8]) then corner
  else 0%Z.

Definition evaluateMove (gameState : GameState) (move : Move) : result Z :=
  let opponent := other (currentPlayer gameState) in
  let score := 0%Z in
  let targetBoardIndex := boardIndex move in
  targetBoard ← defined (board gameState !! targetBoardIndex);
  currentSmallBoard ← array_set targetBoard (cellIndex move) (Some (currentPlayer gameState));
  let boardStatusResult := checkSmallBoardStatus currentSmallBoard in
  let isBoardWon := bool_decide (winner boardStatusResult = Some (currentPlayer gameState)) in
  score ←
    (if isBoardWon then
       let score := (score + 100)%Z in
       nextStatuses ← array_set (smallBoardStatuses gameState) targetBoardIndex boardStatusResult;
       globalResult ← checkGlobalWinner nextStatuses;
       let score :=
         if decide (winner globalResult = Some (currentPlayer gameState))
         then (score + 10000)%Z else score in
       Ok (score + position_bonus 20 10 targetBoardIndex)%Z
     else Ok score);
  let opponentWinMove := canWinBoard targetBoard opponent in
  let score :=
    if decide (opponentWinMove = Some (cellIndex move)) then (score + 80)%Z else score in
  let nextBoardIdx := cellIndex move in
  nextBoardStatus ← defined (smallBoardStatuses gameState !! nextBoardIdx);
  let isDestFullOrWon := decided nextBoardStatus in
  score ←
    (if isDestFullOrWon then Ok (score - 50)%Z
     else
       destBoard ← defined (board gameState !! nextBoardIdx);
       let oppWinInDest := canWinBoard destBoard opponent in
       if decide (oppWinInDest ≠ None) then Ok (score - 100)%Z else Ok score);
  Ok (score + position_bonus 5 3 (cellIndex move))%Z.

(** The two [for (const move of validMoves)] loops of the Intermediate
    tier: the first move whose cell is the one [canWinBoard] names for
    [player] in the move's board. *)
Fixpoint first_move_for (gameState : GameState) (player : Player.t) (validMoves : list Move)
  : result (option Move) :=
  match validMoves with
  | [] => Ok None
  | move :: rest =>
      smallBoard ← defined (board gameState !! boardIndex move);
      if decide (canWinBoard smallBoard player = Some (cellIndex move)) then Ok (Some move)
      else first_move_for gameState player rest
  end.

(** [score > bestScore] *)
Definition exceeds (score bestScore : float) : bool := (bestScore <? score)%float.

(** [Math.abs(score - bestScore) < 0.1] *)
Definition near (score bestScore : float) : bool :=
  (abs (score - bestScore) <? tenth)%float.

Section Ai.

(** [random k] is the value of the call of [Math.random()] number [k]
    (from 0) made during one call of [getAiMove]. *)
Variable random : nat → float.

(** [arr[Math.floor(Math.random() * arr.length)]], the call of
    [Math.random()] being number [k]; [undefined] reads as no move. *)
Definition pick (arr : list Move) (k : nat) : option Move :=
  array_at_floor arr (random k * of_int (Z.of_nat (length arr)))%float.

(** The scoring loop of the Advanced tier from call number [k] of
    [Math.random()] on. *)
Fixpoint score_moves (gameState : GameState) (validMoves : list Move) (k : nat)
    (bestScore : float) (bestMoves : list Move) : result (nat * list Move) :=
  match validMoves with
  | [] => Ok (k, bestMoves)
  | move :: rest =>
      let randomNoise := (random k * 5)%float in
      base ← evaluateMove gameState move;
      let score := (of_int base + randomNoise)%float in
      if exceeds score bestScore then
        score_moves gameState rest (S k) score [move]
      else if near score bestScore then
        score_moves gameState rest (S k) bestScore (bestMoves ++ [move])
      else score_moves gameState rest (S k) bestScore bestMoves
  end.

Definition getAiMove (gameState : GameState) : result (option Move) :=
  validMoves ← getValidMoves gameState;
  if decide (length validMoves = 0) then Ok None
  else
    match aiDifficulty gameState with
    | Beginner => Ok (pick validMoves 0)
    | Intermediate =>
        won ← first_move_for gameState (currentPlayer gameState) validMoves;
        match won with
        | Some move => Ok (Some move)
        | None =>
            let opponent := other (currentPlayer gameState) in
            blocked ← first_move_for gameState opponent validMoves;
            match blocked with
            | Some move => Ok (Some move)
            | None => Ok (pick validMoves 0)
            end
        end
    | Advanced =>
        '(k, bestMoves) ← score_moves gameState validMoves 0 neg_infinity [];
        if decide (0 < length bestMoves) then Ok (pick bestMoves k)
        else Ok (validMoves !! 0)
    end.

End Ai.

(** ** components/Game.tsx *)

(** The state a fresh match starts from ([useState] and [resetGameState]). *)
Definition resetGameState (mode : GameMode) (difficulty : AiDifficulty) : GameState :=
  {| board := createInitialBoard;
     smallBoardStatuses := createInitialStatuses;
     currentPlayer := Player.X;
     nextBoardIndex := None;
     globalWinner := None;
     isGlobalDraw := false;
     history := [];
     moveCount := 0;
     gameMode := mode;
     aiDifficulty := difficulty |}.

(** The updater [handleCellClick] hands to [setGameState].  [lastMove] and
    [onlineRole] are the values its closure holds.  The message sent to the
    peer and [setLastMove] do not enter the state it returns and are left
    out. *)
Definition handleCellClick (lastMove : option Move) (onlineRole : option OnlineRole)
    (boardIndex cellIndex : nat) (isRemote : bool) (prevState : GameState)
  : result GameState :=
  let myPlayer := if decide (onlineRole = Some HOST) then Player.X else Player.O in
  if bool_decide (gameMode prevState = PvOnline) && negb isRemote
     && bool_decide (currentPlayer prevState ≠ myPlayer)
  then Ok prevState
  else
    match globalWinner prevState with
    | Some _ => Ok prevState
    | None =>
        targetCells ← defined (board prevState !! boardIndex);
        if decide (targetCells !! cellIndex ≠ Some None) then Ok prevState
        else if bool_decide (nextBoardIndex prevState ≠ None)
                && bool_decide (nextBoardIndex prevState ≠ Some boardIndex)
        then Ok prevState
        else
          targetStatus ← defined (smallBoardStatuses prevState !! boardIndex);
          if decided targetStatus then Ok prevState
          else
            let newBoard :=
              imap (fun bIdx b =>
                      if decide (bIdx = boardIndex)
                      then imap (fun cIdx c =>
                                   if decide (cIdx = cellIndex)
                                   then Some (currentPlayer prevState) else c) b
                      else b)
                   (board prevState) in
            newCells ← defined (newBoard !! boardIndex);
            let newSmallBoardStatus := checkSmallBoardStatus newCells in
            let newSmallBoardStatuses :=
              <[boardIndex := newSmallBoardStatus]> (smallBoardStatuses prevState) in
            global ← checkGlobalWinner newSmallBoardStatuses;
            nextTargetStatus ← defined (newSmallBoardStatuses !! cellIndex);
            let newNextBoardIndex :=
              if decided nextTargetStatus then None else Some cellIndex in
            let historyItem :=
              {| h_board := board prevState;
                 h_smallBoardStatuses := smallBoardStatuses prevState;
                 h_currentPlayer := currentPlayer prevState;
                 h_nextBoardIndex := nextBoardIndex prevState;
                 h_lastMove := lastMove |} in
            Ok {| board := newBoard;
                  smallBoardStatuses := newSmallBoardStatuses;
                  currentPlayer := other (currentPlayer prevState);
                  nextBoardIndex := newNextBoardIndex;
                  globalWinner := winner global;
                  isGlobalDraw := isDraw global;
                  history := history prevState ++ [historyItem];
                  moveCount := moveCount prevState + 1;
                  gameMode := gameMode prevState;
                  aiDifficulty := aiDifficulty prevState |}
    end.

(** What the component holds besides the game: the connection state, the
    role and the last move. *)
Record Session : Set := {
  gameState : GameState;
  onlineState : OnlineState;
  onlineRole : option OnlineRole;
  lastMove : option Move
}.

(** [isInteractionAllowed], as the render computes it for each board. *)
Definition isInteractionAllowed (s : Session) : bool :=
  let allowed := true in
  let allowed :=
    if bool_decide (gameMode (gameState s) = PvCPU)
       && bool_decide (currentPlayer (gameState s) = Player.O)
    then false else allowed in
  if bool_decide (gameMode (gameState s) = PvOnline) then
    let allowed :=
      if bool_decide (onlineRole s = Some HOST)
         && bool_decide (currentPlayer (gameState s) = Player.O)
      then false else allowed in
    let allowed :=
      if bool_decide (onlineRole s = Some GUEST)
         && bool_decide (currentPlayer (gameState s) = Player.X)
      then false else allowed in
    if bool_decide (onlineState s ≠ CONNECTED) then false else allowed
  else allowed.

(** The [onCellClick] a board is rendered with: [handleCellClick(b, c, false)]
    when interaction is allowed, [() => {}] otherwise.  An accepted move
    also becomes the last move; it is the only outcome that changes the
    state, since it adds 1 to [moveCount]. *)
Definition onCellClick (s : Session) (b c : nat) : result Session :=
  if isInteractionAllowed s then
    next ← handleCellClick (lastMove s) (onlineRole s) b c false (gameState s);
    Ok {| gameState := next;
          onlineState := onlineState s;
          onlineRole := onlineRole s;
          lastMove := if decide (next = gameState s) then lastMove s
                      else Some {| boardIndex := b; cellIndex := c |} |}
  else Ok s.

Definition handleOnlineDisconnect (s : Session) : Session :=
  {| gameState := gameState s;
     onlineState := DISCONNECTED;
     onlineRole := onlineRole s;
     lastMove := lastMove s |}.

(** The effect that plays for the CPU once its timer fires; [random] gives
    the draws of [Math.random()] during that call of [getAiMove]. *)
Definition aiEffect (random : nat → float) (s : Session) : result Session :=
  let gs := gameState s in
  if bool_decide (gameMode gs = PvCPU) && bool_decide (currentPlayer gs = Player.O)
     && bool_decide (globalWinner gs = None) && negb (isGlobalDraw gs)
  then
    move ← getAiMove random gs;
    match move with
    | Some m =>
        next ← handleCellClick (lastMove s) (onlineRole s) (boardIndex m) (cellIndex m) false gs;
        Ok {| gameState := next;
              onlineState := onlineState s;
              onlineRole := onlineRole s;
              lastMove := if decide (next = gs) then lastMove s else Some m |}
    | None => Ok s
    end
  else Ok s.

(** The move attempts that start on this side: a click on a cell, and the
    timer of the CPU. *)
Inductive LocalAttempt : Type :=
  | Click (b c : nat)
  | AiTimer (random : nat → float).

Definition attempt (s : Session) (a : LocalAttempt) : result Session :=
  match a with
  | Click b c => onCellClick s b c
  | AiTimer random => aiEffect random s
  end.

(** A run of local attempts, each on the session the previous one left. *)
Fixpoint attempts (s : Session) (l : list LocalAttempt) : result Session :=
  match l with
  | [] => Ok s
  | a :: rest => s' ← attempt s a; attempts s' rest
  end.

(** The states a match goes through: a fresh state, then moves through
    [handleCellClick], local or remote. *)
Inductive reachable : GameState → Prop :=
  | reachable_start mode difficulty : reachable (resetGameState mode difficulty)
  | reachable_move lastMove onlineRole b c isRemote gs gs' :
      reachable gs →
      handleCellClick lastMove onlineRole b c isRemote gs = Ok gs' →
      reachable gs'.

(** [undoMove]: the state and the last move it leaves.  One step is undone,
    two when the human is to move against the CPU.  [moveCount] is a
    natural number here; a count below the steps undone is outside the
    model. *)
Definition undoMove (gameState : GameState) (lastMove : option Move)
  : result (GameState * option Move) :=
  if decide (length (history gameState) = 0) then Ok (gameState, lastMove)
  else if decide (gameMode gameState = PvOnline) then Ok (gameState, lastMove)
  else
    let stepsToUndo :=
      if bool_decide (gameMode gameState = PvCPU)
         && bool_decide (currentPlayer gameState = Player.X)
      then 2 else 1 in
    if decide (length (history gameState) < stepsToUndo) then Ok (gameState, lastMove)
    else
      let targetStateIndex := length (history gameState) - stepsToUndo in
      previousState ← defined (history gameState !! targetStateIndex);
      let newHistory := take targetStateIndex (history gameState) in
      if decide (moveCount gameState < stepsToUndo) then OutOfModel
      else
        Ok ({| board := h_board previousState;
               smallBoardStatuses := h_smallBoardStatuses previousState;
               currentPlayer := h_currentPlayer previousState;
               nextBoardIndex := h_nextBoardIndex previousState;
               globalWinner := None;
               isGlobalDraw := false;
               history := newHistory;
               moveCount := moveCount gameState - stepsToUndo;
               gameMode := gameMode gameState;
               aiDifficulty := aiDifficulty gameState |},
            h_lastMove previousState).

(** The messages of the peer channel; [Unknown] is any data whose [type]
    is neither ['MOVE'] nor ['RESTART']. *)
Inductive Message : Set :=
  | MOVE (boardIndex cellIndex : nat)
  | RESTART
  | Unknown.

(** [handleOnlineData]: a move of the peer goes through [handleCellClick]
    as a remote move, a restart gives a fresh online state.  The callback
    is handed to [peerService] once, by [startHosting] or [joinGame], so
    the [handleCellClick] it calls is the one of that render: the
    [lastMove] and [onlineRole] in its closure are those the component
    held then, [closureLastMove] and [closureRole], whatever the session
    holds when the message arrives. *)
Definition handleOnlineData (closureLastMove : option Move)
    (closureRole : option OnlineRole) (s : Session) (data : Message) : result Session :=
  match data with
  | MOVE b c =>
      next ← handleCellClick closureLastMove closureRole b c true (gameState s);
      Ok {| gameState := next;
            onlineState := onlineState s;
            onlineRole := onlineRole s;
            lastMove := if decide (next = gameState s) then lastMove s
                        else Some {| boardIndex := b; cellIndex := c |} |}
  | RESTART =>
      Ok {| gameState := resetGameState PvOnline Beginner;
            onlineState := onlineState s;
            onlineRole := onlineRole s;
            lastMove := None |}
  | Unknown => Ok s
  end.

(** The message a click on cell [c] of board [b] hands to [peerService.send]:
    [handleCellClick] sends the move on the path that accepts it, in online
    mode, when the move is local. *)
Definition sent_by_click (s : Session) (b c : nat) : option Message :=
  if isInteractionAllowed s then
    match handleCellClick (lastMove s) (onlineRole s) b c false (gameState s) with
    | Ok next =>
        if bool_decide (gameMode (gameState s) = PvOnline)
           && bool_decide (next ≠ gameState s)
        then Some (MOVE b c) else None
    | _ => None
    end
  else None.

(** [isValidTarget], as the render computes it for board [idx]. *)
Definition isValidTarget (gs : GameState) (idx : nat) : result bool :=
  status ← defined (smallBoardStatuses gs !! idx);
  let isComplete := decided status in
  Ok (bool_decide (globalWinner gs = None) && negb (isGlobalDraw gs) && negb isComplete
      && (bool_decide (nextBoardIndex gs = None) || bool_decide (nextBoardIndex gs = Some idx))).

(** The [disabled] attribute of the button of cell [c] in the [SmallBoard]
    of board [b]: the board is handed [isValidTarget && isInteractionAllowed]
    as its [isValidTarget]. *)
Definition cellDisabled (s : Session) (b c : nat) : result bool :=
  cells ← defined (board (gameState s) !! b);
  status ← defined (smallBoardStatuses (gameState s) !! b);
  valid ← isValidTarget (gameState s) b;
  let isValidTarget := valid && isInteractionAllowed s in
  let isComplete := decided status in
  Ok (bool_decide (cells !! c ≠ Some None) || negb isValidTarget || isComplete).

(** [startNewGame]: a match that is not online drops the connection first;
    every new match starts from a fresh state without a last move. *)
Definition startNewGame (s : Session) (mode : GameMode) (difficulty : AiDifficulty) : Session :=
  {| gameState := resetGameState mode difficulty;
     onlineState := if decide (mode ≠ PvOnline) then IDLE else onlineState s;
     onlineRole := if decide (mode ≠ PvOnline) then None else onlineRole s;
     lastMove := None |}.

(** What [saveGame] hands to [JSON.stringify]: the fields of the game
    state, the history emptied, and the last move under [lastMoveState].
    The values are arrays, strings, booleans, [null] and small integers,
    which [JSON.parse] gives back as they were, so the stored text is
    modelled by the value itself. *)
Record SaveFile : Set := {
  saved : GameState;
  lastMoveState : option Move
}.

Definition saveGame (s : Session) : SaveFile :=
  let gs := gameState s in
  {| saved := {| board := board gs;
                 smallBoardStatuses := smallBoardStatuses gs;
                 currentPlayer := currentPlayer gs;
                 nextBoardIndex := nextBoardIndex gs;
                 globalWinner := globalWinner gs;
                 isGlobalDraw := isGlobalDraw gs;
                 history := [];
                 moveCount := moveCount gs;
                 gameMode := gameMode gs;
                 aiDifficulty := aiDifficulty gs |};
     lastMoveState := lastMove s |}.

(** [loadGame] on what [localStorage] holds under the save key: nothing,
    or a file written by [saveGame].  Such a file has its two arrays, so
    the check for an invalid file passes, and a tier, so the default is
    not taken.  The last move is set only when the file has one. *)
Definition loadGame (stored : option SaveFile) (s : Session) : Session :=
  match stored with
  | None => s
  | Some parsed =>
      {| gameState := {| board := board (saved parsed);
                         smallBoardStatuses := smallBoardStatuses (saved parsed);
                         currentPlayer := currentPlayer (saved parsed);
                         nextBoardIndex := nextBoardIndex (saved parsed);
                         globalWinner := globalWinner (saved parsed);
                         isGlobalDraw := isGlobalDraw (saved parsed);
                         history := [];
                         moveCount := moveCount (saved parsed);
                         gameMode := gameMode (saved parsed);
                         aiDifficulty := aiDifficulty (saved parsed) |};
         onlineState := onlineState s;
         onlineRole := onlineRole s;
         lastMove := match lastMoveState parsed with
                     | Some m => Some m
                     | None => lastMove s
                     end |}
  end.

(** ** Vocabulary of the specification *)

(** The three cells of a combination all hold the mark [p]. *)
Definition uniform (cells : SmallBoardState) (cb : combo) (p : Player.t) : Prop :=
  let '(a, b, c) := cb in
  cells !! a = Some (Some p) ∧ cells !! b = Some (Some p) ∧ cells !! c = Some (Some p).

(** [cb] is the first combination of [combos], in their order, whose
    cells are uniformly [p]. *)
Definition first_uniform (cells : SmallBoardState) (combos : list combo) (cb : combo)
    (p : Player.t) : Prop :=
  ∃ before after,
    combos = before ++ cb :: after ∧ uniform cells cb p ∧
    ∀ cb' q, cb' ∈ before → ¬ uniform cells cb' q.

(** The winners of the nine sub-boards, as a board of marks. *)
Definition winners (statuses : list SmallBoardStatus) : SmallBoardState :=
  winner <$> statuses.

(** The indices of a combination lie below [n]. *)
Definition combo_below (n : nat) (cb : combo) : Prop :=
  let '(a, b, c) := cb in a < n ∧ b < n ∧ c < n.

(** The shape the data model gives a state: nine boards of nine cells,
    nine statuses, and a forced board, when set, among the nine. *)
Definition well_formed (gs : GameState) : Prop :=
  length (board gs) = 9 ∧
  Forall (λ cells : SmallBoardState, length cells = 9) (board gs) ∧
  length (smallBoardStatuses gs) = 9 ∧
  match nextBoardIndex gs with
  | Some n => n < 9
  | None => True
  end.

(** Board [b] is neither won nor drawn by its status. *)
Definition undecided (gs : GameState) (b : nat) : bool :=
  match smallBoardStatuses gs !! b with
  | Some st => negb (decided st)
  | None => false
  end.

(** Cell [c] of board [b] is empty. *)
Definition empty_at (gs : GameState) (b c : nat) : bool :=
  match board gs !! b with
  | Some cells => bool_decide (cells !! c = Some None)
  | None => false
  end.

(** The empty cells of board [b], by ascending cell index. *)
Definition empty_cells_of (gs : GameState) (b : nat) : list Move :=
  (λ c, {| boardIndex := b; cellIndex := c |}) <$> filter (λ c, empty_at gs b c) (seq 0 9).

(** The legal moves as the specification words them: none once there is a
    winner; the empty cells of the forced board when it is set and
    undecided; otherwise the empty cells of all undecided boards. *)
Definition legalMoves (gs : GameState) : list Move :=
  match globalWinner gs with
  | Some _ => []
  | None =>
      let everywhere := b ← filter (λ b, undecided gs b) (seq 0 9); empty_cells_of gs b in
      match nextBoardIndex gs with
      | Some n => if undecided gs n then empty_cells_of gs n else everywhere
      | None => everywhere
      end
  end.

(** Ascending order on (boardIndex, cellIndex). *)
Definition move_lt (m1 m2 : Move) : Prop :=
  boardIndex m1 < boardIndex m2 ∨
  (boardIndex m1 = boardIndex m2 ∧ cellIndex m1 < cellIndex m2).

#[global] Instance well_formed_dec gs : Decision (well_formed gs).
Proof. unfold well_formed. destruct (nextBoardIndex gs); apply _. Defined.

#[global] Instance move_lt_dec : RelDecision move_lt.
Proof. intros m1 m2. unfold move_lt. apply _. Defined.

(** All 81 positions, in ascending order. *)
Definition all_positions : list Move :=
  b ← seq 0 9; (λ c, {| boardIndex := b; cellIndex := c |}) <$> seq 0 9.

(** Placing the mark of [player] in the cell of move [m] makes [player]
    the winner of the move's board. *)
Definition completes (gs : GameState) (player : Player.t) (m : Move) : bool :=
  match board gs !! boardIndex m with
  | Some cells =>
      bool_decide (winner (checkSmallBoardStatus (<[cellIndex m := Some player]> cells))
                   = Some player)
  | None => false
  end.

(** Placing the mark of [player] in the cell of move [m] wins the move's
    board and, with that board's new status, the meta-board. *)
Definition wins_game (gs : GameState) (player : Player.t) (m : Move) : bool :=
  match board gs !! boardIndex m with
  | Some cells =>
      let status := checkSmallBoardStatus (<[cellIndex m := Some player]> cells) in
      match checkGlobalWinner (<[boardIndex m := status]> (smallBoardStatuses gs)) with
      | Ok r => bool_decide (winner status = Some player) && bool_decide (winner r = Some player)
      | _ => false
      end
  | None => false
  end.

(** The cell of board [b] that [canWinBoard] names for the opponent of the
    player to move, if any. *)
Definition threat (gs : GameState) (b : nat) : option nat :=
  match board gs !! b with
  | Some cells => canWinBoard cells (other (currentPlayer gs))
  | None => None
  end.

(** The score of a move without the noise. *)
Definition base_score (gs : GameState) (m : Move) : Z :=
  match evaluateMove gs m with
  | Ok z => z
  | _ => 0%Z
  end.

(** A value [Math.random()] can return: a double in [0, 1). *)
Definition unit_interval (r : float) : bool := ((0 <=? r) && (r <? 1))%float.

(** The score the Advanced tier compares for a move of base score [base]
    whose noise is drawn as [r]. *)
Definition noisy_score (base : Z) (r : float) : float := (of_int base + r * 5)%float.

(** A value [Math.random()] can return for which [Math.floor(r * n)] is
    [i]: the double nearest to (i + 1/2) / n. *)
Definition draw_for (i n : nat) : float :=
  (of_int (2 * Z.of_nat i + 1) / of_int (2 * Z.of_nat n))%float.

(** The legal moves with their noisy scores, move number [k] (from 0)
    drawing its noise at call number [k] of [Math.random()]. *)
Definition noisy_scores (random : nat → float) (gs : GameState) : list (Move * float) :=
  imap (λ k m, (m, noisy_score (base_score gs m) (random k))) (legalMoves gs).

(** The largest of the scores of [ps]; [-Infinity] when there is none. *)
Definition top_score (ps : list (Move * float)) : float :=
  foldr (λ p top, if (top <? p.2)%float then p.2 else top) neg_infinity ps.

(** The set the specification has the Advanced tier choose from: the
    moves whose noisy score is within 0.1 of the largest noisy score. *)
Definition near_the_top (ps : list (Move * float)) : list Move :=
  (filter (λ p, near p.2 (top_score ps) = true) ps).*1.

(** *** Doubles on a grid

    Every finite double, and every product of two, is an integer multiple
    of 2^-2200.  [on_grid] gives that multiple, the exact value of the
    double in units of 2^-2200; zeros and what is not finite give 0. *)
Definition grid : Z := 2200.

Definition on_grid (f : spec_float) : Z :=
  match f with
  | S754_finite s m e => cond_Zopp s (Z.pos m * 2 ^ (e + grid))%Z
  | _ => 0%Z
  end.

Definition is_finite (f : spec_float) : bool :=
  match f with
  | S754_zero _ | S754_finite _ _ _ => true
  | _ => false
  end.

Definition fin (x : float) : Prop := is_finite (Prim2SF x) = true.
Definition val (x : float) : Z := on_grid (Prim2SF x).

(** Half the least positive double, on the grid: the error of rounding
    where doubles are subnormal. *)
Definition tiny : Z := (2 ^ (grid - 1022))%Z.

(** [μ] is a magnitude that rounding the exact magnitude [P] can give:
    the relative error is at most 2^-53 upwards and 2^-52 downwards, up
    to [tiny]. *)
Definition rounds_to (P μ : Z) : Prop :=
  (2 ^ 53 * (μ - P) ≤ P + tiny ∧ 2 ^ 52 * (P - μ) ≤ P + tiny)%Z.

(** The same for a signed exact value [T] and its rounding [v]. *)
Definition rounds_signed (T v : Z) : Prop :=
  ((T = 0 → v = 0) ∧ (0 < T → 0 ≤ v ∧ rounds_to T v) ∧
   (T < 0 → v ≤ 0 ∧ rounds_to (- T) (- v)))%Z.

(** The draw flag agrees with the statuses: it is set only when every
    sub-board is won or drawn. *)
Definition draw_consistent (gs : GameState) : Prop :=
  isGlobalDraw gs = true → forallb decided (smallBoardStatuses gs) = true.

(** What an accepted move leaves, field by field. *)
Record accepted (b c : nat) (gs gs' : GameState) : Prop := {
  acc_winner : globalWinner gs = None;
  acc_cell : ∃ cells, board gs !! b = Some cells ∧ cells !! c = Some None;
  acc_forced : nextBoardIndex gs = None ∨ nextBoardIndex gs = Some b;
  acc_target : ∃ st, smallBoardStatuses gs !! b = Some st ∧ decided st = false;
  acc_board :
    board gs' =
      imap (fun bIdx cells =>
              if decide (bIdx = b)
              then imap (fun cIdx cell =>
                           if decide (cIdx = c) then Some (currentPlayer gs) else cell) cells
              else cells) (board gs);
  acc_statuses :
    ∃ newCells, board gs' !! b = Some newCells ∧
      smallBoardStatuses gs' = <[b := checkSmallBoardStatus newCells]> (smallBoardStatuses gs);
  acc_global :
    ∃ global, checkGlobalWinner (smallBoardStatuses gs') = Ok global ∧
      globalWinner gs' = winner global ∧ isGlobalDraw gs' = isDraw global;
  acc_next :
    ∃ st, smallBoardStatuses gs' !! c = Some st ∧
      nextBoardIndex gs' = if decided st then None else Some c;
  acc_turn : currentPlayer gs' = other (currentPlayer gs);
  acc_count : moveCount gs' = moveCount gs + 1
}.

(** The content of cell [j] of board [i]; [None] where there is no such
    cell. *)
Definition cell_at (gs : GameState) (i j : nat) : option CellValue :=
  cells ← board gs !! i; cells !! j.

(** The turn rule of online play lets the move through: the match is not
    online, or the move is remote, or the player to move is the mark of
    the role (X for the host, O otherwise). *)
Definition turn_allowed (onlineRole : option OnlineRole) (isRemote : bool) (gs : GameState)
  : bool :=
  negb (bool_decide (gameMode gs = PvOnline) && negb isRemote
        && bool_decide (currentPlayer gs ≠
                        if decide (onlineRole = Some HOST) then Player.X else Player.O)).

(** The state a history item stands for, [h] being the history before it:
    the state [undoMove] builds from the item. *)
Definition state_before (item : GameHistoryItem) (h : list GameHistoryItem) (gs : GameState)
  : GameState :=
  {| board := h_board item;
     smallBoardStatuses := h_smallBoardStatuses item;
     currentPlayer := h_currentPlayer item;
     nextBoardIndex := h_nextBoardIndex item;
     globalWinner := None;
     isGlobalDraw := false;
     history := h;
     moveCount := length h;
     gameMode := gameMode gs;
     aiDifficulty := aiDifficulty gs |}.

(** The history item [handleCellClick] appends for a move made in [gs]. *)
Definition item_of (gs : GameState) (lastMove : option Move) : GameHistoryItem :=
  {| h_board := board gs;
     h_smallBoardStatuses := smallBoardStatuses gs;
     h_currentPlayer := currentPlayer gs;
     h_nextBoardIndex := nextBoardIndex gs;
     h_lastMove := lastMove |}.

(** The state [gs] with [h] for its history. *)
Definition with_history (h : list GameHistoryItem) (gs : GameState) : GameState :=
  {| board := board gs;
     smallBoardStatuses := smallBoardStatuses gs;
     currentPlayer := currentPlayer gs;
     nextBoardIndex := nextBoardIndex gs;
     globalWinner := globalWinner gs;
     isGlobalDraw := isGlobalDraw gs;
     history := h;
     moveCount := moveCount gs;
     gameMode := gameMode gs;
     aiDifficulty := aiDifficulty gs |}.

(** Cell [i] of [cells] is empty and the mark of [player] there makes
    [player] the winner of the board. *)
Definition winning_cell (cells : SmallBoardState) (player : Player.t) (i : nat) : Prop :=
  cells !! i = Some None ∧
  winner (checkSmallBoardStatus (<[i := Some player]> cells)) = Some player.

(** [m1] is [m2] or comes before it in (boardIndex, cellIndex) order. *)
Definition move_le (m1 m2 : Move) : Prop := m1 = m2 ∨ move_lt m1 m2.

(** ** Example states *)

Definition free : SmallBoardStatus := {| winner := None; isDraw := false |}.
Definition won (p : Player.t) : SmallBoardStatus := {| winner := Some p; isDraw := false |}.
Definition x : CellValue := Some Player.X.
Definition o : CellValue := Some Player.O.
Definition e : CellValue := None.
Definition mv (b c : nat) : Move := {| boardIndex := b; cellIndex := c |}.

(** The moves of a game against the CPU, played one after the other
    through [handleCellClick]; [lastMove] is the move before. *)
Fixpoint play (gs : GameState) (lastMove : option Move) (moves : list Move)
  : result GameState :=
  match moves with
  | [] => Ok gs
  | m :: rest =>
      gs' ← handleCellClick lastMove None (boardIndex m) (cellIndex m) false gs;
      play gs' (Some m) rest
  end.

(** The state such a game is in after [moves]. *)
Definition game_of (difficulty : AiDifficulty) (moves : list Move) : GameState :=
  match play (resetGameState PvCPU difficulty) None moves with
  | Ok gs => gs
  | _ => resetGameState PvCPU difficulty
  end.

(** The opening position, the CPU on the Advanced tier. *)
Definition opening : GameState := resetGameState PvCPU Advanced.

(** Draws of [Math.random()]: 1/64 at call 13 (the noise of the move to
    cell 4 of board 1), [r] at call 81 (the final pick), 0 elsewhere. *)
Definition late_best (r : float) (k : nat) : float :=
  if decide (k = 13) then 0x1p-6%float else if decide (k = 81) then r else 0%float.

(** A game after which O, to move anywhere, holds boards 2 and 6 and wins
    board 4 at its centre (column 1-4-7), while X would win board 4 at
    the same cell (diagonal 2-4-6). *)
Definition center_race_moves : list Move :=
  [ mv 8 5; mv 5 8; mv 8 4; mv 4 8; mv 8 2; mv 2 2; mv 2 6; mv 6 8; mv 8 3;
    mv 3 4; mv 4 6; mv 6 0; mv 0 4; mv 4 1; mv 1 8; mv 7 4; mv 4 2; mv 2 8;
    mv 7 2; mv 2 5; mv 5 4; mv 4 7; mv 7 6; mv 6 4; mv 4 5; mv 5 5; mv 5 6 ].

Definition center_race : GameState := game_of Advanced center_race_moves.

(** A game after which O, to move anywhere, holds boards 0 and 8 and wins
    board 4 at its centre (diagonal 2-4-6), X having no cell that wins
    board 4. *)
Definition center_win_moves : list Move :=
  [ mv 3 8; mv 8 8; mv 8 0; mv 0 0; mv 0 1; mv 1 0; mv 0 8; mv 8 2; mv 2 4;
    mv 4 2; mv 2 0; mv 0 3; mv 3 7; mv 7 1; mv 1 8; mv 8 5; mv 5 0; mv 0 6;
    mv 6 4; mv 4 6; mv 6 5; mv 5 8; mv 4 3; mv 3 6; mv 6 8 ].

Definition center_win : GameState := game_of Advanced center_win_moves.

(** The same game, the CPU on the Intermediate tier. *)
Definition center_win_mid : GameState := game_of Intermediate center_win_moves.

(** The opening position with the draw flag set although no board is
    decided. *)
Definition draw_flag : GameState :=
  {| board := createInitialBoard;
     smallBoardStatuses := createInitialStatuses;
     currentPlayer := Player.X;
     nextBoardIndex := None;
     globalWinner := None;
     isGlobalDraw := true;
     history := [];
     moveCount := 0;
     gameMode := PvP;
     aiDifficulty := Beginner |}.

(** An online match after the first move of the host, as the guest has it. *)
Definition after_host_move : GameState :=
  match handleCellClick None (Some GUEST) 0 4 true (resetGameState PvOnline Beginner) with
  | Ok gs => gs
  | _ => resetGameState PvOnline Beginner
  end.

Definition guest_session : Session :=
  {| gameState := after_host_move;
     onlineState := CONNECTED;
     onlineRole := Some GUEST;
     lastMove := Some (mv 0 4) |}.

(** A board whose top row X holds, and a meta-board whose diagonal X holds. *)
Definition top_row : SmallBoardState := [x; x; x; o; o; e; e; e; e].
Definition diagonal : list SmallBoardStatus :=
  [won Player.X; free; free; free; won Player.X; free; free; free; won Player.X].

(** ** Arithmetic of doubles

    The operations of the kernel's floats are specified by [SpecFloat]
    through the axioms of [FloatAxioms].  The lemmas below read that
    specification on the grid of [on_grid]: comparisons compare values,
    and a sum, difference or product is the exact one rounded. *)

Section Doubles.
#[local] Open Scope Z_scope.

(** A mantissa of [d] binary digits lies in [2^(d-1), 2^d). *)
Lemma digits2_pos_bounds (m : positive) :
  2 ^ (Z.pos (digits2_pos m) - 1) ≤ Z.pos m < 2 ^ Z.pos (digits2_pos m).
Proof.
  induction m as [m IH|m IH|]; cbn [digits2_pos].
  - rewrite Pos2Z.inj_succ, Z.pow_succ_r by lia.
    replace (Z.succ (Z.pos (digits2_pos m)) - 1) with (Z.succ (Z.pos (digits2_pos m) - 1)) by lia.
    rewrite Z.pow_succ_r by lia. lia.
  - rewrite Pos2Z.inj_succ, Z.pow_succ_r by lia.
    replace (Z.succ (Z.pos (digits2_pos m)) - 1) with (Z.succ (Z.pos (digits2_pos m) - 1)) by lia.
    rewrite Z.pow_succ_r by lia. lia.
  - cbn. lia.
Qed.

Lemma shr_1_spec mrs :
  0 ≤ shr_m mrs →
  shr_m (shr_1 mrs) = Z.div2 (shr_m mrs) ∧ shr_r (shr_1 mrs) = Z.odd (shr_m mrs).
Proof.
  destruct mrs as [m r s]. cbn [shr_m shr_r]. intros Hm.
  destruct m as [|[p|p|]|p]; done.
Qed.

(** Shifting right [p] times keeps the quotient by [2^p] and, as the
    round bit, the last bit shifted out. *)
Lemma iter_pos_shr_1 (p : positive) :
  ∀ N q mrs, 0 ≤ N → 0 ≤ q →
    shr_m mrs = Z.shiftr N q → shr_r mrs = Z.testbit N (q - 1) →
    shr_m (SpecFloat.iter_pos shr_1 p mrs) = Z.shiftr N (q + Z.pos p) ∧
    shr_r (SpecFloat.iter_pos shr_1 p mrs) = Z.testbit N (q + Z.pos p - 1).
Proof.
  assert (Hstep : ∀ N q mrs, 0 ≤ N → 0 ≤ q →
    shr_m mrs = Z.shiftr N q → shr_r mrs = Z.testbit N (q - 1) →
    shr_m (shr_1 mrs) = Z.shiftr N (q + 1) ∧ shr_r (shr_1 mrs) = Z.testbit N (q + 1 - 1)).
  { intros N q mrs HN Hq Hm Hr.
    destruct (shr_1_spec mrs) as [H1 H2].
    { rewrite Hm. by apply Z.shiftr_nonneg. }
    rewrite H1, H2, Hm. split.
    - rewrite Z.div2_spec, Z.shiftr_shiftr by lia. done.
    - rewrite <- Z.bit0_odd, Z.shiftr_spec by lia. f_equal. lia. }
  induction p as [p IH|p IH|]; intros N q mrs HN Hq Hm Hr; cbn [SpecFloat.iter_pos].
  - destruct (Hstep N q mrs HN Hq Hm Hr) as [H1 H2].
    destruct (IH N (q + 1) _ HN ltac:(lia) H1 H2) as [H3 H4].
    destruct (IH N (q + 1 + Z.pos p) _ HN ltac:(lia) H3 H4) as [H5 H6].
    rewrite H5, H6. split; f_equal; lia.
  - destruct (IH N q _ HN Hq Hm Hr) as [H3 H4].
    destruct (IH N (q + Z.pos p) _ HN ltac:(lia) H3 H4) as [H5 H6].
    rewrite H5, H6. split; f_equal; lia.
  - by apply Hstep.
Qed.

Lemma fexp_binary64 x : fexp prec emax x = Z.max (x - 53) (-1074).
Proof. reflexivity. Qed.

Lemma testbit_half (M p : Z) :
  0 ≤ M → 0 < p → Z.testbit M (p - 1) = true → 2 ^ p ≤ 2 * (M - M / 2 ^ p * 2 ^ p).
Proof.
  intros HM Hp Hbit. apply Z.testbit_true in Hbit; [|lia].
  assert (Hpow : 2 ^ p = 2 ^ (p - 1) * 2).
  { replace p with (Z.succ (p - 1)) at 1 by lia. rewrite Z.pow_succ_r by lia. lia. }
  assert (Hh : 0 < 2 ^ (p - 1)) by (apply Z.pow_pos_nonneg; lia).
  assert (Hdiv : M / 2 ^ p = M / 2 ^ (p - 1) / 2).
  { rewrite Hpow, Z.div_div by lia. done. }
  pose proof (Z.div_mod (M / 2 ^ (p - 1)) 2 ltac:(lia)) as H1.
  pose proof (Z.mul_div_le M (2 ^ (p - 1)) Hh) as H2.
  rewrite Hbit in H1. rewrite Hdiv, Hpow. nia.
Qed.

Lemma round_nearest_even_range mrs :
  let k := round_nearest_even (shr_m mrs) (loc_of_shr_record mrs) in
  shr_m mrs ≤ k ≤ shr_m mrs + 1 ∧ (k = shr_m mrs + 1 → shr_r mrs = true).
Proof.
  destruct mrs as [m [] []]; cbn; try (destruct (Z.even m)); lia.
Qed.

Lemma pow2_split (a b : Z) : 0 ≤ a → 0 ≤ b → 2 ^ (a + b) = 2 ^ a * 2 ^ b.
Proof. intros. by rewrite Z.pow_add_r. Qed.

Lemma renormalize_grid (s : bool) (k X : Z) :
  0 ≤ k ≤ 2 ^ 53 → -1074 ≤ X ≤ 900 →
  let f :=
    let '(mrs, e) := shr (shr_record_of_loc k loc_Exact) X
                       (fexp prec emax (Zdigits2 k + X) - X) in
    match shr_m mrs with
    | 0 => S754_zero s
    | Z.pos m => if e <=? emax - prec then S754_finite s m e else S754_infinity s
    | Z.neg _ => S754_nan
    end in
  f = S754_zero s ∧ k = 0 ∨
  ∃ m e, f = S754_finite s m e ∧ Z.pos m * 2 ^ (e + grid) = k * 2 ^ (X + grid).
Proof.
  intros Hk HX. rewrite fexp_binary64. destruct k as [|q|q]; [| |lia].
  - left. cbn [Zdigits2]. destruct (_ - X) as [|p|p] eqn:Hp; [done|lia|done].
  - right. cbn [Zdigits2]. pose proof (digits2_pos_bounds q) as [HqL HqU].
    destruct (decide (Z.pos q = 2 ^ 53)) as [Hq|Hq].
    + injection Hq as ->. change (Z.pos (digits2_pos _)) with 54.
      replace ((54 + X - 53) `max` (-1074) - X) with 1 by lia.
      cbn [shr shr_record_of_loc SpecFloat.iter_pos shr_1 shr_m].
      rewrite (proj2 (Z.leb_le (X + 1) (emax - prec))) by (change (emax - prec) with 971; lia).
      eexists _, _. split; [done|].
      replace (X + 1 + grid) with (Z.succ (X + grid)) by lia.
      rewrite Z.pow_succ_r by (unfold grid; lia). lia.
    + assert (Z.pos (digits2_pos q) ≤ 53).
      { destruct (decide (Z.pos (digits2_pos q) ≤ 53)) as [|Hn]; [done|].
        assert (2 ^ 53 ≤ 2 ^ (Z.pos (digits2_pos q) - 1)) by (apply Z.pow_le_mono_r; lia).
        lia. }
      destruct (_ - X) as [|p|p] eqn:Hp; [|lia|].
      * cbn [shr shr_record_of_loc shr_m].
        rewrite (proj2 (Z.leb_le X (emax - prec))) by (change (emax - prec) with 971; lia).
        by eexists _, _.
      * cbn [shr shr_record_of_loc shr_m].
        rewrite (proj2 (Z.leb_le X (emax - prec))) by (change (emax - prec) with 971; lia).
        by eexists _, _.
Qed.

(** Rounding to nearest: what [binary_round_aux] makes of the exact
    magnitude [M * 2^E] is a zero or a finite double whose magnitude is
    within half a unit in the last place, and is exact where [M * 2^E] is
    a double already. *)
Lemma binary_round_aux_grid (s : bool) (M : positive) (E : Z) :
  - grid ≤ E → Z.pos (digits2_pos M) + E ≤ 900 →
  ∃ μ, let f := binary_round_aux prec emax s (Z.pos M) E loc_Exact in
       let P := Z.pos M * 2 ^ (E + grid) in
    (f = S754_zero s ∧ μ = 0 ∨ ∃ m e, f = S754_finite s m e ∧ μ = Z.pos m * 2 ^ (e + grid)) ∧
    2 ^ 53 * (μ - P) ≤ P + tiny ∧ 2 ^ 52 * (P - μ) ≤ P + tiny ∧
    (Z.pos M < 2 ^ 53 → -1074 ≤ E → μ = P).
Proof.
  intros HE Hd. pose proof (digits2_pos_bounds M) as [HdL HdU].
  unfold binary_round_aux, shr_fexp. cbn [Zdigits2]. rewrite fexp_binary64.
  set (d := Z.pos (digits2_pos M)) in *.
  set (E' := Z.max (d + E - 53) (-1074)).
  assert (Htiny : 0 < tiny) by done.
  assert (Hu : 0 < 2 ^ (E + grid)) by (apply Z.pow_pos_nonneg; lia).
  destruct (E' - E) as [|p|p] eqn:Hp.
  - exists (Z.pos M * 2 ^ (E + grid)). cbn [shr shr_record_of_loc shr_m loc_of_shr_record
      round_nearest_even Zdigits2]. rewrite fexp_binary64. fold d. fold E'. rewrite Hp.
    cbn [shr shr_record_of_loc shr_m]. rewrite (proj2 (Z.leb_le E (emax - prec))).
    2:{ change (emax - prec) with 971. lia. }
    split; [right; by exists M, E|]. lia.
  - destruct (iter_pos_shr_1 p (Z.pos M) 0 (shr_record_of_loc (Z.pos M) loc_Exact))
      as [Hm Hr]; [lia | lia | done | done |].
    cbn [shr]. set (mrs := SpecFloat.iter_pos shr_1 p _) in *.
    destruct (round_nearest_even_range mrs) as [Hk Hk1].
    set (k := round_nearest_even (shr_m mrs) (loc_of_shr_record mrs)) in *.
    rewrite Z.add_0_l in Hm, Hr. rewrite Hm in Hk, Hk1. rewrite Hr in Hk1.
    rewrite Z.shiftr_div_pow2 in Hk, Hk1 by lia.
    assert (HE' : E + Z.pos p = E') by lia.
    set (t := 2 ^ Z.pos p) in *. set (u := 2 ^ (E + grid)) in *.
    assert (Ht : 0 < t) by (apply Z.pow_pos_nonneg; lia).
    assert (Htu : 2 ^ (E' + grid) = t * u).
    { unfold t, u. rewrite <- Z.pow_add_r by lia. f_equal. lia. }
    pose proof (Z.mul_div_le (Z.pos M) t Ht) as Hlo.
    pose proof (Z.mul_succ_div_gt (Z.pos M) t Ht) as Hhi.
    set (m := Z.pos M `div` t) in *.
    assert (Hm53 : m < 2 ^ 53).
    { assert (2 ^ d ≤ 2 ^ 53 * t).
      { unfold t. rewrite <- Z.pow_add_r by lia. apply Z.pow_le_mono_r; lia. }
      nia. }
    assert (Hm0 : 0 ≤ m) by (apply Z.div_pos; lia).
    assert (HK : 2 ^ 52 * (t * u) ≤ Z.pos M * u + tiny).
    { rewrite <- Htu, <- Z.pow_add_r by lia.
      destruct (Z.max_spec (d + E - 53) (-1074)) as [[_ Hmax]|[_ Hmax]]; fold E' in Hmax.
      - rewrite Hmax. change (2 ^ (52 + (-1074 + grid))) with tiny. nia.
      - replace (52 + (E' + grid)) with ((d - 1) + (E + grid)) by lia.
        rewrite Z.pow_add_r by lia. fold u. nia. }
    destruct (renormalize_grid s k E') as [[Hf Hk0]|(m' & e' & Hf & Hval)]; [lia|lia| |].
    + exists 0. rewrite HE'. split; [by left|]. subst k.
      split_and!; [nia | nia |]. intros HM ?. assert (d ≤ 53); [|lia].
      destruct (decide (d ≤ 53)) as [|Hn]; [done|].
      assert (2 ^ 53 ≤ 2 ^ (d - 1)) by (apply Z.pow_le_mono_r; lia). lia.
    + exists (k * (t * u)). rewrite HE'. split; [right; exists m', e'; by rewrite Htu in Hval|].
      split_and!.
      * destruct (decide (k = m + 1)) as [Hk2|Hk2].
        -- pose proof (testbit_half (Z.pos M) (Z.pos p) ltac:(lia) ltac:(lia) (Hk1 Hk2)) as Hh.
           fold t in Hh. fold m in Hh. nia.
        -- assert (k = m) by lia. nia.
      * nia.
      * intros HM ?. assert (d ≤ 53); [|lia].
        destruct (decide (d ≤ 53)) as [|Hn]; [done|].
        assert (2 ^ 53 ≤ 2 ^ (d - 1)) by (apply Z.pow_le_mono_r; lia). lia.
  - exists (Z.pos M * 2 ^ (E + grid)). cbn [shr shr_record_of_loc shr_m loc_of_shr_record
      round_nearest_even Zdigits2]. rewrite fexp_binary64. fold d. fold E'. rewrite Hp.
    cbn [shr shr_record_of_loc shr_m]. rewrite (proj2 (Z.leb_le E (emax - prec))).
    2:{ change (emax - prec) with 971. lia. }
    split; [right; by exists M, E|]. lia.
Qed.

Lemma bounded_canonical (m : positive) (e : Z) :
  bounded prec emax m e = true →
  -1074 ≤ e ≤ 971 ∧ Z.pos m < 2 ^ 53 ∧ (-1074 < e → 2 ^ 52 ≤ Z.pos m).
Proof.
  unfold bounded, canonical_mantissa. rewrite fexp_binary64.
  intros [Hc He]%andb_true_iff. apply Z.eqb_eq in Hc. apply Z.leb_le in He.
  change (emax - prec) with 971 in He.
  pose proof (digits2_pos_bounds m) as [HL HU].
  set (d := Z.pos (digits2_pos m)) in *.
  split; [lia|]. split.
  - assert (2 ^ d ≤ 2 ^ 53) by (apply Z.pow_le_mono_r; lia). lia.
  - intros ?. replace d with 53 in HL by lia. exact HL.
Qed.

Lemma magnitude_lt (m1 m2 : positive) (e1 e2 : Z) :
  bounded prec emax m1 e1 = true → bounded prec emax m2 e2 = true → e1 < e2 →
  Z.pos m1 * 2 ^ (e1 + grid) < Z.pos m2 * 2 ^ (e2 + grid).
Proof.
  intros (He1 & Hm1 & _)%bounded_canonical (He2 & _ & Hm2)%bounded_canonical Hlt.
  specialize (Hm2 ltac:(lia)).
  assert (H1 : 0 < 2 ^ (e1 + grid)) by (apply Z.pow_pos_nonneg; unfold grid; lia).
  assert (H2 : 2 * 2 ^ (e1 + grid) ≤ 2 ^ (e2 + grid)).
  { rewrite <- Z.pow_succ_r by (unfold grid; lia). apply Z.pow_le_mono_r; lia. }
  change (2 ^ 53) with (2 ^ 52 * 2) in Hm1. nia.
Qed.

Lemma magnitude_compare (m1 m2 : positive) (e1 e2 : Z) :
  bounded prec emax m1 e1 = true → bounded prec emax m2 e2 = true →
  match e1 ?= e2 with
  | Lt => Lt
  | Gt => Gt
  | Eq => Pos.compare_cont Eq m1 m2
  end = (Z.pos m1 * 2 ^ (e1 + grid) ?= Z.pos m2 * 2 ^ (e2 + grid)).
Proof.
  intros H1 H2. destruct (Z.compare_spec e1 e2) as [->|Hlt|Hgt].
  - pose proof (bounded_canonical _ _ H2) as (He & _).
    rewrite <- Zmult_compare_compat_r
      by (apply Z.lt_gt, Z.pow_pos_nonneg; unfold grid; lia). done.
  - symmetry. apply Z.compare_lt_iff. by apply magnitude_lt.
  - symmetry. apply Z.compare_gt_iff. by apply magnitude_lt.
Qed.

(** On finite doubles the comparison of IEEE 754 is the comparison of
    the values. *)
Lemma SFcompare_grid (f1 f2 : spec_float) :
  valid_binary f1 = true → valid_binary f2 = true →
  is_finite f1 = true → is_finite f2 = true →
  SFcompare f1 f2 = Some (on_grid f1 ?= on_grid f2).
Proof.
  intros Hv1 Hv2 Hf1 Hf2.
  destruct f1 as [s1| | |s1 m1 e1], f2 as [s2| | |s2 m2 e2]; try done; cbn in Hv1, Hv2.
  - cbn [SFcompare on_grid]. f_equal. symmetry.
    assert (0 < Z.pos m2 * 2 ^ (e2 + grid)).
    { apply bounded_canonical in Hv2 as (? & _).
      apply Z.mul_pos_pos; [done|apply Z.pow_pos_nonneg; unfold grid; lia]. }
    destruct s2; cbn [cond_Zopp]; [apply Z.compare_gt_iff | apply Z.compare_lt_iff]; lia.
  - cbn [SFcompare on_grid]. f_equal. symmetry.
    assert (0 < Z.pos m1 * 2 ^ (e1 + grid)).
    { apply bounded_canonical in Hv1 as (? & _).
      apply Z.mul_pos_pos; [done|apply Z.pow_pos_nonneg; unfold grid; lia]. }
    destruct s1; cbn [cond_Zopp]; [apply Z.compare_lt_iff | apply Z.compare_gt_iff]; lia.
  - assert (0 < Z.pos m1 * 2 ^ (e1 + grid)).
    { apply bounded_canonical in Hv1 as (? & _).
      apply Z.mul_pos_pos; [done|apply Z.pow_pos_nonneg; unfold grid; lia]. }
    assert (0 < Z.pos m2 * 2 ^ (e2 + grid)).
    { apply bounded_canonical in Hv2 as (? & _).
      apply Z.mul_pos_pos; [done|apply Z.pow_pos_nonneg; unfold grid; lia]. }
    pose proof (magnitude_compare m1 m2 e1 e2 Hv1 Hv2) as Hc.
    cbn [SFcompare on_grid]. f_equal. destruct s1, s2; cbn [cond_Zopp].
    + rewrite Z.compare_opp. rewrite (Z.compare_antisym (Z.pos m1 * _)), <- Hc.
      by destruct (e1 ?= e2).
    + symmetry. apply Z.compare_lt_iff. lia.
    + symmetry. apply Z.compare_gt_iff. lia.
    + exact Hc.
Qed.

Lemma rounds_to_refl P : 0 ≤ P → rounds_to P P.
Proof. intros. assert (0 < tiny) by done. unfold rounds_to. lia. Qed.

Lemma iter_xO (m k : positive) : Z.pos (Pos.iter xO m k) = Z.pos m * 2 ^ Z.pos k.
Proof.
  induction k as [|k IH] using Pos.peano_ind.
  - cbn. lia.
  - rewrite Pos.iter_succ, Pos2Z.inj_xO, IH, Pos2Z.inj_succ, Z.pow_succ_r by lia. lia.
Qed.

Lemma shl_align_grid (m : positive) (e e' : Z) :
  - grid ≤ e' → - grid ≤ e →
  ∃ m' e'', shl_align m e e' = (m', e'') ∧ e'' = Z.min e e' ∧
    Z.pos m' * 2 ^ (e'' + grid) = Z.pos m * 2 ^ (e + grid).
Proof.
  intros He' He. unfold shl_align. destruct (e' - e) as [|d|d] eqn:Hd.
  - exists m, e. split_and!; [done | lia | done].
  - exists m, e. split_and!; [done | lia | done].
  - eexists _, _. split_and!; [done | lia |].
    rewrite iter_xO, <- Z.mul_assoc, <- Z.pow_add_r by lia. do 2 f_equal. lia.
Qed.

Lemma binary_round_grid (s : bool) (M : positive) (E : Z) :
  - grid ≤ E → Z.pos M * 2 ^ (E + grid) < 2 ^ (grid + 800) →
  ∃ μ, let f := binary_round prec emax s M E in
       let P := Z.pos M * 2 ^ (E + grid) in
    (f = S754_zero s ∧ μ = 0 ∨ ∃ m e, f = S754_finite s m e ∧ μ = Z.pos m * 2 ^ (e + grid)) ∧
    rounds_to P μ ∧ (Z.pos M < 2 ^ 53 → -1074 ≤ E → μ = P).
Proof.
  intros HE Hbig. unfold binary_round. rewrite fexp_binary64.
  pose proof (digits2_pos_bounds M) as [HdL HdU].
  set (d := Z.pos (digits2_pos M)) in *.
  destruct (shl_align_grid M E ((d + E - 53) `max` (-1074))) as (M' & E' & -> & HE' & Hval);
    [unfold grid; lia | done |].
  assert (Hu' : 0 < 2 ^ (E' + grid)) by (apply Z.pow_pos_nonneg; unfold grid in *; lia).
  destruct (binary_round_aux_grid s M' E') as (μ & Hf & Hup & Hlo & Hex).
  { unfold grid in *. lia. }
  { pose proof (digits2_pos_bounds M') as [HdL' _].
    set (d' := Z.pos (digits2_pos M')) in *.
    destruct (decide (d' + E' ≤ 900)) as [|Hn]; [done|].
    assert (2 ^ (grid + 800) ≤ 2 ^ (d' - 1) * 2 ^ (E' + grid)).
    { rewrite <- Z.pow_add_r by (unfold grid in *; lia). apply Z.pow_le_mono_r; lia. }
    nia. }
  exists μ. cbn zeta in *. rewrite Hval in *. split; [done|]. split; [done|].
  intros HM53 HE1074. apply Hex; [|lia].
  destruct (decide (E' = E)) as [->|Hne].
  - assert (0 < 2 ^ (E + grid)) by (apply Z.pow_pos_nonneg; lia). nia.
  - assert (Hsplit : 2 ^ (E + grid) = 2 ^ (E - E') * 2 ^ (E' + grid)).
    { rewrite <- Z.pow_add_r by (unfold grid in *; lia). f_equal. lia. }
    assert (Hd53 : 2 ^ d * 2 ^ (E - E') ≤ 2 ^ 53).
    { rewrite <- Z.pow_add_r by lia. apply Z.pow_le_mono_r; lia. }
    assert (0 < 2 ^ (E - E')) by (apply Z.pow_pos_nonneg; lia).
    nia.
Qed.

Lemma rounds_signed_refl T : rounds_signed T T.
Proof.
  unfold rounds_signed. split_and!; [done| |]; intros; (split; [lia|apply rounds_to_refl; lia]).
Qed.

Lemma binary_normalize_grid (Σ e : Z) :
  - grid ≤ e → Z.abs Σ * 2 ^ (e + grid) < 2 ^ (grid + 800) →
  let f := binary_normalize prec emax Σ e false in
  is_finite f = true ∧ rounds_signed (Σ * 2 ^ (e + grid)) (on_grid f) ∧
  (Z.abs Σ < 2 ^ 53 → -1074 ≤ e → on_grid f = Σ * 2 ^ (e + grid)).
Proof.
  intros He Hbig. assert (Hu : 0 < 2 ^ (e + grid)) by (apply Z.pow_pos_nonneg; lia).
  destruct Σ as [|M|M]; cbn [binary_normalize].
  - split; [done|]. split; [apply rounds_signed_refl|done].
  - destruct (binary_round_grid false M e He) as (μ & Hf & Hr & Hexact); [done|].
    cbn zeta in *.
    assert (is_finite (binary_round prec emax false M e) = true ∧
            on_grid (binary_round prec emax false M e) = μ ∧ 0 ≤ μ) as (Hfin & -> & ?).
    { destruct Hf as [[-> ->]|(m & e' & -> & ->)]; [done|]. cbn. split_and!; [done..|].
      apply Z.mul_nonneg_nonneg; [done|apply Z.pow_nonneg; lia]. }
    split; [done|]. split; [|intros; apply Hexact; lia].
    unfold rounds_signed. split_and!; [lia| |lia]. done.
  - destruct (binary_round_grid true M e He) as (μ & Hf & Hr & Hexact); [done|].
    cbn zeta in *.
    assert (is_finite (binary_round prec emax true M e) = true ∧
            on_grid (binary_round prec emax true M e) = - μ ∧ 0 ≤ μ) as (Hfin & -> & ?).
    { destruct Hf as [[-> ->]|(m & e' & -> & ->)]; [done|]. cbn. split_and!; [done..|].
      apply Z.mul_nonneg_nonneg; [done|apply Z.pow_nonneg; lia]. }
    split; [done|]. split; [|intros; rewrite Hexact; lia].
    unfold rounds_signed. split_and!; [lia|lia|].
    intros _. split; [lia|]. rewrite Z.opp_involutive.
    replace (- (Z.neg M * 2 ^ (e + grid))) with (Z.pos M * 2 ^ (e + grid)) by lia. done.
Qed.

Lemma on_grid_finite (s : bool) (m : positive) (e : Z) :
  on_grid (S754_finite s m e) = cond_Zopp s (Z.pos m) * 2 ^ (e + grid).
Proof. destruct s; cbn; lia. Qed.

Lemma aligned_sum (sx sy : bool) (mx my : positive) (ex ey : Z) (sub : bool) :
  bounded prec emax mx ex = true → bounded prec emax my ey = true →
  let ez := Z.min ex ey in
  let Σ := (if sub then Z.sub else Z.add)
             (cond_Zopp sx (Z.pos (shl_align mx ex ez).1))
             (cond_Zopp sy (Z.pos (shl_align my ey ez).1)) in
  - grid ≤ ez ∧
  Σ * 2 ^ (ez + grid) =
    (if sub then Z.sub else Z.add) (on_grid (S754_finite sx mx ex)) (on_grid (S754_finite sy my ey)).
Proof.
  intros (Hex & _)%bounded_canonical (Hey & _)%bounded_canonical. cbn zeta.
  set (ez := Z.min ex ey).
  destruct (shl_align_grid mx ex ez) as (mx' & ex' & -> & Hex' & Hvx);
    [unfold grid; lia..|].
  destruct (shl_align_grid my ey ez) as (my' & ey' & -> & Hey' & Hvy);
    [unfold grid; lia..|].
  replace ex' with ez in * by lia. replace ey' with ez in * by lia.
  split; [unfold grid; lia|]. rewrite !on_grid_finite. cbn [fst].
  destruct sub, sx, sy; cbn [cond_Zopp]; lia.
Qed.

Lemma SFadd_grid (x y : spec_float) :
  valid_binary x = true → valid_binary y = true →
  is_finite x = true → is_finite y = true →
  Z.abs (on_grid x + on_grid y) < 2 ^ (grid + 800) →
  is_finite (SF64add x y) = true ∧
  rounds_signed (on_grid x + on_grid y) (on_grid (SF64add x y)).
Proof.
  intros Hvx Hvy Hfx Hfy Hbig.
  destruct x as [sx| | |sx mx ex], y as [sy| | |sy my ey]; try done.
  - split; [by destruct sx, sy|]. replace (on_grid (SF64add _ _)) with 0 by (by destruct sx, sy).
    apply rounds_signed_refl.
  - split; [done|]. apply rounds_signed_refl.
  - split; [done|]. cbn [SF64add SFadd on_grid]. rewrite Z.add_0_r. apply rounds_signed_refl.
  - unfold SF64add, SFadd.
    destruct (aligned_sum sx sy mx my ex ey false Hvx Hvy) as [Hez HΣ]. cbn zeta in *.
    rewrite <- HΣ in *.
    rewrite Z.abs_mul, (Z.abs_eq (2 ^ _)) in Hbig by (apply Z.pow_nonneg; lia).
    destruct (binary_normalize_grid _ _ Hez Hbig) as (? & ? & _). done.
Qed.

Lemma SFsub_grid (x y : spec_float) :
  valid_binary x = true → valid_binary y = true →
  is_finite x = true → is_finite y = true →
  Z.abs (on_grid x - on_grid y) < 2 ^ (grid + 800) →
  is_finite (SF64sub x y) = true ∧
  rounds_signed (on_grid x - on_grid y) (on_grid (SF64sub x y)).
Proof.
  intros Hvx Hvy Hfx Hfy Hbig.
  destruct x as [sx| | |sx mx ex], y as [sy| | |sy my ey]; try done.
  - split; [by destruct sx, sy|]. replace (on_grid (SF64sub _ _)) with 0 by (by destruct sx, sy).
    apply rounds_signed_refl.
  - split; [done|]. cbn [SF64sub SFsub].
    replace (on_grid (S754_finite (negb sy) my ey))
      with (on_grid (S754_zero sx) - on_grid (S754_finite sy my ey))
      by (destruct sy; cbn; lia).
    apply rounds_signed_refl.
  - split; [done|]. cbn [SF64sub SFsub on_grid]. rewrite Z.sub_0_r. apply rounds_signed_refl.
  - unfold SF64sub, SFsub.
    destruct (aligned_sum sx sy mx my ex ey true Hvx Hvy) as [Hez HΣ]. cbn zeta in *.
    rewrite <- HΣ in *.
    rewrite Z.abs_mul, (Z.abs_eq (2 ^ _)) in Hbig by (apply Z.pow_nonneg; lia).
    destruct (binary_normalize_grid _ _ Hez Hbig) as (? & ? & _). done.
Qed.

Lemma SFmul_grid (x y : spec_float) :
  valid_binary x = true → valid_binary y = true →
  is_finite x = true → is_finite y = true →
  0 ≤ on_grid x → 0 ≤ on_grid y →
  on_grid x * on_grid y < 2 ^ (grid + grid + 800) →
  is_finite (SF64mul x y) = true ∧ 0 ≤ on_grid (SF64mul x y) ∧
  ∃ P, P * 2 ^ grid = on_grid x * on_grid y ∧ rounds_to P (on_grid (SF64mul x y)).
Proof.
  intros Hvx Hvy Hfx Hfy Hx Hy Hbig.
  destruct x as [sx| | |sx mx ex], y as [sy| | |sy my ey]; try done.
  1-3: split; [done|]; split; [done|]; exists 0; split; [cbn; lia | by apply rounds_to_refl].
  cbn in Hvx, Hvy.
  pose proof (bounded_canonical _ _ Hvx) as (Hex & _).
  pose proof (bounded_canonical _ _ Hvy) as (Hey & _).
  assert (Hux : 0 < 2 ^ (ex + grid)) by (apply Z.pow_pos_nonneg; unfold grid; lia).
  assert (Huy : 0 < 2 ^ (ey + grid)) by (apply Z.pow_pos_nonneg; unfold grid; lia).
  destruct sx; [cbn in Hx; lia|]. destruct sy; [cbn in Hy; lia|].
  cbn [on_grid cond_Zopp] in *. unfold SF64mul, SFmul. cbn [xorb].
  assert (Hprod : Z.pos (mx * my) * 2 ^ (ex + ey + grid) * 2 ^ grid =
            Z.pos mx * 2 ^ (ex + grid) * (Z.pos my * 2 ^ (ey + grid))).
  { rewrite Pos2Z.inj_mul, <- !Z.mul_assoc. f_equal.
    rewrite (Z.mul_comm (2 ^ (ex + grid))), <- !Z.mul_assoc. f_equal.
    rewrite <- !Z.pow_add_r by (unfold grid; lia). f_equal. lia. }
  destruct (binary_round_aux_grid false (mx * my) (ex + ey)) as (μ & Hf & Hup & Hlo & _).
  { unfold grid. lia. }
  { pose proof (digits2_pos_bounds (mx * my)) as [HdL _].
    set (d := Z.pos (digits2_pos (mx * my))) in *.
    destruct (decide (d + (ex + ey) ≤ 900)) as [|Hn]; [done|].
    assert (2 ^ (grid + 800) ≤ 2 ^ (d - 1) * 2 ^ (ex + ey + grid)).
    { rewrite <- Z.pow_add_r by (unfold grid in *; lia). apply Z.pow_le_mono_r; lia. }
    assert (0 < 2 ^ (ex + ey + grid)) by (apply Z.pow_pos_nonneg; unfold grid; lia).
    assert (Hg : 0 < 2 ^ grid) by done.
    assert (Hgg : 2 ^ (grid + grid + 800) = 2 ^ (grid + 800) * 2 ^ grid).
    { rewrite <- Z.pow_add_r by done. done. }
    rewrite <- Hprod, Hgg in Hbig.
    apply Z.mul_lt_mono_pos_r in Hbig; [|done].
    assert (2 ^ (d - 1) * 2 ^ (ex + ey + grid) ≤ Z.pos (mx * my) * 2 ^ (ex + ey + grid))
      by (apply Z.mul_le_mono_nonneg_r; lia).
    lia. }
  cbn zeta in *.
  assert (is_finite (binary_round_aux prec emax false (Z.pos (mx * my)) (ex + ey) loc_Exact)
            = true ∧
          on_grid (binary_round_aux prec emax false (Z.pos (mx * my)) (ex + ey) loc_Exact)
            = μ ∧ 0 ≤ μ) as (Hfin & -> & ?).
  { destruct Hf as [[-> ->]|(m & e' & -> & ->)]; [done|]. cbn. split_and!; [done..|].
    apply Z.mul_nonneg_nonneg; [done|apply Z.pow_nonneg; lia]. }
  split; [done|]. split; [done|]. eexists. split; [exact Hprod|]. by split.
Qed.

Lemma ltb_val (x y : float) : fin x → fin y → (x <? y)%float = (val x <? val y).
Proof.
  intros Hx Hy. rewrite FloatAxioms.ltb_spec. unfold SFltb.
  rewrite SFcompare_grid by (done || apply Prim2SF_valid). done.
Qed.

Lemma leb_val (x y : float) : fin x → fin y → (x <=? y)%float = (val x <=? val y).
Proof.
  intros Hx Hy. rewrite FloatAxioms.leb_spec. unfold SFleb.
  rewrite SFcompare_grid by (done || apply Prim2SF_valid). unfold val, Z.leb.
  by destruct (_ ?= _).
Qed.

Lemma mul_grid (x y : float) :
  fin x → fin y → 0 ≤ val x → 0 ≤ val y → val x * val y < 2 ^ (grid + grid + 800) →
  fin (x * y) ∧ 0 ≤ val (x * y) ∧
  ∃ P, P * 2 ^ grid = val x * val y ∧ rounds_to P (val (x * y)).
Proof.
  intros. unfold fin, val. rewrite FloatAxioms.mul_spec. apply SFmul_grid; done || apply Prim2SF_valid.
Qed.

Lemma add_grid (x y : float) :
  fin x → fin y → Z.abs (val x + val y) < 2 ^ (grid + 800) →
  fin (x + y) ∧ rounds_signed (val x + val y) (val (x + y)).
Proof.
  intros. unfold fin, val. rewrite FloatAxioms.add_spec. apply SFadd_grid; done || apply Prim2SF_valid.
Qed.

Lemma sub_grid (x y : float) :
  fin x → fin y → Z.abs (val x - val y) < 2 ^ (grid + 800) →
  fin (x - y) ∧ rounds_signed (val x - val y) (val (x - y)).
Proof.
  intros. unfold fin, val. rewrite FloatAxioms.sub_spec. apply SFsub_grid; done || apply Prim2SF_valid.
Qed.

Lemma abs_grid (x : float) : fin x → fin (abs x) ∧ val (abs x) = Z.abs (val x).
Proof.
  unfold fin, val. rewrite FloatAxioms.abs_spec. pose proof (Prim2SF_valid x) as Hv.
  destruct (Prim2SF x) as [s|s| |s m e]; try done. intros _. split; [done|].
  cbn in Hv. apply bounded_canonical in Hv as (? & _).
  assert (0 < Z.pos m * 2 ^ (e + grid)).
  { apply Z.mul_pos_pos; [done|apply Z.pow_pos_nonneg; unfold grid; lia]. }
  destruct s; cbn [SFabs on_grid cond_Zopp]; lia.
Qed.

Lemma Math_floor_grid (x : float) : fin x → Math_floor x = Some (val x `div` 2 ^ grid).
Proof.
  unfold fin, val, Math_floor. pose proof (Prim2SF_valid x) as Hv.
  destruct (Prim2SF x) as [s|s| |s m e]; try done. intros _. f_equal.
  cbn in Hv. apply bounded_canonical in Hv as (He & _).
  rewrite on_grid_finite. set (a := cond_Zopp s (Z.pos m)).
  destruct (decide (0 ≤ e)) as [Hpos|Hneg].
  - rewrite Z.shiftl_mul_pow2, Z.pow_add_r, Z.mul_assoc, Z.div_mul by done. done.
  - replace e with (- - e) at 1 by lia. rewrite Z.shiftl_opp_r.
    rewrite Z.shiftr_div_pow2 by lia.
    replace (2 ^ grid) with (2 ^ (- e) * 2 ^ (e + grid)).
    2:{ rewrite <- Z.pow_add_r by (unfold grid; lia). f_equal. lia. }
    rewrite Z.div_mul_cancel_r; [done| |].
    + apply Z.pow_nonzero; lia.
    + apply Z.pow_nonzero; unfold grid; lia.
Qed.

(** A double in [0, 1) is finite and at most 1 - 2^-53. *)
Lemma unit_interval_grid (r : float) :
  unit_interval r = true → fin r ∧ 0 ≤ val r ≤ 2 ^ grid - 2 ^ (grid - 53).
Proof.
  unfold unit_interval, fin, val. rewrite FloatAxioms.leb_spec, FloatAxioms.ltb_spec.
  change (Prim2SF 0) with (S754_zero false).
  change (Prim2SF 1) with (S754_finite false 4503599627370496 (-52)).
  pose proof (Prim2SF_valid r) as Hv.
  destruct (Prim2SF r) as [s|s| |s m e]; intros [H0 H1]%andb_true_iff.
  - done.
  - by destruct s.
  - done.
  - split; [done|]. destruct s; [done|]. cbn in Hv.
    pose proof (bounded_canonical _ _ Hv) as (He & Hm & Hnorm).
    cbn [on_grid cond_Zopp].
    assert (He53 : e ≤ -53).
    { unfold SFltb, SFcompare in H1. destruct (Z.compare_spec e (-52)) as [->|?|?];
        [|lia|done].
      specialize (Hnorm ltac:(lia)).
      rewrite Pos.compare_cont_spec in H1. cbn [Pos.switch_Eq] in H1.
      destruct (Pos.compare_spec m 4503599627370496%positive) as [?|Hlt|?];
        [discriminate H1| |discriminate H1].
      apply Pos2Z.pos_lt_pos in Hlt.
      change (2 ^ 52) with (Z.pos 4503599627370496) in Hnorm. lia. }
    split; [apply Z.mul_nonneg_nonneg; [done|apply Z.pow_nonneg; lia]|].
    assert (2 ^ (e + grid) ≤ 2 ^ (grid - 53)) by (apply Z.pow_le_mono_r; unfold grid; lia).
    assert (0 < 2 ^ (e + grid)) by (apply Z.pow_pos_nonneg; unfold grid; lia).
    change (2 ^ grid) with (2 ^ 53 * 2 ^ (grid - 53)).
    nia.
Qed.

(** [of_int] is exact below 2^53. *)
Lemma of_int_grid (z : Z) :
  Z.abs z < 2 ^ 53 → fin (of_int z) ∧ val (of_int z) = z * 2 ^ grid.
Proof.
  intros Hz.
  assert (Hnat : ∀ n, 0 ≤ n < 2 ^ 53 →
    fin (of_uint63 (Uint63.of_Z n)) ∧ val (of_uint63 (Uint63.of_Z n)) = n * 2 ^ grid).
  { intros n Hn. unfold fin, val. rewrite of_uint63_spec, Uint63.of_Z_spec.
    rewrite Z.mod_small by (change wB with (2 ^ 63); lia).
    destruct (binary_normalize_grid n 0) as (Hfin & _ & Hexact); [done| |].
    { rewrite Z.abs_eq by lia. change (2 ^ (0 + grid)) with (2 ^ grid).
      change (2 ^ (grid + 800)) with (2 ^ 800 * 2 ^ grid).
      apply Z.mul_lt_mono_pos_r; [done|]. change (2 ^ 800) with (2 ^ 53 * 2 ^ 747). lia. }
    split; [done|]. apply Hexact; lia. }
  unfold of_int. destruct (Z.ltb_spec z 0).
  - destruct (Hnat (- z) ltac:(lia)) as [Hf Hv]. unfold fin, val in *.
    rewrite FloatAxioms.opp_spec.
    destruct (Prim2SF (of_uint63 (Uint63.of_Z (- z)))) as [s|s| |s m e]; try done.
    + split; [done|]. cbn in *. lia.
    + split; [done|]. destruct s; cbn in *; lia.
  - apply Hnat. lia.
Qed.

Lemma grid_split : 2 ^ grid = 2 ^ 53 * 2 ^ (grid - 53).
Proof. reflexivity. Qed.

Lemma tiny_small : 0 < tiny ∧ tiny < 2 ^ (grid - 53).
Proof. split; [done|]. unfold tiny. apply Z.pow_lt_mono_r; unfold grid; lia. Qed.

Lemma val_5 : fin 5 ∧ val 5 = 5 * 2 ^ grid.
Proof. split; vm_compute; reflexivity. Qed.

Lemma val_tenth : fin tenth ∧ 0 ≤ val tenth ≤ 2 ^ grid.
Proof. split; [vm_compute; reflexivity|]. split; vm_compute; discriminate. Qed.

Lemma noise_grid (r : float) :
  unit_interval r = true → fin (r * 5) ∧ 0 ≤ val (r * 5) ≤ 5 * 2 ^ grid.
Proof.
  intros (Hfin & Hr)%unit_interval_grid. destruct val_5 as [Hf5 Hv5].
  pose proof tiny_small as [Ht0 Ht]. pose proof grid_split as Hg.
  assert (Hw : 0 < 2 ^ (grid - 53)) by done.
  destruct (mul_grid r 5 Hfin Hf5) as (Hf & H0 & P & HP & Hup & _); [lia|rewrite Hv5; lia| |].
  { rewrite Hv5. change (2 ^ (grid + grid + 800)) with (2 ^ 800 * 2 ^ grid * 2 ^ grid).
    assert (0 < 2 ^ grid) by done. assert (5 ≤ 2 ^ 800 * 2 ^ grid) by done. nia. }
  split; [done|]. split; [done|].
  rewrite Hv5 in HP. assert (P = 5 * val r) as ->.
  { apply (Z.mul_cancel_r _ _ (2 ^ grid)); [done|]. lia. }
  set (w := 2 ^ (grid - 53)) in *. set (g := 2 ^ grid) in *. set (v := val r) in *.
  set (μ := val (r * 5)) in *. clearbody w g v μ. lia.
Qed.

(** The noisy score of a move is finite and within [base - 1, base + 6]. *)
Lemma noisy_score_grid (base : Z) (r : float) :
  -100 ≤ base ≤ 10300 → unit_interval r = true →
  fin (noisy_score base r) ∧
  (base - 1) * 2 ^ grid ≤ val (noisy_score base r) ≤ (base + 6) * 2 ^ grid.
Proof.
  intros Hbase (Hfx & Hx)%noise_grid.
  destruct (of_int_grid base) as [Hfz Hz]; [change (2 ^ 53) with 9007199254740992; lia|].
  pose proof tiny_small as [Ht0 Ht]. pose proof grid_split as Hg.
  assert (Hw : 0 < 2 ^ (grid - 53)) by done.
  unfold noisy_score.
  destruct (add_grid (of_int base) (r * 5) Hfz Hfx) as (Hf & H0 & Hpos & Hneg).
  { rewrite Hz. change (2 ^ (grid + 800)) with (2 ^ 800 * 2 ^ grid).
    assert (20000 ≤ 2 ^ 800) by done. assert (0 < 2 ^ grid) by done.
    set (g := 2 ^ grid) in *. set (c := 2 ^ 800) in *. clearbody g c. nia. }
  split; [done|]. rewrite Hz in *. unfold rounds_to in *.
  set (w := 2 ^ (grid - 53)) in *. set (g := 2 ^ grid) in *. set (x := val (r * 5)) in *.
  set (v := val (of_int base + r * 5)) in *. clearbody w g x v.
  change (2 ^ 53) with 9007199254740992 in *. change (2 ^ 52) with 4503599627370496 in *.
  destruct (Z.lt_trichotomy (base * g + x) 0) as [Hlt|[Heq|Hgt]].
  - specialize (Hneg Hlt). nia.
  - specialize (H0 Heq). nia.
  - specialize (Hpos Hgt). nia.
Qed.

Lemma neg_infinity_ltb (x : float) : fin x → (neg_infinity <? x)%float = true.
Proof.
  unfold fin. rewrite FloatAxioms.ltb_spec.
  change (Prim2SF neg_infinity) with (S754_infinity true).
  by destruct (Prim2SF x).
Qed.

(** A score of at most 212 and a score of at least 9999: the second is
    the greater in double arithmetic, and the two are not within [0.1]. *)
Lemma far_apart (a b : float) :
  fin a → fin b →
  -200 * 2 ^ grid ≤ val a ≤ 212 * 2 ^ grid → 9999 * 2 ^ grid ≤ val b ≤ 11000 * 2 ^ grid →
  (b <? a)%float = false ∧ (a <? b)%float = true ∧
  (abs (a - b) <? tenth)%float = false.
Proof.
  intros Hfa Hfb Ha Hb. assert (Hg : 0 < 2 ^ grid) by done.
  rewrite !ltb_val by done. split; [apply Z.ltb_ge; lia|]. split; [apply Z.ltb_lt; lia|].
  destruct (sub_grid a b Hfa Hfb) as (Hfd & _ & _ & Hneg).
  { change (2 ^ (grid + 800)) with (2 ^ 800 * 2 ^ grid).
    assert (20000 ≤ 2 ^ 800) by done.
    set (g := 2 ^ grid) in *. set (c := 2 ^ 800) in *. clearbody g c. nia. }
  destruct (abs_grid (a - b) Hfd) as [Hfabs Habs].
  destruct val_tenth as [Hft Ht].
  rewrite ltb_val by done. apply Z.ltb_ge. rewrite Habs.
  destruct Hneg as [Hv [_ Hlo]]; [lia|].
  pose proof tiny_small as [Ht0 Htw]. pose proof grid_split as Hgs.
  assert (Hw : 0 < 2 ^ (grid - 53)) by done.
  set (w := 2 ^ (grid - 53)) in *. set (g := 2 ^ grid) in *.
  set (d := val (a - b)) in *. set (va := val a) in *. set (vb := val b) in *.
  set (t := val tenth) in *. clearbody w g d va vb t.
  change (2 ^ 53) with 9007199254740992 in *. change (2 ^ 52) with 4503599627370496 in *.
  lia.
Qed.

(** [Math.floor(r * n)] is an index below [n] for every double [r] in
    [0, 1) and every length [n] up to 81: the rounded product stays
    below [n]. *)
Lemma floor_index (r : float) (n : Z) :
  unit_interval r = true → 1 ≤ n ≤ 81 →
  ∃ i, Math_floor (r * of_int n) = Some i ∧ 0 ≤ i < n.
Proof.
  intros (Hfr & Hr)%unit_interval_grid Hn.
  destruct (of_int_grid n) as [Hfn Hvn]; [change (2 ^ 53) with 9007199254740992; lia|].
  assert (Hg : 0 < 2 ^ grid) by done.
  destruct (mul_grid r (of_int n) Hfr Hfn) as (Hf & H0 & P & HP & Hup & _);
    [lia | rewrite Hvn; lia | |].
  { rewrite Hvn. change (2 ^ (grid + grid + 800)) with (2 ^ 800 * 2 ^ grid * 2 ^ grid).
    assert (81 ≤ 2 ^ 800) by done. assert (0 < 2 ^ (grid - 53)) by done.
    assert (val r < 2 ^ grid) by lia.
    set (g := 2 ^ grid) in *. set (c := 2 ^ 800) in *. set (v := val r) in *.
    clearbody g c v.
    assert (v * n < 81 * g) by nia. assert (81 * g ≤ c * g) by nia.
    replace (v * (n * g)) with (v * n * g) by ring.
    apply Z.mul_lt_mono_pos_r; lia. }
  rewrite Math_floor_grid by done. eexists. split; [done|].
  rewrite Hvn in HP. assert (P = val r * n) as ->.
  { apply (Z.mul_cancel_r _ _ (2 ^ grid)); [lia|]. rewrite HP. ring. }
  split; [apply Z.div_pos; lia|]. apply Z.div_lt_upper_bound; [done|].
  pose proof tiny_small as [Ht0 Htw]. pose proof grid_split as Hgs.
  assert (Hw : 0 < 2 ^ (grid - 53)) by done.
  set (w := 2 ^ (grid - 53)) in *. set (g := 2 ^ grid) in *. set (v := val r) in *.
  set (μ := val (r * of_int n)) in *. clearbody w g v μ.
  change (2 ^ 53) with 9007199254740992 in *.
  assert (v * n ≤ (g - w) * n) by nia.
  assert (n * g = 9007199254740992 * (n * w)) by (rewrite Hgs; ring).
  assert (w ≤ n * w) by nia.
  lia.
Qed.

End Doubles.

(** ** The rules engine *)

(** A decidable statement about closed terms, settled by evaluation. *)
Ltac decide_by_computing := apply (bool_decide_unpack _); vm_compute; exact I.

Lemma bind_Ok {A B : Type} (a : A) (f : A → result B) : Ok a ≫= f = f a.
Proof. reflexivity. Qed.

Lemma bind_Ok_inv {A B : Type} (m : result A) (f : A → result B) (b : B) :
  m ≫= f = Ok b → ∃ a, m = Ok a ∧ f a = Ok b.
Proof. destruct m as [a| |]; [by exists a | done | done]. Qed.

Lemma defined_Ok {A : Type} (o : option A) (a : A) : defined o = Ok a ↔ o = Some a.
Proof. destruct o; simpl; split; congruence. Qed.

Lemma cells_line_uniform cells cb p :
  cells_line cells cb = Some p ↔ uniform cells cb p.
Proof.
  destruct cb as [[a b] c]; unfold cells_line, uniform.
  destruct (cells !! a) as [[q|]|] eqn:Ha.
  - destruct (decide (cells !! b = Some (Some q))) as [Hb|Hb];
      [destruct (decide (cells !! c = Some (Some q))) as [Hc|Hc]|].
    + split; [by intros [= ->] | intros (? & _); congruence].
    + split; [done | intros (? & ? & ?); simplify_eq].
    + split; [done | intros (? & ? & ?); simplify_eq].
  - split; [done | by intros (? & _)].
  - split; [done | by intros (? & _)].
Qed.

Lemma cells_line_none cells cb :
  cells_line cells cb = None ↔ ∀ q, ¬ uniform cells cb q.
Proof.
  split.
  - intros H q Hq. apply cells_line_uniform in Hq. congruence.
  - intros H. destruct (cells_line cells cb) as [q|] eqn:E; [|done].
    apply cells_line_uniform in E. by destruct (H q).
Qed.

Lemma scan_cells_first cells combos p :
  scan_cells cells combos = Some p ↔ ∃ cb, first_uniform cells combos cb p.
Proof.
  induction combos as [|cb rest IH]; simpl.
  - split; [done|]. intros (cb & before & after & E & _). by destruct before.
  - destruct (cells_line cells cb) as [q|] eqn:E.
    + split.
      * intros [= ->]. exists cb, [], rest. split_and!; [done| |].
        -- by apply cells_line_uniform.
        -- intros ?? Hin. by apply elem_of_nil in Hin.
      * intros (cb' & before & after & Hc & Hu & Hb).
        destruct before as [|x before]; simplify_eq/=.
        -- apply cells_line_uniform in Hu. congruence.
        -- apply cells_line_uniform in E. destruct (Hb x q); [left | done].
    + rewrite IH. split.
      * intros (cb' & before & after & -> & Hu & Hb).
        exists cb', (cb :: before), after. split_and!; [done..|].
        intros x q [->|Hin]%elem_of_cons; [|by apply Hb].
        by apply cells_line_none.
      * intros (cb' & before & after & Hc & Hu & Hb).
        destruct before as [|x before]; simplify_eq/=.
        -- apply cells_line_uniform in Hu. congruence.
        -- exists cb', before, after. split_and!; [done..|].
           intros y q Hin. apply Hb. by right.
Qed.

Lemma scan_cells_some cells combos :
  scan_cells cells combos ≠ None ↔ ∃ cb p, cb ∈ combos ∧ uniform cells cb p.
Proof.
  induction combos as [|cb rest IH]; simpl.
  - split; [done|]. intros (? & ? & Hin & _). by apply elem_of_nil in Hin.
  - destruct (cells_line cells cb) as [q|] eqn:E.
    + split; [|done]. intros _. exists cb, q. split; [left|].
      by apply cells_line_uniform.
    + rewrite IH. split.
      * intros (cb' & p & Hin & Hu). exists cb', p. split; [by right | done].
      * intros (cb' & p & [->|Hin]%elem_of_cons & Hu).
        -- apply cells_line_uniform in Hu. congruence.
        -- by exists cb', p.
Qed.

Lemma isFull_lookup (cells : SmallBoardState) :
  forallb (fun cell : CellValue => bool_decide (cell ≠ None)) cells = true ↔
  ∀ i, i < length cells → ∃ p, cells !! i = Some (Some p).
Proof.
  rewrite forallb_forall. split.
  - intros H i Hi. destruct (lookup_lt_is_Some_2 cells i Hi) as [cell Hc].
    assert (Hin : In cell cells) by (apply list_elem_of_In; by eapply list_elem_of_lookup_2).
    apply H, bool_decide_eq_true in Hin. destruct cell as [p|]; [by exists p | done].
  - intros H cell [i Hi]%list_elem_of_In%list_elem_of_lookup_1.
    destruct (H i) as [p Hp]; [by eapply lookup_lt_Some|].
    apply bool_decide_eq_true. intros ->. congruence.
Qed.

(** C6. On every board of nine cells [checkSmallBoardStatus] reports a winner
    exactly when one of the eight combinations holds three equal marks; the
    winner is the mark of the first such combination in the listed order;
    and it reports a draw exactly when the nine cells are all filled and
    there is no winner. *)
Theorem checkSmallBoardStatus_spec (cells : SmallBoardState) :
  length cells = 9 →
  (winner (checkSmallBoardStatus cells) ≠ None ↔
     ∃ cb p, cb ∈ WINNING_COMBINATIONS ∧ uniform cells cb p) ∧
  (∀ p, winner (checkSmallBoardStatus cells) = Some p ↔
     ∃ cb, first_uniform cells WINNING_COMBINATIONS cb p) ∧
  (isDraw (checkSmallBoardStatus cells) = true ↔
     (∀ i, i < 9 → ∃ p, cells !! i = Some (Some p)) ∧
     winner (checkSmallBoardStatus cells) = None).
Proof.
  intros Hlen.
  pose proof (scan_cells_some cells WINNING_COMBINATIONS) as Hsome.
  pose proof (scan_cells_first cells WINNING_COMBINATIONS) as Hfirst.
  pose proof (isFull_lookup cells) as Hfull. rewrite Hlen in Hfull.
  unfold checkSmallBoardStatus.
  destruct (scan_cells cells WINNING_COMBINATIONS) as [q|] eqn:Hscan; simpl.
  - split_and!; [by rewrite <- Hsome | done |]. split; [done | by intros [_ ?]].
  - split_and!.
    + rewrite <- Hsome. by destruct (forallb _ cells).
    + intros p. rewrite <- Hfirst. by destruct (forallb _ cells).
    + rewrite <- Hfull. destruct (forallb _ cells); simpl; tauto.
Qed.

Lemma decided_spec st : decided st = true ↔ winner st ≠ None ∨ isDraw st = true.
Proof.
  unfold decided. destruct (winner st); split; auto.
  intros [?|?]; done.
Qed.

Lemma decided_false st : decided st = false ↔ winner st = None ∧ isDraw st = false.
Proof.
  unfold decided. destruct (winner st); split; auto; [done | by intros [? _] | by intros [_ ?]].
Qed.

Lemma winners_lookup statuses i st :
  statuses !! i = Some st → winners statuses !! i = Some (winner st).
Proof. intros H. unfold winners. by rewrite list_lookup_fmap, H. Qed.

(** With the three indices inside the array, the test of a combination on
    statuses is the test on cells, applied to the winners. *)
Lemma statuses_line_winners statuses a b c :
  a < length statuses → b < length statuses → c < length statuses →
  statuses_line statuses (a, b, c) = Ok (cells_line (winners statuses) (a, b, c)).
Proof.
  intros [sa Ha]%lookup_lt_is_Some_2 [sb Hb]%lookup_lt_is_Some_2 [sc Hc]%lookup_lt_is_Some_2.
  unfold statuses_line, cells_line.
  rewrite (winners_lookup _ _ _ Ha), (winners_lookup _ _ _ Hb), (winners_lookup _ _ _ Hc).
  rewrite Ha; simpl. destruct (winner sa) as [p|]; [|done].
  rewrite Hb, Hc; simpl.
  repeat case_decide; simpl; repeat case_decide; congruence.
Qed.

Lemma scan_statuses_winners statuses combos :
  Forall (combo_below (length statuses)) combos →
  scan_statuses statuses combos = Ok (scan_cells (winners statuses) combos).
Proof.
  induction 1 as [|[[a b] c] rest (Ha & Hb & Hc) _ IH]; [done|].
  cbn [scan_statuses scan_cells]. rewrite statuses_line_winners by done.
  by destruct (cells_line (winners statuses) (a, b, c)).
Qed.

Lemma WINNING_COMBINATIONS_below : Forall (combo_below 9) WINNING_COMBINATIONS.
Proof. unfold WINNING_COMBINATIONS. repeat constructor; lia. Qed.

Lemma checkGlobalWinner_nine statuses :
  length statuses = 9 →
  checkGlobalWinner statuses =
    Ok (match scan_cells (winners statuses) WINNING_COMBINATIONS with
        | Some p => {| winner := Some p; isDraw := false |}
        | None =>
            if forallb decided statuses then {| winner := None; isDraw := true |}
            else {| winner := None; isDraw := false |}
        end).
Proof.
  intros Hlen. unfold checkGlobalWinner.
  rewrite scan_statuses_winners by (rewrite Hlen; apply WINNING_COMBINATIONS_below).
  rewrite bind_Ok.
  destruct (scan_cells (winners statuses) WINNING_COMBINATIONS); [done|].
  by destruct (forallb decided statuses).
Qed.

(** C7. On every array of nine statuses [checkGlobalWinner] returns, and it
    reports a winner exactly when the winners of the three boards of some
    combination are one and the same mark (a board without a winner matches
    nothing), namely the mark of the first such combination; it reports a
    draw only when each of the nine statuses is won or drawn and no
    combination gave a winner (and always then). *)
Theorem checkGlobalWinner_spec (statuses : list SmallBoardStatus) :
  length statuses = 9 →
  ∃ r, checkGlobalWinner statuses = Ok r ∧
    (winner r ≠ None ↔
       ∃ cb p, cb ∈ WINNING_COMBINATIONS ∧ uniform (winners statuses) cb p) ∧
    (∀ p, winner r = Some p ↔
       ∃ cb, first_uniform (winners statuses) WINNING_COMBINATIONS cb p) ∧
    (isDraw r = true ↔
       (∀ st, st ∈ statuses → winner st ≠ None ∨ isDraw st = true) ∧ winner r = None).
Proof.
  intros Hlen. eexists. split; [by apply checkGlobalWinner_nine|].
  pose proof (scan_cells_some (winners statuses) WINNING_COMBINATIONS) as Hsome.
  pose proof (scan_cells_first (winners statuses) WINNING_COMBINATIONS) as Hfirst.
  assert (Hall : forallb decided statuses = true ↔
                 ∀ st, st ∈ statuses → winner st ≠ None ∨ isDraw st = true).
  { rewrite forallb_forall. split.
    - intros H st Hin%list_elem_of_In. by apply decided_spec, H.
    - intros H st Hin%list_elem_of_In. by apply decided_spec, H. }
  destruct (scan_cells (winners statuses) WINNING_COMBINATIONS) as [q|] eqn:Hscan; simpl.
  - split_and!; [by rewrite <- Hsome | done |]. split; [done | by intros [_ ?]].
  - split_and!.
    + rewrite <- Hsome. by destruct (forallb _ statuses).
    + intros p. rewrite <- Hfirst. by destruct (forallb _ statuses).
    + rewrite <- Hall. destruct (forallb _ statuses); simpl; tauto.
Qed.

(** *** Legal moves *)

Lemma forEach_empty_filter bIdx (full cells : SmallBoardState) k :
  (∀ j, cells !! j = full !! (k + j)) →
  forEach_empty bIdx cells k =
    (λ c, {| boardIndex := bIdx; cellIndex := c |}) <$>
      filter (λ c, full !! c = Some None) (seq k (length cells)).
Proof.
  revert k. induction cells as [|cell rest IH]; intros k Hfull; [done|].
  assert (Hk : full !! k = Some cell).
  { specialize (Hfull 0). rewrite Nat.add_0_r in Hfull. by rewrite <- Hfull. }
  assert (Hrest : ∀ j, rest !! j = full !! (S k + j)).
  { intros j. replace (S k + j) with (k + S j) by lia. by rewrite <- (Hfull (S j)). }
  cbn [forEach_empty length seq]. rewrite filter_cons, Hk, (IH (S k) Hrest).
  destruct cell as [p|]; case_decide; simplify_eq; done.
Qed.

Lemma forEach_empty_cells gs bIdx cells :
  board gs !! bIdx = Some cells → length cells = 9 →
  forEach_empty bIdx cells 0 = empty_cells_of gs bIdx.
Proof.
  intros Hb Hlen. rewrite (forEach_empty_filter bIdx cells cells 0) by done.
  unfold empty_cells_of. rewrite Hlen. f_equal.
  apply list_filter_iff. intros c. unfold empty_at. rewrite Hb.
  by rewrite bool_decide_spec.
Qed.

Lemma well_formed_cells gs b :
  well_formed gs → b < 9 → ∃ cells, board gs !! b = Some cells ∧ length cells = 9.
Proof.
  intros (Hb & Hcells & _) Hlt.
  destruct (lookup_lt_is_Some_2 (board gs) b) as [cells Hc]; [lia|].
  exists cells. split; [done|]. by eapply (Forall_lookup_1 _ _ _ _ Hcells).
Qed.

Lemma well_formed_status gs b :
  well_formed gs → b < 9 → ∃ st, smallBoardStatuses gs !! b = Some st.
Proof. intros (_ & _ & Hs & _) Hlt. apply lookup_lt_is_Some_2. lia. Qed.

Lemma collect_moves_filter gs targetBoards moves :
  well_formed gs → Forall (λ b, b < 9) targetBoards →
  collect_moves gs targetBoards moves =
    Ok (moves ++ (b ← filter (λ b, undecided gs b) targetBoards; empty_cells_of gs b)).
Proof.
  intros Hwf Hall. revert moves.
  induction Hall as [|bIdx rest Hlt _ IH]; intros moves.
  - simpl. by rewrite app_nil_r.
  - destruct (well_formed_status gs bIdx Hwf Hlt) as [st Hst].
    destruct (well_formed_cells gs bIdx Hwf Hlt) as (cells & Hc & Hlen).
    assert (Hund : undecided gs bIdx = negb (decided st)).
    { unfold undecided. by rewrite Hst. }
    cbn [collect_moves]. rewrite Hst. cbn [defined]. rewrite bind_Ok.
    destruct (decided st); cbn [negb] in *.
    + rewrite filter_cons_False by (simpl; rewrite Hund; naive_solver). apply IH.
    + rewrite filter_cons_True by (simpl; rewrite Hund; naive_solver).
      rewrite Hc. cbn [defined]. rewrite bind_Ok, IH, bind_cons, <- app_assoc.
      by rewrite (forEach_empty_cells gs bIdx cells).
Qed.

Lemma seq_9_below : Forall (λ b, b < 9) (seq 0 9).
Proof. apply Forall_forall. intros b Hb%elem_of_seq. lia. Qed.

Lemma getValidMoves_legalMoves gs :
  well_formed gs → getValidMoves gs = Ok (legalMoves gs).
Proof.
  intros Hwf. unfold getValidMoves, legalMoves.
  destruct (globalWinner gs); [done|].
  change [0; 1; 2; 3; 4; 5; 6; 7; 8] with (seq 0 9).
  destruct (nextBoardIndex gs) as [n|] eqn:Hn.
  - assert (Hlt : n < 9) by (destruct Hwf as (_ & _ & _ & H); by rewrite Hn in H).
    destruct (well_formed_status gs n Hwf Hlt) as [st Hst].
    assert (Hund : undecided gs n = negb (decided st)).
    { unfold undecided. by rewrite Hst. }
    rewrite Hst, Hund. cbn [defined]. rewrite bind_Ok.
    destruct (decided st) eqn:Hd; cbn [negb] in *; rewrite bind_Ok.
    + rewrite collect_moves_filter by (done || apply seq_9_below). done.
    + rewrite collect_moves_filter by (done || (constructor; [done | constructor])).
      rewrite filter_cons_True by (simpl; rewrite Hund; naive_solver).
      rewrite filter_nil, bind_singleton. done.
  - rewrite bind_Ok. rewrite collect_moves_filter by (done || apply seq_9_below). done.
Qed.

Lemma StronglySorted_sublist {A : Type} (R : relation A) (l1 l2 : list A) :
  l1 `sublist_of` l2 → StronglySorted R l2 → StronglySorted R l1.
Proof.
  induction 1 as [|x l1 l2 Hsub IH|x l1 l2 Hsub IH]; intros Hs; [done| |].
  - apply StronglySorted_inv in Hs as [Hs Hx]. constructor; [by apply IH|].
    apply Forall_forall. intros y Hy. eapply Forall_forall; [exact Hx|].
    by eapply elem_of_sublist.
  - apply StronglySorted_inv in Hs as [Hs _]. by apply IH.
Qed.

Lemma all_positions_sorted : StronglySorted move_lt all_positions.
Proof. decide_by_computing. Qed.

Lemma bind_sublist_pointwise {A B : Type} (f g : A → list B) (l : list A) :
  (∀ x, f x `sublist_of` g x) → l ≫= f `sublist_of` l ≫= g.
Proof.
  intros H. induction l as [|x l IH]; [done|].
  rewrite !bind_cons. by apply sublist_app.
Qed.

Lemma empty_cells_of_sublist gs b :
  empty_cells_of gs b `sublist_of` (λ c, {| boardIndex := b; cellIndex := c |}) <$> seq 0 9.
Proof. unfold empty_cells_of. apply fmap_sublist, sublist_filter. Qed.

Lemma legalMoves_sublist gs :
  well_formed gs → legalMoves gs `sublist_of` all_positions.
Proof.
  intros Hwf. unfold legalMoves.
  assert (Hall : (b ← filter (λ b, undecided gs b) (seq 0 9); empty_cells_of gs b)
                   `sublist_of` all_positions).
  { etrans; [apply bind_sublist, sublist_filter|].
    apply bind_sublist_pointwise, empty_cells_of_sublist. }
  destruct (globalWinner gs); [apply sublist_nil_l|].
  destruct (nextBoardIndex gs) as [n|] eqn:Hn; [|done].
  destruct (undecided gs n); [|done].
  assert (Hlt : n < 9) by (destruct Hwf as (_ & _ & _ & H); by rewrite Hn in H).
  etrans; [apply empty_cells_of_sublist|].
  rewrite <- (bind_singleton (λ b, (λ c, {| boardIndex := b; cellIndex := c |}) <$> seq 0 9) n).
  apply bind_sublist, singleton_sublist_l, elem_of_seq. lia.
Qed.

(** C8. In a well-formed state [getValidMoves] returns exactly the legal
    moves as the specification words them (none once there is a winner, the
    empty cells of the forced board when it is undecided, otherwise the
    empty cells of all undecided boards), and they come in strictly
    ascending order of (boardIndex, cellIndex). *)
Theorem getValidMoves_spec (gs : GameState) :
  well_formed gs →
  getValidMoves gs = Ok (legalMoves gs) ∧ StronglySorted move_lt (legalMoves gs).
Proof.
  intros Hwf. split; [by apply getValidMoves_legalMoves|].
  eapply StronglySorted_sublist; [by apply legalMoves_sublist | apply all_positions_sorted].
Qed.

Lemma elem_of_empty_cells_of gs b m :
  m ∈ empty_cells_of gs b ↔
  boardIndex m = b ∧ cellIndex m < 9 ∧ empty_at gs b (cellIndex m) = true.
Proof.
  unfold empty_cells_of. rewrite list_elem_of_fmap. split.
  - intros (c & -> & (He & Hc%elem_of_seq)%list_elem_of_filter). simpl.
    split_and!; [done | lia | by apply Is_true_true].
  - intros (Hb & Hc & He). exists (cellIndex m). split.
    + destruct m; simpl in *; by subst.
    + apply list_elem_of_filter. split; [by apply Is_true_true | apply elem_of_seq; lia].
Qed.

Lemma elem_of_everywhere gs m :
  m ∈ (b ← filter (λ b, undecided gs b) (seq 0 9); empty_cells_of gs b) ↔
  boardIndex m < 9 ∧ cellIndex m < 9 ∧ undecided gs (boardIndex m) = true ∧
  empty_at gs (boardIndex m) (cellIndex m) = true.
Proof.
  rewrite list_elem_of_bind. split.
  - intros (b & (<- & Hc & He)%elem_of_empty_cells_of
              & (Hu & Hb%elem_of_seq)%list_elem_of_filter).
    split_and!; [lia | done | by apply Is_true_true | done].
  - intros (Hb & Hc & Hu & He). exists (boardIndex m). split.
    + by apply elem_of_empty_cells_of.
    + apply list_elem_of_filter. split; [by apply Is_true_true | apply elem_of_seq; lia].
Qed.

(** Membership in the legal moves, spelled out. *)
Lemma elem_of_legalMoves gs m :
  well_formed gs →
  m ∈ legalMoves gs ↔
  globalWinner gs = None ∧ boardIndex m < 9 ∧ cellIndex m < 9 ∧
  undecided gs (boardIndex m) = true ∧
  empty_at gs (boardIndex m) (cellIndex m) = true ∧
  (∀ n, nextBoardIndex gs = Some n → undecided gs n = true → boardIndex m = n).
Proof.
  intros Hwf. unfold legalMoves.
  destruct (globalWinner gs) as [w|].
  { split; [by intros ?%elem_of_nil | by intros (? & _)]. }
  destruct (nextBoardIndex gs) as [n|] eqn:Hn.
  - assert (Hlt : n < 9) by (destruct Hwf as (_ & _ & _ & H); by rewrite Hn in H).
    destruct (undecided gs n) eqn:Hu.
    + rewrite elem_of_empty_cells_of. split.
      * intros (<- & Hc & He). split_and!; try done. by intros ? [= <-] _.
      * intros (_ & _ & Hc & _ & He & Hf). specialize (Hf n eq_refl Hu).
        by rewrite Hf in *.
    + rewrite elem_of_everywhere. split.
      * intros (? & ? & ? & ?). split_and!; try done. intros ? [= <-]. congruence.
      * by intros (_ & ? & ? & ? & ? & _).
  - rewrite elem_of_everywhere. split.
    + intros (? & ? & ? & ?). split_and!; done.
    + by intros (_ & ? & ? & ? & ? & _).
Qed.

(** A legal move names an existing board and an empty cell of it. *)
Lemma legalMoves_cell gs m :
  well_formed gs → m ∈ legalMoves gs →
  ∃ cells, board gs !! boardIndex m = Some cells ∧ length cells = 9 ∧
           cells !! cellIndex m = Some None.
Proof.
  intros Hwf (_ & Hb & _ & _ & He & _)%elem_of_legalMoves; [|done].
  destruct (well_formed_cells gs _ Hwf Hb) as (cells & Hc & Hlen).
  exists cells. split_and!; [done..|].
  unfold empty_at in He. rewrite Hc in He. by apply bool_decide_eq_true in He.
Qed.

(** *** The Intermediate tier *)

Lemma canWinBoard_from_Some cells player todo i :
  canWinBoard_from cells player todo = Some i →
  i ∈ todo ∧ cells !! i = Some None ∧
  winner (checkSmallBoardStatus (<[i := Some player]> cells)) = Some player.
Proof.
  induction todo as [|j rest IH]; [done|]. cbn [canWinBoard_from].
  destruct (decide (cells !! j = Some None)) as [Hj|Hj].
  - destruct (decide (winner (checkSmallBoardStatus (<[j := Some player]> cells))
                      = Some player)) as [Hw|Hw].
    + intros [= <-]. split_and!; [left | done | done].
    + intros (? & ? & ?)%IH. split_and!; [by right | done | done].
  - intros (? & ? & ?)%IH. split_and!; [by right | done | done].
Qed.

Lemma canWinBoard_from_None cells player todo i :
  canWinBoard_from cells player todo = None →
  i ∈ todo → cells !! i = Some None →
  winner (checkSmallBoardStatus (<[i := Some player]> cells)) ≠ Some player.
Proof.
  induction todo as [|j rest IH]; [by intros _ ?%elem_of_nil|]. cbn [canWinBoard_from].
  destruct (decide (cells !! j = Some None)) as [Hj|Hj].
  - destruct (decide (winner (checkSmallBoardStatus (<[j := Some player]> cells))
                      = Some player)) as [Hw|Hw]; [done|].
    intros Hn [->|Hin]%elem_of_cons He; [done | by apply IH].
  - intros Hn [->|Hin]%elem_of_cons He; [done | by apply IH].
Qed.

(** The cell [canWinBoard] names is empty, below 9, and wins the board. *)
Lemma canWinBoard_Some cells player i :
  canWinBoard cells player = Some i →
  i < 9 ∧ cells !! i = Some None ∧
  winner (checkSmallBoardStatus (<[i := Some player]> cells)) = Some player.
Proof.
  intros (Hi%elem_of_seq & ? & ?)%canWinBoard_from_Some. split_and!; [lia | done..].
Qed.

(** Where some empty cell below 9 wins the board, [canWinBoard] names one. *)
Lemma canWinBoard_finds cells player c :
  c < 9 → cells !! c = Some None →
  winner (checkSmallBoardStatus (<[c := Some player]> cells)) = Some player →
  ∃ i, canWinBoard cells player = Some i.
Proof.
  intros Hc He Hw. destruct (canWinBoard cells player) as [i|] eqn:E; [by exists i|].
  destruct (canWinBoard_from_None cells player (seq 0 9) c E); [|done..].
  apply elem_of_seq. lia.
Qed.

Lemma first_move_for_Some gs player moves m :
  first_move_for gs player moves = Ok (Some m) →
  m ∈ moves ∧
  ∃ cells, board gs !! boardIndex m = Some cells ∧
           canWinBoard cells player = Some (cellIndex m).
Proof.
  induction moves as [|move rest IH]; [done|]. cbn [first_move_for].
  intros (cells & Hc%defined_Ok & H)%bind_Ok_inv.
  destruct (decide (canWinBoard cells player = Some (cellIndex move))) as [Hw|Hw].
  - injection H as <-. split; [left | by exists cells].
  - apply IH in H as (? & ?). split; [by right | done].
Qed.

Lemma first_move_for_None gs player moves m cells :
  first_move_for gs player moves = Ok None →
  m ∈ moves → board gs !! boardIndex m = Some cells →
  canWinBoard cells player ≠ Some (cellIndex m).
Proof.
  induction moves as [|move rest IH]; [by intros _ ?%elem_of_nil|]. cbn [first_move_for].
  intros (cells' & Hc%defined_Ok & H)%bind_Ok_inv.
  destruct (decide (canWinBoard cells' player = Some (cellIndex move))) as [Hw|Hw]; [done|].
  intros [->|Hin]%elem_of_cons Hb; [congruence | by apply IH].
Qed.

Lemma first_move_for_total gs player moves :
  (∀ m, m ∈ moves → is_Some (board gs !! boardIndex m)) →
  ∃ r, first_move_for gs player moves = Ok r.
Proof.
  induction moves as [|move rest IH]; intros Hb; [by exists None|]. cbn [first_move_for].
  destruct (Hb move) as [cells Hc]; [left|]. rewrite Hc. cbn [defined]. rewrite bind_Ok.
  case_decide; [by eexists|]. apply IH. intros m Hm. apply Hb. by right.
Qed.

Lemma completes_true gs player m cells :
  board gs !! boardIndex m = Some cells →
  completes gs player m = true ↔
  winner (checkSmallBoardStatus (<[cellIndex m := Some player]> cells)) = Some player.
Proof. intros Hc. unfold completes. rewrite Hc. apply bool_decide_eq_true. Qed.

(** The loop of the Intermediate tier finds a completing legal move
    whenever there is one. *)
Lemma first_move_for_finds gs player :
  well_formed gs →
  (∃ m, m ∈ legalMoves gs ∧ completes gs player m = true) →
  ∃ m', first_move_for gs player (legalMoves gs) = Ok (Some m') ∧
        m' ∈ legalMoves gs ∧ completes gs player m' = true.
Proof.
  intros Hwf (m & Hm & Hcomp).
  destruct (first_move_for_total gs player (legalMoves gs)) as [r Hr].
  { intros x (cells & Hc & _)%legalMoves_cell; [by exists cells | done]. }
  destruct r as [m'|].
  - exists m'. split; [done|].
    apply first_move_for_Some in Hr as (Hin & cells & Hc & Hw). split; [done|].
    apply (completes_true _ _ _ _ Hc). by apply canWinBoard_Some in Hw as (_ & _ & ?).
  - exfalso.
    destruct (legalMoves_cell gs m Hwf Hm) as (cells & Hc & Hlen & He).
    pose proof Hm as (Hg & Hb & Hlt & Hu & _ & Hf)%elem_of_legalMoves; [|done].
    apply (completes_true _ _ _ _ Hc) in Hcomp.
    destruct (canWinBoard_finds cells player (cellIndex m) Hlt He Hcomp) as [i Hi].
    pose proof Hi as (Hi9 & Hie & _)%canWinBoard_Some.
    set (mi := {| boardIndex := boardIndex m; cellIndex := i |}).
    assert (Hmi : mi ∈ legalMoves gs).
    { apply elem_of_legalMoves; [done|]. split_and!; try done.
      unfold empty_at, mi; simpl. rewrite Hc. by apply bool_decide_eq_true. }
    by apply (first_move_for_None gs player (legalMoves gs) mi cells Hr Hmi Hc).
Qed.

Lemma first_move_for_misses gs player :
  well_formed gs →
  (∀ m, m ∈ legalMoves gs → completes gs player m = false) →
  first_move_for gs player (legalMoves gs) = Ok None.
Proof.
  intros Hwf Hnone.
  destruct (first_move_for_total gs player (legalMoves gs)) as [r Hr].
  { intros x (cells & Hc & _)%legalMoves_cell; [by exists cells | done]. }
  destruct r as [m'|]; [|done]. exfalso.
  apply first_move_for_Some in Hr as (Hin & cells & Hc & Hw).
  apply canWinBoard_Some in Hw as (_ & _ & Hw).
  apply (completes_true _ _ _ _ Hc) in Hw. rewrite (Hnone m' Hin) in Hw. done.
Qed.

Lemma getAiMove_Intermediate_unfold random gs :
  well_formed gs → aiDifficulty gs = Intermediate → legalMoves gs ≠ [] →
  getAiMove random gs =
    won ← first_move_for gs (currentPlayer gs) (legalMoves gs);
    match won with
    | Some move => Ok (Some move)
    | None =>
        blocked ← first_move_for gs (other (currentPlayer gs)) (legalMoves gs);
        match blocked with
        | Some move => Ok (Some move)
        | None => Ok (pick random (legalMoves gs) 0)
        end
    end.
Proof.
  intros Hwf Hd Hne. unfold getAiMove.
  rewrite getValidMoves_legalMoves by done. rewrite bind_Ok, Hd.
  case_decide as Hlen; [|done]. by apply nil_length_inv in Hlen.
Qed.

(** C5. In a well-formed state the Intermediate tier returns a legal move that
    wins its sub-board whenever some legal move does; and when no legal
    move wins a sub-board but some legal move takes a cell with which the
    opponent would win that sub-board, it returns such a blocking move. *)
Theorem getAiMove_Intermediate_spec (random : nat → float) (gs : GameState) :
  well_formed gs → aiDifficulty gs = Intermediate →
  ((∃ m, m ∈ legalMoves gs ∧ completes gs (currentPlayer gs) m = true) →
   ∃ m', getAiMove random gs = Ok (Some m') ∧ m' ∈ legalMoves gs ∧
         completes gs (currentPlayer gs) m' = true) ∧
  ((∀ m, m ∈ legalMoves gs → completes gs (currentPlayer gs) m = false) →
   (∃ m, m ∈ legalMoves gs ∧ completes gs (other (currentPlayer gs)) m = true) →
   ∃ m', getAiMove random gs = Ok (Some m') ∧ m' ∈ legalMoves gs ∧
         completes gs (other (currentPlayer gs)) m' = true).
Proof.
  intros Hwf Hd. split.
  - intros Hex.
    assert (Hne : legalMoves gs ≠ []).
    { destruct Hex as (m & Hm & _). intros E. rewrite E in Hm. by apply elem_of_nil in Hm. }
    destruct (first_move_for_finds gs _ Hwf Hex) as (m' & Hr & Hin & Hc).
    exists m'. split; [|done].
    rewrite getAiMove_Intermediate_unfold by done. by rewrite Hr.
  - intros Hnone Hex.
    assert (Hne : legalMoves gs ≠ []).
    { destruct Hex as (m & Hm & _). intros E. rewrite E in Hm. by apply elem_of_nil in Hm. }
    destruct (first_move_for_finds gs _ Hwf Hex) as (m' & Hr & Hin & Hc).
    exists m'. split; [|done].
    rewrite getAiMove_Intermediate_unfold by done.
    rewrite (first_move_for_misses gs _ Hwf Hnone), bind_Ok. by rewrite Hr.
Qed.

(** *** Every tier plays a legal move *)

Lemma array_at_elem_of {A : Type} (arr : list A) z x : array_at arr z = Some x → x ∈ arr.
Proof. unfold array_at. case_decide; [done|]. apply list_elem_of_lookup_2. Qed.

Lemma pick_elem_of random arr k m : pick random arr k = Some m → m ∈ arr.
Proof.
  unfold pick, array_at_floor. destruct (Math_floor _) as [z|]; [|done].
  apply array_at_elem_of.
Qed.

Lemma score_moves_elem_of random gs moves k bestScore bestMoves k' bestMoves' :
  score_moves random gs moves k bestScore bestMoves = Ok (k', bestMoves') →
  ∀ m, m ∈ bestMoves' → m ∈ bestMoves ∨ m ∈ moves.
Proof.
  revert k bestScore bestMoves.
  induction moves as [|move rest IH]; intros k bestScore bestMoves; cbn [score_moves].
  - intros [= <- <-] m Hm. by left.
  - intros (base & _ & H)%bind_Ok_inv m Hm.
    destruct (exceeds _ bestScore); [|destruct (near _ bestScore)].
    + destruct (IH _ _ _ H m Hm) as [E%list_elem_of_singleton|?]; right;
        [subst; left | by right].
    + destruct (IH _ _ _ H m Hm) as [[?|E%list_elem_of_singleton]%elem_of_app|?];
        [by left | subst; right; left | right; by right].
    + destruct (IH _ _ _ H m Hm) as [?|?]; [by left | right; by right].
Qed.

(** C10. Whatever the tier and whatever [Math.random()] yields, a move
    returned by [getAiMove] is one of the moves [getValidMoves] returns for
    the same state. *)
Theorem getAiMove_valid (random : nat → float) (gs : GameState) (m : Move) :
  getAiMove random gs = Ok (Some m) →
  ∃ validMoves, getValidMoves gs = Ok validMoves ∧ m ∈ validMoves.
Proof.
  unfold getAiMove. intros (validMoves & Hv & H)%bind_Ok_inv.
  exists validMoves. split; [done|].
  case_decide as Hlen; [done|].
  destruct (aiDifficulty gs).
  - injection H as H. by apply pick_elem_of in H.
  - apply bind_Ok_inv in H as (won & Hwon & H). destruct won as [move|].
    + injection H as ->. by apply first_move_for_Some in Hwon as (? & _).
    + apply bind_Ok_inv in H as (blocked & Hbl & H). destruct blocked as [move|].
      * injection H as ->. by apply first_move_for_Some in Hbl as (? & _).
      * injection H as H. by apply pick_elem_of in H.
  - apply bind_Ok_inv in H as ([k bestMoves] & Hs & H).
    case_decide; injection H as H.
    + apply pick_elem_of in H.
      destruct (score_moves_elem_of _ _ _ _ _ _ _ _ Hs m H) as [?%elem_of_nil|?]; done.
    + by apply list_elem_of_lookup_2 in H.
Qed.

(** *** The score of the Advanced tier *)

Lemma array_set_Ok {A : Type} (arr : list A) i x :
  i < length arr → array_set arr i x = Ok (<[i:=x]> arr).
Proof. intros H. unfold array_set. by case_decide. Qed.

Lemma undecided_true gs b :
  undecided gs b = true ↔ ∃ st, smallBoardStatuses gs !! b = Some st ∧ decided st = false.
Proof.
  unfold undecided. destruct (smallBoardStatuses gs !! b) as [st|]; split.
  - intros H%negb_true_iff. by exists st.
  - intros (? & [= <-] & ->). done.
  - done.
  - by intros (? & ? & _).
Qed.

(** C9, as the code has it.  When the move to cell 4 of board 4 is legal, wins
    board 4 and with it the meta-board, its score is 100 + 10000 + 20 + 5 =
    10125 provided the opponent has no cell that wins board 4 at once.
    The move sends the opponent to board 4 itself, whose status before the
    move is undecided, so a winning cell of the opponent there costs 100;
    and 80 are added when that cell is cell 4. *)
Theorem evaluateMove_center_win (gs : GameState) :
  let m := {| boardIndex := 4; cellIndex := 4 |} in
  well_formed gs → m ∈ legalMoves gs →
  wins_game gs (currentPlayer gs) m = true →
  evaluateMove gs m =
    Ok (match threat gs 4 with
        | None => 10125%Z
        | Some c => if decide (c = 4) then 10105%Z else 10025%Z
        end).
Proof.
  intros m Hwf Hm Hwin.
  destruct (legalMoves_cell gs m Hwf Hm) as (cells & Hc & Hlen & He).
  pose proof Hm as (_ & _ & _ & (st & Hst & Hd)%undecided_true & _)%elem_of_legalMoves;
    [|done].
  simpl in Hc, He, Hst.
  unfold wins_game in Hwin. simpl in Hwin. rewrite Hc in Hwin.
  destruct (checkGlobalWinner _) as [r| |] eqn:Hr; [|done..].
  apply andb_true_iff in Hwin as [Hw1%bool_decide_eq_true Hw2%bool_decide_eq_true].
  unfold evaluateMove, threat. cbn [boardIndex cellIndex m].
  rewrite Hc. cbn [defined]. rewrite bind_Ok.
  rewrite array_set_Ok by lia. rewrite bind_Ok.
  rewrite (bool_decide_eq_true_2 _ Hw1).
  rewrite array_set_Ok by (destruct Hwf as (_ & _ & -> & _); lia).
  rewrite bind_Ok, Hr, !bind_Ok.
  rewrite (decide_True _ _ Hw2).
  rewrite Hst. cbn [defined]. rewrite bind_Ok, Hd.
  destruct (canWinBoard cells (other (currentPlayer gs))) as [c|]; [|done].
  destruct (decide (c = 4)) as [->|Hne].
  - rewrite decide_True by done. rewrite decide_True by done. done.
  - rewrite decide_True by done. rewrite decide_False by congruence. done.
Qed.

Lemma play_reachable gs lastMove moves gs' :
  reachable gs → play gs lastMove moves = Ok gs' → reachable gs'.
Proof.
  revert gs lastMove. induction moves as [|m rest IH]; intros gs lm Hr; cbn [play].
  - by intros [= <-].
  - intros (gs1 & Hstep & Hrest)%bind_Ok_inv.
    eapply IH; [|exact Hrest]. by eapply reachable_move.
Qed.

Lemma game_of_reachable difficulty moves : reachable (game_of difficulty moves).
Proof.
  unfold game_of.
  destruct (play (resetGameState PvCPU difficulty) None moves) as [gs| |] eqn:Hplay;
    [|apply reachable_start..].
  eapply play_reachable; [apply reachable_start | exact Hplay].
Qed.

(** The position [center_race] is: every one of the 27 moves was played. *)
Lemma center_race_position :
  board center_race =
    [ [e; e; e; e; x; e; e; e; e]; [e; e; e; e; e; e; e; e; x];
      [e; e; o; e; e; o; x; e; o]; [e; e; e; e; o; e; e; e; e];
      [e; o; x; e; e; x; x; o; o]; [e; e; e; e; x; o; x; e; o];
      [o; e; e; e; o; e; e; e; o]; [e; e; x; e; o; e; x; e; e];
      [e; e; x; x; x; x; e; e; e] ] ∧
  smallBoardStatuses center_race =
    [free; free; won Player.O; free; free; free; won Player.O; free; won Player.X] ∧
  currentPlayer center_race = Player.O ∧ nextBoardIndex center_race = None ∧
  globalWinner center_race = None ∧ isGlobalDraw center_race = false ∧
  moveCount center_race = 27.
Proof. by vm_compute. Qed.

(** The position [center_win] is: every one of the 25 moves was played. *)
Lemma center_win_position :
  board center_win =
    [ [o; x; e; o; e; e; o; e; x]; [o; e; e; e; e; e; e; e; x];
      [x; e; e; e; x; e; e; e; e]; [e; e; e; e; e; e; o; x; x];
      [e; e; o; x; e; e; o; e; e]; [x; e; e; e; e; e; e; e; o];
      [e; e; e; e; x; x; e; e; x]; [e; o; e; e; e; e; e; e; e];
      [x; e; o; e; e; o; e; e; o] ] ∧
  smallBoardStatuses center_win =
    [won Player.O; free; free; free; free; free; free; free; won Player.O] ∧
  currentPlayer center_win = Player.O ∧ nextBoardIndex center_win = None ∧
  globalWinner center_win = None ∧ isGlobalDraw center_win = false ∧
  moveCount center_win = 25.
Proof. by vm_compute. Qed.

(** In [center_race], a state of a real game, the move to cell 4 of board 4
    is legal, wins board 4 and the meta-board, and scores
    100 + 10000 + 20 + 80 - 100 + 5 = 10105. *)
Lemma center_race_score :
  let m := {| boardIndex := 4; cellIndex := 4 |} in
  reachable center_race ∧ well_formed center_race ∧ m ∈ legalMoves center_race ∧
  wins_game center_race (currentPlayer center_race) m = true ∧
  evaluateMove center_race m = Ok 10105%Z ∧
  evaluateMove center_race m ≠ Ok 10125%Z.
Proof.
  split_and!.
  - apply game_of_reachable.
  - decide_by_computing.
  - decide_by_computing.
  - by vm_compute.
  - by vm_compute.
  - by vm_compute.
Qed.

Lemma evaluateMove_center_win_witness :
  evaluateMove center_win {| boardIndex := 4; cellIndex := 4 |} = Ok 10125%Z.
Proof.
  apply (evaluateMove_center_win center_win).
  - decide_by_computing.
  - decide_by_computing.
  - by vm_compute.
Defined.

Lemma evaluateMove_total gs m :
  well_formed gs → m ∈ legalMoves gs → ∃ z, evaluateMove gs m = Ok z.
Proof.
  intros Hwf Hm.
  destruct (legalMoves_cell gs m Hwf Hm) as (cells & Hc & Hlen & He).
  pose proof Hm as (_ & Hb & Hlt & _)%elem_of_legalMoves; [|done].
  destruct (well_formed_status gs (cellIndex m) Hwf Hlt) as [st Hst].
  destruct (well_formed_cells gs (cellIndex m) Hwf Hlt) as (dest & Hdest & _).
  assert (Hlen' : length (smallBoardStatuses gs) = 9) by by destruct Hwf as (_ & _ & ? & _).
  unfold evaluateMove. rewrite Hc. cbn [defined]. rewrite bind_Ok.
  rewrite array_set_Ok by lia. rewrite bind_Ok.
  rewrite array_set_Ok by lia. rewrite bind_Ok.
  rewrite checkGlobalWinner_nine by (by rewrite length_insert).
  rewrite Hst, Hdest. cbn [defined].
  destruct (bool_decide _); rewrite !bind_Ok; destruct (decided st);
    rewrite ?bind_Ok; repeat case_decide; by eexists.
Qed.

(** *** The choice of the Advanced tier *)

Lemma position_bonus_range center corner i :
  (0 <= corner <= center)%Z → (0 <= position_bonus center corner i <= center)%Z.
Proof. intros H. unfold position_bonus. case_decide; [lia|]. case_bool_decide; lia. Qed.

Lemma array_set_inv {A : Type} (arr arr' : list A) i x :
  array_set arr i x = Ok arr' → i < length arr ∧ arr' = <[i:=x]> arr.
Proof. unfold array_set. case_decide; [by intros [= <-] | done]. Qed.

(** The two bands of the score: 10000 and more for a move that wins the
    game, 205 at most for any other move. *)
Lemma evaluateMove_band gs m z :
  evaluateMove gs m = Ok z →
  if wins_game gs (currentPlayer gs) m then (10000 <= z <= 10205)%Z
  else (-100 <= z <= 205)%Z.
Proof.
  unfold evaluateMove, wins_game.
  intros (cells & Hc%defined_Ok & H)%bind_Ok_inv. rewrite Hc.
  apply bind_Ok_inv in H as (csb & [_ ->]%array_set_inv & H).
  apply bind_Ok_inv in H as (s1 & Hs1 & H).
  apply bind_Ok_inv in H as (st & _ & H).
  apply bind_Ok_inv in H as (s3 & Hs3 & H). injection H as <-.
  pose proof (position_bonus_range 20 10 (boardIndex m) ltac:(lia)) as Hb1.
  pose proof (position_bonus_range 5 3 (cellIndex m) ltac:(lia)) as Hb2.
  set (status := checkSmallBoardStatus (<[cellIndex m := Some (currentPlayer gs)]> cells)) in *.
  assert (Hs3' : ∃ s2 d, s3 = (s2 - d)%Z ∧ (s2 = s1 ∨ s2 = s1 + 80)%Z ∧ (0 <= d <= 100)%Z).
  { revert Hs3.
    destruct (decide (canWinBoard cells (other (currentPlayer gs)) = Some (cellIndex m)));
      destruct (decided st).
    - intros [= <-]. exists (s1 + 80)%Z, 50%Z. lia.
    - intros (dest & _ & Hd)%bind_Ok_inv. revert Hd.
      destruct (decide (canWinBoard dest (other (currentPlayer gs)) ≠ None));
        intros [= <-]; [exists (s1 + 80)%Z, 100%Z | exists (s1 + 80)%Z, 0%Z]; lia.
    - intros [= <-]. exists s1, 50%Z. lia.
    - intros (dest & _ & Hd)%bind_Ok_inv. revert Hd.
      destruct (decide (canWinBoard dest (other (currentPlayer gs)) ≠ None));
        intros [= <-]; [exists s1, 100%Z | exists s1, 0%Z]; lia. }
  destruct Hs3' as (s2 & d & -> & Hs2 & Hd).
  destruct (bool_decide (winner status = Some (currentPlayer gs))) eqn:Hwon.
  - apply bind_Ok_inv in Hs1 as (ns & [_ ->]%array_set_inv & Hs1).
    apply bind_Ok_inv in Hs1 as (gr & Hgr & Hs1). rewrite Hgr. cbn [andb].
    revert Hs1. destruct (decide (winner gr = Some (currentPlayer gs))) as [Hw|Hw];
      intros [= <-].
    + rewrite (bool_decide_eq_true_2 _ Hw). lia.
    + rewrite (bool_decide_eq_false_2 _ Hw). lia.
  - injection Hs1 as <-.
    destruct (checkGlobalWinner _); cbn [andb]; lia.
Qed.

Lemma legalMoves_length gs : well_formed gs → length (legalMoves gs) ≤ 81.
Proof. intros Hwf. by apply legalMoves_sublist, sublist_length in Hwf. Qed.

(** With a draw in [0, 1) the index [Math.floor(r * arr.length)] lies in
    an array of at most 81 elements. *)
Lemma pick_in_range random (arr : list Move) k :
  unit_interval (random k) = true → arr ≠ [] → length arr ≤ 81 →
  ∃ i m, pick random arr k = Some m ∧ arr !! i = Some m.
Proof.
  intros Hr Hne Hlen. unfold pick, array_at_floor.
  destruct (floor_index (random k) (Z.of_nat (length arr)) Hr) as (z & -> & Hz).
  { destruct arr; [done|]. cbn [length] in *. lia. }
  cbn. unfold array_at. rewrite decide_False by lia.
  destruct (lookup_lt_is_Some_2 arr (Z.to_nat z)) as [m Hm]; [lia|].
  by exists (Z.to_nat z), m.
Qed.

(** The noisy score of a move the code can score is a finite double. *)
Lemma evaluateMove_noisy gs m z r :
  evaluateMove gs m = Ok z → unit_interval r = true →
  fin (noisy_score z r) ∧
  ((z - 1) * 2 ^ grid ≤ val (noisy_score z r) ≤ (z + 6) * 2 ^ grid)%Z.
Proof.
  intros Hz Hr. apply noisy_score_grid; [|done].
  pose proof (evaluateMove_band gs m z Hz) as Hb.
  destruct (wins_game gs (currentPlayer gs) m); lia.
Qed.

(** The scoring loop returns for legal moves, having made one call of
    [Math.random()] per move; it keeps no more moves than it was given,
    and keeps some move once it has one. *)
Lemma score_moves_Ok random gs moves k bestScore bestMoves :
  well_formed gs → (∀ m, m ∈ moves → m ∈ legalMoves gs) →
  ∃ bestMoves', score_moves random gs moves k bestScore bestMoves
                  = Ok (k + length moves, bestMoves') ∧
    length bestMoves' ≤ length bestMoves + length moves ∧
    (bestMoves ≠ [] → bestMoves' ≠ []).
Proof.
  intros Hwf. revert k bestScore bestMoves.
  induction moves as [|move rest IH]; intros k bestScore bestMoves Hlegal.
  { exists bestMoves. cbn. rewrite Nat.add_0_r. split_and!; [done | lia | done]. }
  destruct (evaluateMove_total gs move Hwf) as [z Hz]; [apply Hlegal; left|].
  cbn [score_moves]. rewrite Hz, bind_Ok.
  assert (Hrest : ∀ m, m ∈ rest → m ∈ legalMoves gs) by (intros; apply Hlegal; by right).
  replace (k + length (move :: rest)) with (S k + length rest) by (cbn; lia).
  destruct (exceeds _ bestScore); [|destruct (near _ bestScore)].
  - destruct (IH (S k) (of_int z + random k * 5)%float [move] Hrest) as (bm & -> & Hlen & Hne).
    exists bm. split_and!; [done | cbn in *; lia | intros _; by apply Hne].
  - destruct (IH (S k) bestScore (bestMoves ++ [move]) Hrest) as (bm & -> & Hlen & Hne).
    exists bm. split_and!; [done | rewrite length_app in Hlen; cbn in *; lia |].
    intros _. apply Hne. by destruct bestMoves.
  - destruct (IH (S k) bestScore bestMoves Hrest) as (bm & -> & Hlen & Hne).
    exists bm. split_and!; [done | cbn; lia | done].
Qed.

(** From [-Infinity] the first move scored is kept, so the loop over a
    non-empty list of legal moves ends with a move to choose. *)
Lemma score_moves_some random gs moves :
  well_formed gs → (∀ m, m ∈ moves → m ∈ legalMoves gs) → moves ≠ [] →
  unit_interval (random 0) = true →
  ∃ bestMoves, score_moves random gs moves 0 neg_infinity [] = Ok (length moves, bestMoves) ∧
    bestMoves ≠ [] ∧ length bestMoves ≤ length moves.
Proof.
  intros Hwf Hlegal Hne Hr. destruct moves as [|move rest]; [done|].
  destruct (evaluateMove_total gs move Hwf) as [z Hz]; [apply Hlegal; left|].
  cbn [score_moves]. rewrite Hz, bind_Ok.
  destruct (evaluateMove_noisy gs move z (random 0) Hz Hr) as [Hfin _].
  unfold exceeds. fold (noisy_score z (random 0)). rewrite (neg_infinity_ltb _ Hfin).
  destruct (score_moves_Ok random gs rest 1 (noisy_score z (random 0)) [move] Hwf)
    as (bm & Hbm & Hlen & Hkeep).
  { intros; apply Hlegal; by right. }
  exists bm. split_and!; [exact Hbm | by apply Hkeep | exact Hlen].
Qed.

Lemma getAiMove_Advanced_unfold random gs :
  well_formed gs → aiDifficulty gs = Advanced → legalMoves gs ≠ [] →
  unit_interval (random 0) = true →
  ∃ bestMoves,
    score_moves random gs (legalMoves gs) 0 neg_infinity []
      = Ok (length (legalMoves gs), bestMoves) ∧
    bestMoves ≠ [] ∧ length bestMoves ≤ 81 ∧
    getAiMove random gs = Ok (pick random bestMoves (length (legalMoves gs))).
Proof.
  intros Hwf Hd Hne Hr.
  destruct (score_moves_some random gs (legalMoves gs) Hwf) as (bm & Hbm & Hne' & Hlen);
    [done..|].
  pose proof (legalMoves_length gs Hwf).
  exists bm. split_and!; [done | done | lia |].
  unfold getAiMove. rewrite getValidMoves_legalMoves by done. rewrite bind_Ok.
  case_decide as Hl; [by apply nil_length_inv in Hl|]. rewrite Hd, Hbm, bind_Ok.
  rewrite decide_True; [done|]. destruct bm; [done|cbn; lia].
Qed.

Lemma opening_well_formed : well_formed opening.
Proof. decide_by_computing. Qed.

(** C4, at its failing input: the opening position, the noise drawn as 0
    for every move but the move to cell 4 of board 1, whose draw is 1/64
    (noise 5/64).  Every draw is a value [Math.random()] can return.  The
    move to cell 4 of board 0 scores 5, within 0.1 of the largest noisy
    score 5.078125, so it belongs to the set the specification describes;
    the loop has dropped it when the larger score came, and [getAiMove]
    returns it for no value of the final draw. *)
Theorem getAiMove_Advanced_drops_near_tie :
  (∀ r k, unit_interval r = true → unit_interval (late_best r k) = true) ∧
  mv 0 4 ∈ near_the_top (noisy_scores (late_best 0) opening) ∧
  ∀ r, score_moves (late_best r) opening (legalMoves opening) 0 neg_infinity []
         = Ok (81, [mv 1 4; mv 2 4; mv 3 4; mv 4 4; mv 5 4; mv 6 4; mv 7 4; mv 8 4]) ∧
       getAiMove (late_best r) opening ≠ Ok (Some (mv 0 4)).
Proof.
  split_and!.
  - intros r k Hr. unfold late_best. repeat case_decide; [vm_compute; reflexivity|done|].
    vm_compute. reflexivity.
  - decide_by_computing.
  - intros r.
    assert (Hloop : score_moves (late_best r) opening (legalMoves opening) 0 neg_infinity []
              = Ok (81, [mv 1 4; mv 2 4; mv 3 4; mv 4 4; mv 5 4; mv 6 4; mv 7 4; mv 8 4])).
    { vm_compute. reflexivity. }
    split; [exact Hloop|].
    unfold getAiMove. rewrite getValidMoves_legalMoves by apply opening_well_formed.
    rewrite bind_Ok, Hloop, bind_Ok.
    change (aiDifficulty opening) with Advanced. cbv iota.
    rewrite decide_False by (vm_compute; lia). rewrite decide_True by (cbn; lia).
    intros [= Hp]. apply pick_elem_of in Hp. revert Hp. decide_by_computing.
Qed.

(** ** The reducer of the match *)

Lemma handleCellClick_cases lastMove onlineRole b c isRemote gs gs' :
  handleCellClick lastMove onlineRole b c isRemote gs = Ok gs' →
  gs' = gs ∨ accepted b c gs gs'.
Proof.
  unfold handleCellClick.
  destruct (_ && _ && _); [intros [= <-]; by left|].
  destruct (globalWinner gs) eqn:Hw; [intros [= <-]; by left|].
  intros (cells & Hcells%defined_Ok & H)%bind_Ok_inv.
  destruct (decide (cells !! c ≠ Some None)) as [|Hc%dec_stable];
    [injection H as <-; by left|].
  destruct (bool_decide (nextBoardIndex gs ≠ None) &&
            bool_decide (nextBoardIndex gs ≠ Some b)) eqn:Hf;
    [injection H as <-; by left|].
  apply bind_Ok_inv in H as (st & Hst%defined_Ok & H).
  destruct (decided st) eqn:Hd; [injection H as <-; by left|].
  apply bind_Ok_inv in H as (newCells & Hnew%defined_Ok & H).
  apply bind_Ok_inv in H as (global & Hglobal & H).
  apply bind_Ok_inv in H as (nextSt & Hnext%defined_Ok & H).
  injection H as <-. right. split; simpl; try done.
  - by exists cells.
  - apply andb_false_iff in Hf as [Hf|Hf]; apply bool_decide_eq_false in Hf;
      apply dec_stable in Hf; auto.
  - by exists st.
  - by exists newCells.
  - by exists global.
  - by exists nextSt.
Qed.

Lemma accepted_changes b c gs gs' : accepted b c gs gs' → gs' ≠ gs.
Proof. intros H ->. pose proof (acc_count _ _ _ _ H). lia. Qed.

Lemma checkGlobalWinner_isDraw statuses r :
  checkGlobalWinner statuses = Ok r → isDraw r = true → forallb decided statuses = true.
Proof.
  unfold checkGlobalWinner. intros (line & _ & H)%bind_Ok_inv.
  destruct line; [by injection H as <-|].
  destruct (forallb decided statuses); by injection H as <-.
Qed.

Lemma reachable_draw_consistent gs : reachable gs → draw_consistent gs.
Proof.
  induction 1 as [|lm role b c r gs gs' _ IH Hstep]; [done|].
  apply handleCellClick_cases in Hstep as [->|Hacc]; [done|].
  destruct (acc_global _ _ _ _ Hacc) as (global & Hg & _ & Hd).
  intros Hdraw. rewrite Hd in Hdraw. by eapply checkGlobalWinner_isDraw.
Qed.

Lemma reachable_well_formed gs : reachable gs → well_formed gs.
Proof.
  induction 1 as [|lm role b c r gs gs' _ IH Hstep].
  { decide_by_computing. }
  apply handleCellClick_cases in Hstep as [->|Hacc]; [done|].
  destruct IH as (Hb & Hcells & Hs & Hn).
  destruct (acc_statuses _ _ _ _ Hacc) as (newCells & _ & Hst).
  destruct (acc_next _ _ _ _ Hacc) as (st & Hlook & Hnext).
  split_and!.
  - by rewrite (acc_board _ _ _ _ Hacc), length_imap.
  - rewrite (acc_board _ _ _ _ Hacc). apply Forall_lookup. intros i cells.
    rewrite list_lookup_imap. intros (cells' & Hi & ->)%fmap_Some.
    pose proof (Forall_lookup_1 _ _ _ _ Hcells Hi) as Hlen. simpl in Hlen.
    case_decide; [by rewrite length_imap | done].
  - by rewrite Hst, length_insert.
  - rewrite Hnext. destruct (decided st); [done|].
    apply lookup_lt_Some in Hlook. rewrite Hst, length_insert in Hlook. lia.
Qed.

(** In a well-formed state and for a board index below 9,
    [handleCellClick] hands back the very state it was given when the
    target cell is not empty, when there is a winner, or when a forced
    board is set and is not the board of the move; and also when the draw
    flag is set and agrees with the statuses (every sub-board won or
    drawn).  The reducer does not read the draw flag: a drawn game is
    refused because the target board is decided. *)
Lemma handleCellClick_refuses lastMove onlineRole b c isRemote gs :
  well_formed gs → b < 9 →
  empty_at gs b c = false ∨ globalWinner gs ≠ None ∨
    (isGlobalDraw gs = true ∧ draw_consistent gs) ∨
    (∃ n, nextBoardIndex gs = Some n ∧ n ≠ b) →
  handleCellClick lastMove onlineRole b c isRemote gs = Ok gs.
Proof.
  intros Hwf Hb Hcase.
  destruct (well_formed_cells gs b Hwf Hb) as (cells & Hc & _).
  destruct (well_formed_status gs b Hwf Hb) as [st Hst].
  unfold handleCellClick.
  destruct (_ && _ && _); [done|].
  destruct (globalWinner gs) eqn:Hw; [done|].
  rewrite Hc. cbn [defined]. rewrite bind_Ok.
  destruct (decide (cells !! c ≠ Some None)) as [|Hcell%dec_stable]; [done|].
  destruct (bool_decide (nextBoardIndex gs ≠ None) &&
            bool_decide (nextBoardIndex gs ≠ Some b)) eqn:Hf; [done|].
  rewrite Hst. cbn [defined]. rewrite bind_Ok.
  destruct (decided st) eqn:Hd; [done|]. exfalso.
  destruct Hcase as [He|[Hg|[[Hdraw Hdc]|(n & Hn & Hne)]]].
  - unfold empty_at in He. rewrite Hc in He. by apply bool_decide_eq_false in He.
  - done.
  - specialize (Hdc Hdraw). rewrite forallb_forall in Hdc.
    rewrite Hdc in Hd; [done|]. apply list_elem_of_In. by eapply list_elem_of_lookup_2.
  - rewrite Hn in Hf. apply andb_false_iff in Hf as [Hf|Hf];
      apply bool_decide_eq_false in Hf; apply Hf; congruence.
Qed.

(** C1. In every state of a match, and for every cell of a board index
    below 9, [handleCellClick] rejects the move when the target cell is
    not empty, when the game has a winner or is drawn, or when a forced
    board is set and is not the board of the move; the state it returns
    is then the very state it was given, no field changed.  (A board
    index of 9 or more, which only a message of the peer can carry, makes
    the read of the cell throw: [handleCellClick_outside].) *)
Theorem handleCellClick_rejects (lastMove : option Move) (onlineRole : option OnlineRole)
    (b c : nat) (isRemote : bool) (gs : GameState) :
  reachable gs → b < 9 →
  empty_at gs b c = false ∨ globalWinner gs ≠ None ∨ isGlobalDraw gs = true ∨
    (∃ n, nextBoardIndex gs = Some n ∧ n ≠ b) →
  handleCellClick lastMove onlineRole b c isRemote gs = Ok gs.
Proof.
  intros Hr Hb Hcase.
  apply handleCellClick_refuses; [by apply reachable_well_formed | done |].
  destruct Hcase as [He|[Hg|[Hdraw|Hforced]]].
  - by left.
  - right. by left.
  - right. right. left. split; [done|]. by apply reachable_draw_consistent.
  - right. right. by right.
Qed.

Lemma handleCellClick_rejects_witness :
  handleCellClick None None 0 4 false center_race = Ok center_race.
Proof.
  apply (handleCellClick_rejects None None 0 4 false center_race).
  - apply game_of_reachable.
  - lia.
  - left. vm_compute. reflexivity.
Defined.

(** Outside a match the draw flag alone does not stop a move: in
    [draw_flag], a state no match reaches, the flag is set although no
    board is decided, and the move to cell 0 of board 0 is played. *)
Lemma draw_flag_accepts :
  well_formed draw_flag ∧ isGlobalDraw draw_flag = true ∧
  handleCellClick None None 0 0 false draw_flag ≠ Ok draw_flag.
Proof.
  split_and!; [decide_by_computing | done |].
  intros H.
  apply (f_equal (λ r, match r with Ok gs => moveCount gs | _ => 0 end)) in H.
  by vm_compute in H.
Qed.

(** C2. A move that [handleCellClick] accepts into cell [c] leaves the forced
    board at [c] when board [c] is undecided by the statuses the move
    leaves, and at none when that board is won or drawn; so in every state
    of a match a forced board, when set, is a board that is neither won nor
    drawn. *)
Theorem forced_board_undecided :
  (∀ lastMove onlineRole b c isRemote gs gs',
     handleCellClick lastMove onlineRole b c isRemote gs = Ok gs' → gs' ≠ gs →
     ∃ st, smallBoardStatuses gs' !! c = Some st ∧
           nextBoardIndex gs' = if decided st then None else Some c) ∧
  (∀ gs n, reachable gs → nextBoardIndex gs = Some n →
     ∃ st, smallBoardStatuses gs !! n = Some st ∧ winner st = None ∧ isDraw st = false).
Proof.
  split.
  - intros lm role b c r gs gs' Hstep Hne.
    apply handleCellClick_cases in Hstep as [->|Hacc]; [done|].
    exact (acc_next _ _ _ _ Hacc).
  - intros gs n Hr. revert n.
    induction Hr as [|lm role b c r gs gs' _ IH Hstep]; intros n Hn; [done|].
    apply handleCellClick_cases in Hstep as [->|Hacc]; [by apply IH|].
    destruct (acc_next _ _ _ _ Hacc) as (st & Hst & Hnext).
    rewrite Hnext in Hn. destruct (decided st) eqn:Hd; [done|].
    injection Hn as <-. exists st. split; [done|]. by apply decided_false.
Qed.

Lemma forced_board_undecided_witness :
  nextBoardIndex after_host_move = Some 4 ∧
  ∃ st, smallBoardStatuses after_host_move !! 4 = Some st ∧
        winner st = None ∧ isDraw st = false.
Proof.
  destruct forced_board_undecided as [Hmove Hreach].
  assert (Hstep : handleCellClick None (Some GUEST) 0 4 true (resetGameState PvOnline Beginner)
                  = Ok after_host_move) by reflexivity.
  destruct (Hmove _ _ _ _ _ _ _ Hstep) as (st & Hst & Hnext).
  { intros H. apply (f_equal moveCount) in H. by vm_compute in H. }
  split; [reflexivity|].
  apply Hreach; [|reflexivity].
  eapply reachable_move; [apply reachable_start | exact Hstep].
Defined.

(** In a well-formed state a move on one of the nine boards never throws. *)
Lemma handleCellClick_total lastMove onlineRole b c isRemote gs :
  well_formed gs → b < 9 →
  ∃ gs', handleCellClick lastMove onlineRole b c isRemote gs = Ok gs'.
Proof.
  intros Hwf Hb.
  destruct (well_formed_cells gs b Hwf Hb) as (cells & Hc & Hlen).
  destruct (well_formed_status gs b Hwf Hb) as [st Hst].
  assert (Hs : length (smallBoardStatuses gs) = 9) by by destruct Hwf as (_ & _ & ? & _).
  unfold handleCellClick.
  destruct (_ && _ && _); [by eexists|].
  destruct (globalWinner gs); [by eexists|].
  rewrite Hc. cbn [defined]. rewrite bind_Ok.
  destruct (decide (cells !! c ≠ Some None)) as [|Hcell%dec_stable]; [by eexists|].
  destruct (_ && _); [by eexists|].
  rewrite Hst. cbn [defined]. rewrite bind_Ok.
  destruct (decided st); [by eexists|].
  rewrite list_lookup_imap, Hc. cbn [fmap option_fmap option_map defined]. rewrite bind_Ok.
  rewrite checkGlobalWinner_nine by (by rewrite length_insert). rewrite bind_Ok.
  apply lookup_lt_Some in Hcell.
  destruct (lookup_lt_is_Some_2 (<[b := checkSmallBoardStatus
              (if decide (b = b)
               then imap (λ cIdx cell, if decide (cIdx = c)
                                       then Some (currentPlayer gs) else cell) cells
               else cells)]> (smallBoardStatuses gs)) c) as [nextSt Hnext].
  { rewrite length_insert. lia. }
  rewrite Hnext. cbn [defined]. rewrite bind_Ok. by eexists.
Qed.

(** Outside the nine boards the read of [board[boardIndex][cellIndex]]
    throws. *)
Lemma handleCellClick_outside :
  handleCellClick None None 9 0 false opening = TypeError.
Proof. reflexivity. Qed.

(** *** After the peer is gone *)

Lemma isInteractionAllowed_offline s :
  gameMode (gameState s) = PvOnline → onlineState s ≠ CONNECTED →
  isInteractionAllowed s = false.
Proof.
  intros Hm Hs. unfold isInteractionAllowed. rewrite Hm. simpl.
  by rewrite (bool_decide_eq_true_2 _ Hs).
Qed.

Lemma attempt_offline s a :
  gameMode (gameState s) = PvOnline → onlineState s ≠ CONNECTED →
  attempt s a = Ok s.
Proof.
  intros Hm Hs. destruct a as [b c|random]; simpl.
  - unfold onCellClick. by rewrite isInteractionAllowed_offline.
  - unfold aiEffect. by rewrite Hm.
Qed.

(** C3. In an online match, once [handleOnlineDisconnect] has run, every
    local move attempt (a click on a cell, or the timer of the CPU) leaves
    the session as it is, the game state included, however many follow. *)
Theorem disconnected_frozen (s : Session) (l : list LocalAttempt) :
  gameMode (gameState s) = PvOnline →
  attempts (handleOnlineDisconnect s) l = Ok (handleOnlineDisconnect s) ∧
  (∀ s', attempts (handleOnlineDisconnect s) l = Ok s' → gameState s' = gameState s).
Proof.
  intros Hm.
  assert (H : attempts (handleOnlineDisconnect s) l = Ok (handleOnlineDisconnect s)).
  { induction l as [|a rest IH]; [done|]. cbn [attempts].
    rewrite attempt_offline; [by rewrite bind_Ok | done | done]. }
  split; [done|]. intros s' Hs'. rewrite H in Hs'. by injection Hs' as <-.
Qed.

Lemma disconnected_frozen_witness :
  attempts (handleOnlineDisconnect guest_session) [Click 4 4; Click 4 0]
    = Ok (handleOnlineDisconnect guest_session).
Proof.
  apply (disconnected_frozen guest_session [Click 4 4; Click 4 0]). reflexivity.
Defined.

(** While the peer is connected the same click is played. *)
Lemma connected_click_played :
  ∃ s', onCellClick guest_session 4 4 = Ok s' ∧ moveCount (gameState s') = 2.
Proof. eexists. split; reflexivity. Qed.

(** The reducer itself does not look at the connection: called directly
    on the guest's turn it plays the move, whatever the connection state.
    What stops a click after a disconnect is [onCellClick]. *)
Lemma handleCellClick_plays_on_own_turn :
  ∃ gs', handleCellClick (lastMove guest_session) (onlineRole guest_session) 4 4 false
           (gameState (handleOnlineDisconnect guest_session)) = Ok gs' ∧
         moveCount gs' = 2.
Proof. eexists. split; reflexivity. Qed.

(** ** The model covers every call of [getAiMove] *)

(** The moves [getValidMoves] returns, in any state whatever, name an
    empty cell of an existing board whose status exists and is undecided. *)
Lemma forEach_empty_elem bIdx cells k m :
  m ∈ forEach_empty bIdx cells k →
  boardIndex m = bIdx ∧ k ≤ cellIndex m ∧ cells !! (cellIndex m - k) = Some None.
Proof.
  revert k. induction cells as [|cell rest IH]; intros k; [by intros ?%elem_of_nil|].
  cbn [forEach_empty].
  assert (Hrest : m ∈ forEach_empty bIdx rest (S k) →
                  boardIndex m = bIdx ∧ k ≤ cellIndex m ∧
                  (cell :: rest) !! (cellIndex m - k) = Some None).
  { intros (? & ? & Hc)%IH. split_and!; [done | lia |].
    by replace (cellIndex m - k) with (S (cellIndex m - S k)) by lia. }
  destruct cell as [p|]; [done|].
  intros [->|Hin]%elem_of_cons; [|by apply Hrest].
  simpl. by rewrite Nat.sub_diag.
Qed.

Lemma collect_moves_elem gs targetBoards moves0 moves m :
  collect_moves gs targetBoards moves0 = Ok moves → m ∈ moves →
  m ∈ moves0 ∨
  ∃ cells st, board gs !! boardIndex m = Some cells ∧ cells !! cellIndex m = Some None ∧
              smallBoardStatuses gs !! boardIndex m = Some st ∧ decided st = false.
Proof.
  revert moves0. induction targetBoards as [|bIdx rest IH]; intros moves0; cbn [collect_moves].
  - intros [= <-] ?. by left.
  - intros (st & Hst%defined_Ok & H)%bind_Ok_inv Hm.
    destruct (decided st) eqn:Hd; cbn [negb] in H; [by eapply IH|].
    apply bind_Ok_inv in H as (cells & Hc%defined_Ok & H).
    destruct (IH _ H Hm) as [[?|Hnew]%elem_of_app|?]; [by left | | by right].
    apply forEach_empty_elem in Hnew as (-> & _ & Hcell).
    rewrite Nat.sub_0_r in Hcell. right. by exists cells, st.
Qed.

Lemma getValidMoves_elem gs moves m :
  getValidMoves gs = Ok moves → m ∈ moves →
  ∃ cells st, board gs !! boardIndex m = Some cells ∧ cells !! cellIndex m = Some None ∧
              smallBoardStatuses gs !! boardIndex m = Some st ∧ decided st = false.
Proof.
  unfold getValidMoves. destruct (globalWinner gs); [by intros [= <-] ?%elem_of_nil|].
  intros (targetBoards & _ & H)%bind_Ok_inv Hm.
  by destruct (collect_moves_elem _ _ _ _ _ H Hm) as [?%elem_of_nil|?].
Qed.

Lemma bind_in_model {A B : Type} (m : result A) (f : A → result B) :
  m ≠ OutOfModel → (∀ a, m = Ok a → f a ≠ OutOfModel) → m ≫= f ≠ OutOfModel.
Proof.
  destruct m as [a| |]; intros Hm Hf; [by apply Hf | done | done].
Qed.

Lemma defined_in_model {A : Type} (o : option A) : defined o ≠ OutOfModel.
Proof. by destruct o. Qed.

Lemma checkGlobalWinner_in_model statuses : checkGlobalWinner statuses ≠ OutOfModel.
Proof.
  unfold checkGlobalWinner. apply bind_in_model.
  - induction WINNING_COMBINATIONS as [|[[a b] c] rest IH]; [done|].
    cbn [scan_statuses]. apply bind_in_model.
    + unfold statuses_line. apply bind_in_model; [apply defined_in_model|].
      intros statA _. destruct (winner statA); [|done].
      apply bind_in_model; [apply defined_in_model|]. intros statB _.
      case_decide; [|done]. apply bind_in_model; [apply defined_in_model|].
      intros statC _. by case_decide.
    + intros line _. by destruct line.
  - intros line _. destruct line; [done|]. by destruct (forallb decided statuses).
Qed.

Lemma evaluateMove_in_model gs m cells :
  board gs !! boardIndex m = Some cells → cells !! cellIndex m = Some None →
  is_Some (smallBoardStatuses gs !! boardIndex m) →
  evaluateMove gs m ≠ OutOfModel.
Proof.
  intros Hc He Hs%lookup_lt_is_Some_1. apply lookup_lt_Some in He.
  unfold evaluateMove. rewrite Hc. cbn [defined]. rewrite bind_Ok.
  rewrite array_set_Ok by done. rewrite bind_Ok.
  apply bind_in_model.
  - destruct (bool_decide _); [|done].
    rewrite array_set_Ok by done. rewrite bind_Ok.
    apply bind_in_model; [apply checkGlobalWinner_in_model | done].
  - intros score _. apply bind_in_model; [apply defined_in_model|].
    intros st _. apply bind_in_model; [|done].
    destruct (decided st); [done|].
    apply bind_in_model; [apply defined_in_model|]. intros dest _. by case_decide.
Qed.

Lemma first_move_for_in_model gs player moves : first_move_for gs player moves ≠ OutOfModel.
Proof.
  induction moves as [|move rest IH]; [done|]. cbn [first_move_for].
  apply bind_in_model; [apply defined_in_model|]. intros cells _. by case_decide.
Qed.

Lemma score_moves_in_model random gs moves k bestScore bestMoves :
  (∀ m, m ∈ moves → evaluateMove gs m ≠ OutOfModel) →
  score_moves random gs moves k bestScore bestMoves ≠ OutOfModel.
Proof.
  revert k bestScore bestMoves.
  induction moves as [|move rest IH]; intros k bestScore bestMoves Hev; [done|].
  cbn [score_moves]. apply bind_in_model; [apply Hev; left|].
  intros base _.
  assert (Hrest : ∀ m, m ∈ rest → evaluateMove gs m ≠ OutOfModel).
  { intros m Hm. apply Hev. by right. }
  destruct (exceeds _ bestScore); [|destruct (near _ bestScore)]; by apply IH.
Qed.

(** No call of [getAiMove], in any state and on any tier, writes past the
    end of an array: the outcome [OutOfModel] is never reached. *)
Lemma getAiMove_in_model random gs : getAiMove random gs ≠ OutOfModel.
Proof.
  unfold getAiMove. apply bind_in_model.
  - unfold getValidMoves. destruct (globalWinner gs); [done|].
    apply bind_in_model.
    + destruct (nextBoardIndex gs); [|done].
      apply bind_in_model; [apply defined_in_model|]. intros st _. by destruct (decided st).
    + intros targetBoards _. generalize (@nil Move).
      induction targetBoards as [|bIdx rest IH]; intros moves; [done|].
      cbn [collect_moves]. apply bind_in_model; [apply defined_in_model|].
      intros st _. destruct (decided st); cbn [negb]; [apply IH|].
      apply bind_in_model; [apply defined_in_model|]. intros cells _. apply IH.
  - intros validMoves Hv. case_decide; [done|].
    destruct (aiDifficulty gs); [done| |].
    + apply bind_in_model; [apply first_move_for_in_model|].
      intros won _. destruct won; [done|].
      apply bind_in_model; [apply first_move_for_in_model|].
      intros blocked _. by destruct blocked.
    + apply bind_in_model.
      * apply score_moves_in_model. intros m Hm.
        destruct (getValidMoves_elem gs validMoves m Hv Hm) as (cells & st & ? & ? & ? & _).
        by eapply evaluateMove_in_model.
      * intros [k bestMoves] _. by case_decide.
Qed.

(** In a well-formed state with a legal move, and draws in [0, 1), every
    tier returns a move; without a legal move every tier returns none. *)
Lemma getAiMove_total random gs :
  well_formed gs → legalMoves gs ≠ [] → (∀ k, unit_interval (random k) = true) →
  ∃ m, getAiMove random gs = Ok (Some m).
Proof.
  intros Hwf Hne Hrand. pose proof (legalMoves_length gs Hwf) as Hlen.
  destruct (aiDifficulty gs) eqn:Hd.
  - destruct (pick_in_range random (legalMoves gs) 0 (Hrand 0) Hne Hlen) as (i & m & Hp & _).
    exists m. unfold getAiMove. rewrite getValidMoves_legalMoves by done. rewrite bind_Ok.
    case_decide as Hl; [by apply nil_length_inv in Hl|]. by rewrite Hd, Hp.
  - rewrite getAiMove_Intermediate_unfold by done.
    assert (Hb : ∀ x, x ∈ legalMoves gs → is_Some (board gs !! boardIndex x)).
    { intros x (cells & Hc & _)%legalMoves_cell; [by exists cells | done]. }
    destruct (first_move_for_total gs (currentPlayer gs) (legalMoves gs) Hb) as [won Hwon].
    rewrite Hwon, bind_Ok. destruct won as [m|]; [by exists m|].
    destruct (first_move_for_total gs (other (currentPlayer gs)) (legalMoves gs) Hb)
      as [blocked Hbl].
    rewrite Hbl, bind_Ok. destruct blocked as [m|]; [by exists m|].
    destruct (pick_in_range random (legalMoves gs) 0 (Hrand 0) Hne Hlen) as (i & m & Hp & _).
    exists m. by rewrite Hp.
  - destruct (getAiMove_Advanced_unfold random gs Hwf Hd Hne (Hrand 0))
      as (bm & _ & Hbm & Hl & ->).
    destruct (pick_in_range random bm (length (legalMoves gs)) (Hrand _) Hbm Hl)
      as (i & m & Hp & _).
    exists m. by rewrite Hp.
Qed.

Lemma getAiMove_none random gs :
  well_formed gs → legalMoves gs = [] → getAiMove random gs = Ok None.
Proof.
  intros Hwf He. unfold getAiMove. rewrite getValidMoves_legalMoves by done.
  rewrite bind_Ok, He. done.
Qed.

(** ** The theorems at work on the example states *)

Lemma checkSmallBoardStatus_spec_witness :
  ∃ cb, first_uniform top_row WINNING_COMBINATIONS cb Player.X.
Proof.
  destruct (checkSmallBoardStatus_spec top_row) as (_ & Hfirst & _); [reflexivity|].
  by apply Hfirst.
Defined.

Lemma checkGlobalWinner_spec_witness :
  ∃ r, checkGlobalWinner diagonal = Ok r ∧ winner r = Some Player.X.
Proof.
  destruct (checkGlobalWinner_spec diagonal) as (r & Hr & _ & Hfirst & _); [reflexivity|].
  exists r. split; [done|]. apply Hfirst.
  exists (0, 4, 8), [(0, 1, 2); (3, 4, 5); (6, 7, 8); (0, 3, 6); (1, 4, 7); (2, 5, 8)],
    [(2, 4, 6)].
  split_and!; [done | done |].
  intros cb q Hin Hu. apply cells_line_uniform in Hu. revert Hu.
  repeat (apply elem_of_cons in Hin as [->|Hin]; [by vm_compute|]).
  by apply elem_of_nil in Hin.
Defined.

Lemma getValidMoves_spec_witness :
  getValidMoves center_race = Ok (legalMoves center_race) ∧
  StronglySorted move_lt (legalMoves center_race).
Proof. apply (getValidMoves_spec center_race). decide_by_computing. Defined.

Lemma getAiMove_Intermediate_spec_witness :
  ∃ m, getAiMove (λ _, 0%float) center_win_mid = Ok (Some m) ∧ m ∈ legalMoves center_win_mid ∧
       completes center_win_mid (currentPlayer center_win_mid) m = true.
Proof.
  destruct (getAiMove_Intermediate_spec (λ _, 0%float) center_win_mid) as [Hwin _].
  - decide_by_computing.
  - by vm_compute.
  - apply Hwin. exists (mv 4 4).
    split; [decide_by_computing | by vm_compute].
Defined.

Lemma getAiMove_valid_witness :
  ∃ validMoves, getValidMoves opening = Ok validMoves ∧
                {| boardIndex := 1; cellIndex := 4 |} ∈ validMoves.
Proof. apply (getAiMove_valid (late_best 0) opening). by vm_compute. Defined.

(** ** What a match keeps *)

(** The parts of an accepted move that [accepted] leaves out. *)
Lemma handleCellClick_rest lastMove onlineRole b c isRemote gs gs' :
  handleCellClick lastMove onlineRole b c isRemote gs = Ok gs' → gs' ≠ gs →
  turn_allowed onlineRole isRemote gs = true ∧
  history gs' = history gs ++ [item_of gs lastMove] ∧
  gameMode gs' = gameMode gs ∧ aiDifficulty gs' = aiDifficulty gs.
Proof.
  unfold handleCellClick, turn_allowed.
  destruct (_ && _ && _); [by intros [= <-]|].
  destruct (globalWinner gs); [by intros [= <-]|].
  intros (cells & _ & H)%bind_Ok_inv.
  destruct (decide (cells !! c ≠ Some None)); [by injection H as <-|].
  destruct (_ && _); [by injection H as <-|].
  apply bind_Ok_inv in H as (st & _ & H).
  destruct (decided st); [by injection H as <-|].
  apply bind_Ok_inv in H as (newCells & _ & H).
  apply bind_Ok_inv in H as (global & _ & H).
  apply bind_Ok_inv in H as (nextSt & _ & H).
  by injection H as <-.
Qed.

Lemma handleCellClick_accepted lastMove onlineRole b c isRemote gs gs' :
  handleCellClick lastMove onlineRole b c isRemote gs = Ok gs' → gs' ≠ gs →
  accepted b c gs gs'.
Proof. by intros [->|?]%handleCellClick_cases. Qed.

Lemma accepted_board_other b c gs gs' i :
  accepted b c gs gs' → i ≠ b → board gs' !! i = board gs !! i.
Proof.
  intros Hacc Hi. rewrite (acc_board _ _ _ _ Hacc), list_lookup_imap.
  destruct (board gs !! i); [|done]. simpl. by rewrite decide_False.
Qed.

Lemma accepted_status_other b c gs gs' i :
  accepted b c gs gs' → i ≠ b → smallBoardStatuses gs' !! i = smallBoardStatuses gs !! i.
Proof.
  intros Hacc Hi. destruct (acc_statuses _ _ _ _ Hacc) as (newCells & _ & ->).
  by rewrite list_lookup_insert_ne.
Qed.

Lemma accepted_status_target b c gs gs' :
  accepted b c gs gs' →
  ∃ newCells, board gs' !! b = Some newCells ∧
              smallBoardStatuses gs' !! b = Some (checkSmallBoardStatus newCells).
Proof.
  intros Hacc. destruct (acc_statuses _ _ _ _ Hacc) as (newCells & Hb & Hs).
  destruct (acc_target _ _ _ _ Hacc) as (st & Hst%lookup_lt_Some & _).
  exists newCells. split; [done|]. rewrite Hs. by apply list_lookup_insert_eq.
Qed.

(** Every status is the status of its board. *)
Lemma reachable_statuses gs i cells :
  reachable gs → board gs !! i = Some cells →
  smallBoardStatuses gs !! i = Some (checkSmallBoardStatus cells).
Proof.
  intros Hr. revert i cells.
  induction Hr as [|lm role b c r gs gs' _ IH Hstep]; intros i cells.
  - simpl. unfold createInitialBoard, createInitialStatuses.
    intros [-> Hi]%lookup_replicate. by rewrite lookup_replicate_2.
  - apply handleCellClick_cases in Hstep as [->|Hacc]; [apply IH|].
    destruct (decide (i = b)) as [->|Hi].
    + destruct (accepted_status_target _ _ _ _ Hacc) as (newCells & Hb & Hs).
      intros Hc. rewrite Hb in Hc. by injection Hc as <-.
    + rewrite (accepted_board_other _ _ _ _ _ Hacc Hi),
        (accepted_status_other _ _ _ _ _ Hacc Hi). apply IH.
Qed.

(** The winner and the draw flag are what [checkGlobalWinner] says of the
    statuses. *)
Lemma reachable_global gs :
  reachable gs →
  checkGlobalWinner (smallBoardStatuses gs)
    = Ok {| winner := globalWinner gs; isDraw := isGlobalDraw gs |}.
Proof.
  induction 1 as [|lm role b c r gs gs' _ IH Hstep]; [done|].
  apply handleCellClick_cases in Hstep as [->|Hacc]; [done|].
  destruct (acc_global _ _ _ _ Hacc) as ([w d] & -> & -> & ->). done.
Qed.

Lemma reachable_forced gs n :
  reachable gs → nextBoardIndex gs = Some n → undecided gs n = true.
Proof.
  intros Hr. revert n.
  induction Hr as [|lm role b c r gs gs' _ IH Hstep]; intros n Hn; [done|].
  apply handleCellClick_cases in Hstep as [->|Hacc]; [by apply IH|].
  destruct (acc_next _ _ _ _ Hacc) as (st & Hst & Hnext).
  rewrite Hnext in Hn. destruct (decided st) eqn:Hd; [done|].
  injection Hn as <-. apply undecided_true. by exists st.
Qed.

Lemma reachable_count gs :
  reachable gs →
  moveCount gs = length (history gs) ∧
  currentPlayer gs = (if Nat.even (moveCount gs) then Player.X else Player.O).
Proof.
  induction 1 as [|lm role b c r gs gs' _ [IHc IHp] Hstep]; [done|].
  destruct (decide (gs' = gs)) as [->|Hne]; [done|].
  pose proof (handleCellClick_accepted _ _ _ _ _ _ _ Hstep Hne) as Hacc.
  destruct (handleCellClick_rest _ _ _ _ _ _ _ Hstep Hne) as (_ & Hh & _).
  rewrite (acc_count _ _ _ _ Hacc), (acc_turn _ _ _ _ Hacc), Hh, length_app, IHp, <- IHc.
  split; [done|]. replace (moveCount gs + 1) with (S (moveCount gs)) by lia.
  rewrite Nat.even_succ, <- Nat.negb_even. by destruct (Nat.even (moveCount gs)).
Qed.

(** X1. A move that [handleCellClick] accepts puts the mark of the player to
    move into the cell it names, which was empty, and changes no other
    cell; the turn passes to the other player and the move count grows by
    one. *)
Theorem handleCellClick_one_mark (lastMove : option Move) (onlineRole : option OnlineRole)
    (b c : nat) (isRemote : bool) (gs gs' : GameState) :
  handleCellClick lastMove onlineRole b c isRemote gs = Ok gs' → gs' ≠ gs →
  cell_at gs b c = Some None ∧
  (∀ i j, cell_at gs' i j =
          if decide (i = b ∧ j = c) then Some (Some (currentPlayer gs)) else cell_at gs i j) ∧
  currentPlayer gs' = other (currentPlayer gs) ∧
  moveCount gs' = moveCount gs + 1.
Proof.
  intros Hstep Hne. pose proof (handleCellClick_accepted _ _ _ _ _ _ _ Hstep Hne) as Hacc.
  destruct (acc_cell _ _ _ _ Hacc) as (cells & Hb & Hc).
  split_and!.
  - unfold cell_at. rewrite Hb. done.
  - intros i j. unfold cell_at. rewrite (acc_board _ _ _ _ Hacc), list_lookup_imap.
    destruct (board gs !! i) as [cs|] eqn:Hcs; simpl;
      [|by rewrite decide_False by (intros [-> _]; congruence)].
    destruct (decide (i = b)) as [->|Hi].
    + assert (cs = cells) as -> by congruence. rewrite list_lookup_imap.
      destruct (decide (j = c)) as [->|Hj].
      * rewrite Hc. simpl. by rewrite decide_True.
      * rewrite (decide_False (P := b = b ∧ j = c)) by (by intros [_ ?]).
        by destruct (cells !! j).
    + by rewrite (decide_False (P := i = b ∧ j = c)) by (by intros [? _]).
  - exact (acc_turn _ _ _ _ Hacc).
  - exact (acc_count _ _ _ _ Hacc).
Qed.

Lemma handleCellClick_one_mark_witness :
  cell_at after_host_move 0 4 = Some (Some Player.X) ∧
  cell_at after_host_move 4 4 = Some None.
Proof.
  destruct (handleCellClick_one_mark None (Some GUEST) 0 4 true
              (resetGameState PvOnline Beginner) after_host_move) as (_ & Hcells & _).
  - reflexivity.
  - intros H. apply (f_equal moveCount) in H. by vm_compute in H.
  - split; [rewrite Hcells | rewrite Hcells]; reflexivity.
Defined.

(** X2. A sub-board that is won or drawn is frozen: whatever move is asked
    of [handleCellClick], in whatever state, the cells and the status of a
    decided board are the same afterwards. *)
Theorem decided_board_frozen (lastMove : option Move) (onlineRole : option OnlineRole)
    (b c : nat) (isRemote : bool) (gs gs' : GameState) (i : nat) (st : SmallBoardStatus) :
  handleCellClick lastMove onlineRole b c isRemote gs = Ok gs' →
  smallBoardStatuses gs !! i = Some st → decided st = true →
  board gs' !! i = board gs !! i ∧ smallBoardStatuses gs' !! i = Some st.
Proof.
  intros Hstep Hst Hd.
  apply handleCellClick_cases in Hstep as [->|Hacc]; [done|].
  assert (Hi : i ≠ b).
  { intros ->. destruct (acc_target _ _ _ _ Hacc) as (st' & Hst' & Hd'). congruence. }
  split; [by apply (accepted_board_other b c) |].
  by rewrite (accepted_status_other b c gs gs' i Hacc Hi).
Qed.

Lemma decided_board_frozen_witness :
  ∃ gs', handleCellClick None None 4 4 false center_race = Ok gs' ∧ gs' ≠ center_race ∧
         board gs' !! 2 = board center_race !! 2 ∧
         smallBoardStatuses gs' !! 2 = Some (won Player.O).
Proof.
  assert (H : ∃ gs', handleCellClick None None 4 4 false center_race = Ok gs' ∧
                     moveCount gs' = 28)
    by (eexists; split; vm_compute; reflexivity).
  destruct H as (gs' & Hstep & Hcount). exists gs'. split; [done|]. split.
  - intros ->. revert Hcount. by vm_compute.
  - apply (decided_board_frozen None None 4 4 false center_race gs' 2 (won Player.O) Hstep);
      by vm_compute.
Defined.

(** X3. In every state of a match the stored statuses are the statuses of the
    boards, the winner and the draw flag are what [checkGlobalWinner] says
    of those statuses, and a game with a winner is not flagged drawn. *)
Theorem match_statuses_consistent (gs : GameState) :
  reachable gs →
  (∀ i cells, board gs !! i = Some cells →
     smallBoardStatuses gs !! i = Some (checkSmallBoardStatus cells)) ∧
  checkGlobalWinner (smallBoardStatuses gs)
    = Ok {| winner := globalWinner gs; isDraw := isGlobalDraw gs |} ∧
  (globalWinner gs ≠ None → isGlobalDraw gs = false).
Proof.
  intros Hr. split_and!.
  - intros i cells. by apply reachable_statuses.
  - by apply reachable_global.
  - pose proof (reachable_global gs Hr) as Hg. unfold checkGlobalWinner in Hg.
    apply bind_Ok_inv in Hg as (line & _ & Hg). destruct line.
    + by injection Hg as _ <-.
    + destruct (forallb decided (smallBoardStatuses gs)); injection Hg as <- _; done.
Qed.

Lemma match_statuses_consistent_witness :
  checkGlobalWinner (smallBoardStatuses center_race)
    = Ok {| winner := globalWinner center_race; isDraw := isGlobalDraw center_race |}.
Proof. apply (match_statuses_consistent center_race). apply game_of_reachable. Defined.

(** X4. Turns alternate from X: in every state of a match X is to move exactly
    when the move count is even, and the history holds one item per move
    played. *)
Theorem turns_alternate (gs : GameState) :
  reachable gs →
  (currentPlayer gs = Player.X ↔ Nat.even (moveCount gs) = true) ∧
  moveCount gs = length (history gs).
Proof.
  intros [Hc Hp]%reachable_count. split; [|done].
  rewrite Hp. by destruct (Nat.even (moveCount gs)).
Qed.

Lemma turns_alternate_witness :
  (currentPlayer center_race = Player.X ↔ Nat.even (moveCount center_race) = true) ∧
  moveCount center_race = length (history center_race).
Proof. apply (turns_alternate center_race). apply game_of_reachable. Defined.

Lemma forallb_false_lookup (cells : SmallBoardState) :
  forallb (fun cell : CellValue => bool_decide (cell ≠ None)) cells = false →
  ∃ j, cells !! j = Some None.
Proof.
  induction cells as [|cell rest IH]; [done|]. simpl.
  destruct cell as [p|]; simpl.
  - intros (j & Hj)%IH. by exists (S j).
  - intros _. by exists 0.
Qed.

(** A board the statuses leave open has an empty cell. *)
Lemma reachable_undecided_empty gs i :
  reachable gs → undecided gs i = true → ∃ j, j < 9 ∧ empty_at gs i j = true.
Proof.
  intros Hr (st & Hst & Hd)%undecided_true.
  pose proof (reachable_well_formed gs Hr) as Hwf.
  assert (Hi : i < 9).
  { apply lookup_lt_Some in Hst. by destruct Hwf as (_ & _ & <- & _). }
  destruct (well_formed_cells gs i Hwf Hi) as (cells & Hc & Hlen).
  rewrite (reachable_statuses gs i cells Hr Hc) in Hst. injection Hst as <-.
  unfold decided, checkSmallBoardStatus in Hd.
  destruct (scan_cells cells WINNING_COMBINATIONS); [done|].
  destruct (forallb _ cells) eqn:Hfull; [done|].
  apply forallb_false_lookup in Hfull as (j & Hj).
  exists j. split; [apply lookup_lt_Some in Hj; lia|].
  unfold empty_at. rewrite Hc. by apply bool_decide_eq_true.
Qed.

Lemma forallb_decided_false statuses :
  forallb decided statuses = false → ∃ i st, statuses !! i = Some st ∧ decided st = false.
Proof.
  induction statuses as [|st rest IH]; [done|]. simpl.
  destruct (decided st) eqn:Hd; simpl.
  - intros (i & st' & ? & ?)%IH. by exists (S i), st'.
  - intros _. by exists 0, st.
Qed.

(** In a state of a match there is no legal move exactly when the game has
    a winner or is drawn. *)
Lemma reachable_no_moves gs :
  reachable gs →
  legalMoves gs = [] ↔ globalWinner gs ≠ None ∨ isGlobalDraw gs = true.
Proof.
  intros Hr. pose proof (reachable_well_formed gs Hr) as Hwf.
  pose proof (reachable_global gs Hr) as Hg.
  rewrite checkGlobalWinner_nine in Hg by (by destruct Hwf as (_ & _ & ? & _)).
  assert (Hopen : globalWinner gs = None → isGlobalDraw gs = false →
                  forallb decided (smallBoardStatuses gs) = false).
  { intros Hw Hd. rewrite Hw, Hd in Hg.
    destruct (scan_cells (winners (smallBoardStatuses gs)) WINNING_COMBINATIONS);
      [by injection Hg|].
    destruct (forallb decided (smallBoardStatuses gs)); [by injection Hg | done]. }
  clear Hg. split.
  - intros Hnone. destruct (globalWinner gs) as [w|] eqn:Hw; [by left|]. right.
    destruct (isGlobalDraw gs) eqn:Hdraw; [done|]. exfalso.
    destruct (forallb_decided_false _ (Hopen eq_refl eq_refl)) as (i & st & Hst & Hd).
    assert (Hu : undecided gs i = true) by (apply undecided_true; by exists st).
    assert (Hplay : ∀ k, undecided gs k = true →
                         (∀ n, nextBoardIndex gs = Some n → undecided gs n = true → k = n) →
                         False).
    { intros k Hk Hforced.
      destruct (reachable_undecided_empty gs k Hr Hk) as (j & Hj & He).
      assert (Hin : mv k j ∈ legalMoves gs).
      { apply elem_of_legalMoves; [done|]. split_and!; try done.
        apply undecided_true in Hk as (? & Hk%lookup_lt_Some & _).
        destruct Hwf as (_ & _ & Hlen & _). simpl. lia. }
      rewrite Hnone in Hin. by apply elem_of_nil in Hin. }
    destruct (nextBoardIndex gs) as [n|] eqn:Hn.
    + apply (Hplay n); [by apply reachable_forced|]. by intros ? [= <-].
    + by apply (Hplay i).
  - intros [Hw|Hdraw].
    + unfold legalMoves. by destruct (globalWinner gs).
    + destruct (legalMoves gs) as [|m rest] eqn:Hl; [done|]. exfalso.
      assert (Hm : m ∈ legalMoves gs) by (rewrite Hl; left).
      apply elem_of_legalMoves in Hm as (_ & _ & _ & (st & Hst & Hd)%undecided_true & _);
        [|done].
      pose proof (reachable_draw_consistent gs Hr Hdraw) as Hall.
      rewrite forallb_forall in Hall. rewrite Hall in Hd; [done|].
      apply list_elem_of_In. by eapply list_elem_of_lookup_2.
Qed.

(** X5. A match never stalls: in every state of a match [getValidMoves]
    returns no move exactly when the game has a winner or is drawn. *)
Theorem no_stalemate (gs : GameState) :
  reachable gs →
  getValidMoves gs = Ok [] ↔ globalWinner gs ≠ None ∨ isGlobalDraw gs = true.
Proof.
  intros Hr. rewrite getValidMoves_legalMoves by (by apply reachable_well_formed).
  rewrite <- (reachable_no_moves gs Hr). split; [by intros [= ->] | by intros ->].
Qed.

Lemma no_stalemate_witness : getValidMoves center_race ≠ Ok [].
Proof.
  intros H. apply (no_stalemate center_race) in H as [H|H]; [| |apply game_of_reachable].
  - revert H. by vm_compute.
  - revert H. by vm_compute.
Defined.

(** With every guard of [handleCellClick] out of the way the move is
    played. *)
Lemma handleCellClick_accepts lastMove onlineRole b c isRemote gs :
  well_formed gs → turn_allowed onlineRole isRemote gs = true →
  globalWinner gs = None → b < 9 → empty_at gs b c = true → undecided gs b = true →
  nextBoardIndex gs = None ∨ nextBoardIndex gs = Some b →
  ∃ gs', handleCellClick lastMove onlineRole b c isRemote gs = Ok gs' ∧ gs' ≠ gs.
Proof.
  intros Hwf Hturn Hw Hb He (st & Hst & Hd)%undecided_true Hforced.
  destruct (well_formed_cells gs b Hwf Hb) as (cells & Hc & Hlen).
  assert (Hs : length (smallBoardStatuses gs) = 9) by by destruct Hwf as (_ & _ & ? & _).
  unfold empty_at in He. rewrite Hc in He. apply bool_decide_eq_true in He.
  unfold turn_allowed in Hturn. apply negb_true_iff in Hturn.
  unfold handleCellClick. rewrite Hturn, Hw, Hc. cbn [defined]. rewrite bind_Ok.
  rewrite decide_False by (by intros ?).
  assert (Hf : bool_decide (nextBoardIndex gs ≠ None) &&
               bool_decide (nextBoardIndex gs ≠ Some b) = false).
  { destruct Hforced as [->| ->].
    - by rewrite bool_decide_eq_false_2 by (by intros ?).
    - rewrite (bool_decide_eq_false_2 (Some b ≠ Some b)) by (by intros ?).
      apply andb_false_r. }
  rewrite Hf, Hst. cbn [defined]. rewrite bind_Ok, Hd.
  rewrite list_lookup_imap, Hc. cbn [fmap option_fmap option_map defined]. rewrite bind_Ok.
  rewrite checkGlobalWinner_nine by (by rewrite length_insert). rewrite bind_Ok.
  apply lookup_lt_Some in He.
  destruct (lookup_lt_is_Some_2 (<[b := checkSmallBoardStatus
              (if decide (b = b)
               then imap (λ cIdx cell, if decide (cIdx = c)
                                       then Some (currentPlayer gs) else cell) cells
               else cells)]> (smallBoardStatuses gs)) c) as [nextSt Hnext].
  { rewrite length_insert. lia. }
  rewrite Hnext. cbn [defined]. rewrite bind_Ok. eexists. split; [done|].
  intros H. apply (f_equal moveCount) in H. simpl in H. lia.
Qed.

Lemma legal_move_accepted lastMove onlineRole b c isRemote gs :
  reachable gs → turn_allowed onlineRole isRemote gs = true →
  mv b c ∈ legalMoves gs →
  ∃ gs', handleCellClick lastMove onlineRole b c isRemote gs = Ok gs' ∧ gs' ≠ gs.
Proof.
  intros Hr Hturn. pose proof (reachable_well_formed gs Hr) as Hwf.
  rewrite elem_of_legalMoves by done. simpl.
  intros (Hw & Hb & Hc & Hu & He & Hf).
  apply handleCellClick_accepts; try done.
  destruct (nextBoardIndex gs) as [n|] eqn:Hn; [right | by left].
  f_equal. symmetry. apply Hf; [done|]. by apply reachable_forced.
Qed.

Lemma accepted_move_legal lastMove onlineRole b c isRemote gs gs' :
  well_formed gs →
  handleCellClick lastMove onlineRole b c isRemote gs = Ok gs' → gs' ≠ gs →
  mv b c ∈ legalMoves gs.
Proof.
  intros Hwf Hstep Hne. rewrite elem_of_legalMoves by done. simpl.
  pose proof (handleCellClick_accepted _ _ _ _ _ _ _ Hstep Hne) as Hacc.
  destruct (acc_cell _ _ _ _ Hacc) as (cells & Hcells & Hcell).
  destruct (acc_target _ _ _ _ Hacc) as (st & Hst & Hd).
  assert (Hb : b < 9).
  { apply lookup_lt_Some in Hcells. by destruct Hwf as (<- & _). }
  destruct (well_formed_cells gs b Hwf Hb) as (cells' & Hcells' & Hlen).
  assert (cells' = cells) as -> by congruence.
  split_and!.
  - exact (acc_winner _ _ _ _ Hacc).
  - done.
  - apply lookup_lt_Some in Hcell. lia.
  - apply undecided_true. by exists st.
  - unfold empty_at. rewrite Hcells. by apply bool_decide_eq_true.
  - intros n Hn _. destruct (acc_forced _ _ _ _ Hacc) as [Hf|Hf]; congruence.
Qed.

(** X6. The moves [getValidMoves] lists and the moves [handleCellClick]
    plays are the same: in every state of a match, and when the turn rule
    of online play lets the move through, [getValidMoves] lists a move
    exactly when the reducer accepts it. *)
Theorem legal_iff_accepted (lastMove : option Move) (onlineRole : option OnlineRole)
    (b c : nat) (isRemote : bool) (gs : GameState) :
  reachable gs → turn_allowed onlineRole isRemote gs = true →
  (∃ moves, getValidMoves gs = Ok moves ∧ mv b c ∈ moves) ↔
  ∃ gs', handleCellClick lastMove onlineRole b c isRemote gs = Ok gs' ∧ gs' ≠ gs.
Proof.
  intros Hr Hturn. pose proof (reachable_well_formed gs Hr) as Hwf.
  rewrite getValidMoves_legalMoves by done. split.
  - intros (moves & [= <-] & Hin). by apply legal_move_accepted.
  - intros (gs' & Hstep & Hne). exists (legalMoves gs). split; [done|].
    by eapply accepted_move_legal.
Qed.

Lemma legal_iff_accepted_witness :
  ∃ gs', handleCellClick None None 4 4 false center_race = Ok gs' ∧ gs' ≠ center_race.
Proof.
  apply (legal_iff_accepted None None 4 4 false center_race).
  - apply game_of_reachable.
  - vm_compute. reflexivity.
  - eexists. split; [vm_compute; reflexivity | decide_by_computing].
Defined.

(** Off the states of a match the two can part: with a forced board that
    is decided, [getValidMoves] falls back to every open board while
    [handleCellClick] still holds the move to the forced board. *)
Lemma fallback_not_accepted :
  let gs := {| board := createInitialBoard;
               smallBoardStatuses := <[4 := won Player.X]> createInitialStatuses;
               currentPlayer := Player.O;
               nextBoardIndex := Some 4;
               globalWinner := None;
               isGlobalDraw := false;
               history := [];
               moveCount := 0;
               gameMode := PvP;
               aiDifficulty := Beginner |} in
  getValidMoves gs = Ok (legalMoves gs) ∧ mv 0 0 ∈ legalMoves gs ∧
  handleCellClick None None 0 0 false gs = Ok gs.
Proof. split_and!; [by vm_compute | decide_by_computing | by vm_compute]. Qed.

(** A local move that is accepted gives the same state when it is applied
    as a remote move, whatever the role of the side that applies it. *)
Lemma handleCellClick_remote_same lastMove onlineRole onlineRole' b c gs gs' :
  handleCellClick lastMove onlineRole b c false gs = Ok gs' → gs' ≠ gs →
  handleCellClick lastMove onlineRole' b c true gs = Ok gs'.
Proof.
  unfold handleCellClick. cbn [negb]. rewrite andb_false_r. cbn [andb].
  destruct (_ && _ && _); [by intros [= <-]|]. done.
Qed.

(** [handleCellClick] reads the history only to append to it, and the last
    move of its closure only to record it there: with another history and
    another last move in place it gives the same outcome, the history
    apart, and an accepted move appends the item of the state it was made
    in. *)
Lemma handleCellClick_position h lastMove lastMove' onlineRole b c isRemote gs gs' :
  handleCellClick lastMove onlineRole b c isRemote gs = Ok gs' →
  ∃ gl', handleCellClick lastMove' onlineRole b c isRemote (with_history h gs) = Ok gl' ∧
    with_history [] gl' = with_history [] gs' ∧
    (gs' ≠ gs → history gl' = h ++ [item_of gs lastMove']).
Proof.
  unfold handleCellClick.
  cbn [with_history board smallBoardStatuses currentPlayer nextBoardIndex globalWinner
       isGlobalDraw history moveCount gameMode aiDifficulty].
  intros H.
  repeat match type of H with
  | (if ?g then _ else _) = Ok _ =>
      destruct g;
      [injection H as <-; eexists; split; [done|]; by split|]
  | match ?g with Some _ => _ | None => _ end = Ok _ =>
      destruct g;
      [injection H as <-; eexists; split; [done|]; by split|]
  | ?m ≫= _ = Ok _ => destruct m; [rewrite bind_Ok in H; rewrite bind_Ok | done..]
  end.
  injection H as <-. eexists. split; [done|]. by split.
Qed.

Lemma with_history_same (g g' : GameState) :
  with_history [] g = with_history [] g' → with_history (history g) g' = g.
Proof. destruct g, g'. cbn. by intros [= -> -> -> -> -> -> -> -> ->]. Qed.

(** X7. Two peers stay in step.  When both hold the same position (the
    same game state, the history apart) and the same last move, and a
    click on one side sends a message, the click was played there, and
    [handleOnlineData] on the other side, whatever its role, its
    connection state and the last move and role its callback remembers,
    leaves the same position and the same last move.  The history of the
    receiving side grows by one item, which records the last move its
    callback remembers.  In an online match a click that sends nothing
    changes nothing. *)
Theorem peers_in_step (closureLastMove : option Move) (closureRole : option OnlineRole)
    (sender receiver : Session) (b c : nat) :
  with_history [] (gameState receiver) = with_history [] (gameState sender) →
  lastMove receiver = lastMove sender →
  (∀ msg, sent_by_click sender b c = Some msg →
     ∃ sender' receiver',
       onCellClick sender b c = Ok sender' ∧
       handleOnlineData closureLastMove closureRole receiver msg = Ok receiver' ∧
       gameState sender' ≠ gameState sender ∧
       with_history [] (gameState receiver') = with_history [] (gameState sender') ∧
       lastMove receiver' = lastMove sender' ∧
       history (gameState receiver') =
         history (gameState receiver) ++ [item_of (gameState receiver) closureLastMove]) ∧
  (gameMode (gameState sender) = PvOnline → sent_by_click sender b c = None →
   ∀ sender', onCellClick sender b c = Ok sender' → gameState sender' = gameState sender).
Proof.
  intros Hgs Hlm. unfold sent_by_click, onCellClick. split.
  - intros msg. destruct (isInteractionAllowed sender); [|done].
    destruct (handleCellClick _ _ b c false (gameState sender)) as [next| |] eqn:Hstep;
      [|done..].
    destruct (bool_decide (gameMode _ = PvOnline)); [|done].
    destruct (bool_decide (next ≠ gameState sender)) eqn:Hne; [|done].
    apply bool_decide_eq_true in Hne. intros [= <-].
    pose proof (handleCellClick_remote_same _ _ closureRole _ _ _ _ Hstep Hne) as Hremote.
    destruct (handleCellClick_position (history (gameState receiver)) _ closureLastMove
                _ _ _ _ _ _ Hremote) as (next' & Hstep' & Hpos & Hhist).
    rewrite (with_history_same _ _ Hgs) in Hstep'. specialize (Hhist Hne).
    assert (Hitem : item_of (gameState sender) closureLastMove
                    = item_of (gameState receiver) closureLastMove).
    { by rewrite <- (with_history_same _ _ Hgs). }
    rewrite Hitem in Hhist.
    assert (Hne' : next' ≠ gameState receiver).
    { intros E. rewrite E in Hhist. apply (f_equal length) in Hhist.
      rewrite length_app in Hhist. cbn in Hhist. lia. }
    eexists _, _. rewrite bind_Ok. split; [done|].
    cbn [handleOnlineData]. rewrite Hstep', bind_Ok. split; [done|].
    cbn [gameState lastMove]. rewrite !decide_False by done. by split_and!.
  - intros Hmode. destruct (isInteractionAllowed sender); [|by intros _ ? [= <-]].
    destruct (handleCellClick _ _ b c false (gameState sender)) as [next| |] eqn:Hstep;
      [|done..].
    rewrite (bool_decide_eq_true_2 _ Hmode). cbn [andb].
    destruct (bool_decide (next ≠ gameState sender)) eqn:Hne; [done|].
    apply bool_decide_eq_false in Hne. apply dec_stable in Hne.
    intros _ sender'. rewrite bind_Ok. by intros [= <-].
Qed.

(** The guest answers the first move of the host at the centre of board
    4.  The callback of the host was registered before any move, with no
    last move and no role; receiving the message, the host has the guest's
    position, and in its history the item of this move records no last
    move where the guest's records the move to cell 4 of board 0. *)
Lemma peers_in_step_witness :
  let host := {| gameState := after_host_move; onlineState := CONNECTED;
                 onlineRole := Some HOST; lastMove := Some (mv 0 4) |} in
  ∃ guest' host',
    onCellClick guest_session 4 4 = Ok guest' ∧
    handleOnlineData None None host (MOVE 4 4) = Ok host' ∧
    with_history [] (gameState host') = with_history [] (gameState guest') ∧
    history (gameState host') = history after_host_move ++ [item_of after_host_move None].
Proof.
  intros host.
  destruct (peers_in_step None None guest_session host 4 4) as [Hsent _]; [done..|].
  destruct (Hsent (MOVE 4 4)) as (guest' & host' & H1 & H2 & _ & H3 & _ & H4);
    [vm_compute; reflexivity|].
  by exists guest', host'.
Defined.

(** ** More on the computer player *)

Lemma canWinBoard_from_seq cells player k n i :
  canWinBoard_from cells player (seq k n) = Some i ↔
  (k ≤ i < k + n ∧ winning_cell cells player i ∧
   ∀ j, k ≤ j < i → ¬ winning_cell cells player j).
Proof.
  revert k. induction n as [|n IH]; intros k; cbn [seq canWinBoard_from].
  - split; [done | intros ([? ?] & _); lia].
  - destruct (decide (cells !! k = Some None)) as [Hk|Hk];
      [destruct (decide (winner (checkSmallBoardStatus (<[k := Some player]> cells))
                         = Some player)) as [Hw|Hw]|].
    + split.
      * intros [= <-]. split_and!; [lia | lia | done | intros j ?; lia].
      * intros (Hi & _ & Hleast). destruct (decide (i = k)) as [->|Hne]; [done|].
        destruct (Hleast k); [lia | done].
    + rewrite IH. split.
      * intros (Hi & Hwin & Hleast). split_and!; [lia | lia | done |].
        intros j Hj. destruct (decide (j = k)) as [->|Hne]; [by intros [_ ?]|].
        apply Hleast. lia.
      * intros (Hi & Hwin & Hleast).
        assert (i ≠ k) by (intros ->; by destruct Hwin).
        split_and!; [lia | lia | done | intros j Hj; apply Hleast; lia].
    + rewrite IH. split.
      * intros (Hi & Hwin & Hleast). split_and!; [lia | lia | done |].
        intros j Hj. destruct (decide (j = k)) as [->|Hne]; [by intros [? _]|].
        apply Hleast. lia.
      * intros (Hi & Hwin & Hleast).
        assert (i ≠ k) by (intros ->; by destruct Hwin).
        split_and!; [lia | lia | done | intros j Hj; apply Hleast; lia].
Qed.

(** X8. [canWinBoard] names the lowest of the cells 0..8 that is empty and
    wins the board for the player, and answers null exactly when no such
    cell exists. *)
Theorem canWinBoard_spec (cells : SmallBoardState) (player : Player.t) :
  (∀ i, canWinBoard cells player = Some i ↔
        i < 9 ∧ winning_cell cells player i ∧ ∀ j, j < i → ¬ winning_cell cells player j) ∧
  (canWinBoard cells player = None ↔ ∀ i, i < 9 → ¬ winning_cell cells player i).
Proof.
  assert (Hsome : ∀ i, canWinBoard cells player = Some i ↔
            i < 9 ∧ winning_cell cells player i ∧
            ∀ j, j < i → ¬ winning_cell cells player j).
  { intros i. unfold canWinBoard. rewrite canWinBoard_from_seq. split.
    - intros ([_ ?] & ? & Hl). split_and!; [lia | done | intros j ?; apply Hl; lia].
    - intros (? & ? & Hl). split_and!; [lia | lia | done | intros j ?; apply Hl; lia]. }
  split; [done|]. split.
  - intros Hnone i Hi [He Hw].
    apply (canWinBoard_from_None cells player (seq 0 9) i Hnone); [|done..].
    apply elem_of_seq. lia.
  - intros Hno. destruct (canWinBoard cells player) as [i|] eqn:E; [|done].
    pose proof (proj1 (Hsome i) eq_refl) as (Hi & Hwin & _). by destruct (Hno i).
Qed.

Lemma first_move_for_split gs player moves m :
  first_move_for gs player moves = Ok (Some m) →
  ∃ pre post, moves = pre ++ m :: post ∧
    ∀ x cells, x ∈ pre → board gs !! boardIndex x = Some cells →
               canWinBoard cells player ≠ Some (cellIndex x).
Proof.
  induction moves as [|move rest IH]; [done|]. cbn [first_move_for].
  intros (cells & Hc%defined_Ok & H)%bind_Ok_inv.
  destruct (decide (canWinBoard cells player = Some (cellIndex move))) as [Hw|Hw].
  - injection H as <-. exists [], rest. split; [done|]. by intros ?? ?%elem_of_nil.
  - apply IH in H as (pre & post & -> & Hpre). exists (move :: pre), post.
    split; [done|]. intros x cells' [->|Hin]%elem_of_cons Hx; [congruence | by eapply Hpre].
Qed.

Lemma legalMoves_sorted gs : well_formed gs → StronglySorted move_lt (legalMoves gs).
Proof.
  intros Hwf.
  eapply StronglySorted_sublist; [by apply legalMoves_sublist | apply all_positions_sorted].
Qed.

Lemma move_lt_trans m1 m2 m3 : move_lt m1 m2 → move_lt m2 m3 → move_lt m1 m3.
Proof. unfold move_lt. lia. Qed.

(** The move a loop of the Intermediate tier returns is the lowest legal
    move, in (boardIndex, cellIndex) order, that completes a line for
    [player]. *)
Lemma first_move_for_least gs player m :
  well_formed gs →
  first_move_for gs player (legalMoves gs) = Ok (Some m) →
  ∀ m1, m1 ∈ legalMoves gs → completes gs player m1 = true → move_le m m1.
Proof.
  intros Hwf Hfirst m1 Hm1 Hcomp.
  destruct (first_move_for_split _ _ _ _ Hfirst) as (pre & post & Hsplit & Hpre).
  destruct (legalMoves_cell gs m1 Hwf Hm1) as (cells & Hc & Hlen & He).
  pose proof Hm1 as (Hg & Hb & Hlt & Hu & _ & Hf)%elem_of_legalMoves; [|done].
  apply (completes_true _ _ _ _ Hc) in Hcomp.
  destruct (canWinBoard_finds cells player (cellIndex m1) Hlt He Hcomp) as [i Hi].
  pose proof Hi as (_ & [He' Hw'] & _)%canWinBoard_from_seq.
  assert (Hle : i ≤ cellIndex m1).
  { apply canWinBoard_from_seq in Hi as (_ & _ & Hleast).
    destruct (decide (i ≤ cellIndex m1)); [done|].
    destruct (Hleast (cellIndex m1)); [lia | done]. }
  set (mi := {| boardIndex := boardIndex m1; cellIndex := i |}).
  assert (Hmi : mi ∈ legalMoves gs).
  { apply elem_of_legalMoves; [done|]. split_and!; try done; simpl; [lia|].
    unfold empty_at. rewrite Hc. by apply bool_decide_eq_true. }
  assert (Hmi1 : move_le mi m1).
  { destruct (decide (i = cellIndex m1)) as [Heq|Hne].
    - left. destruct m1; simpl in *. unfold mi. simpl. by rewrite Heq.
    - right. right. simpl. lia. }
  assert (Hm : move_le m mi).
  { pose proof (legalMoves_sorted gs Hwf) as Hs. rewrite Hsplit in Hs, Hmi.
    apply elem_of_app in Hmi as [Hin|[->|Hin]%elem_of_cons].
    - by destruct (Hpre mi cells Hin Hc).
    - by left.
    - right. apply StronglySorted_app_1_r, StronglySorted_inv in Hs as [_ Hall].
      by eapply Forall_forall in Hall. }
  destruct Hm as [Heq|Hm]; [by rewrite Heq|]. right.
  destruct Hmi1 as [Heq|Hmi1]; [by rewrite <- Heq | by eapply move_lt_trans].
Qed.

(** X9. The Intermediate tier plays the lowest move of its kind: when some
    legal move wins its sub-board, the move returned is a legal move that
    does, and the first such legal move in (boardIndex, cellIndex) order;
    when none does but some legal move blocks, it is the first blocking
    legal move. *)
Theorem getAiMove_Intermediate_first (random : nat → float) (gs : GameState) :
  well_formed gs → aiDifficulty gs = Intermediate →
  ((∃ m, m ∈ legalMoves gs ∧ completes gs (currentPlayer gs) m = true) →
   ∃ m', getAiMove random gs = Ok (Some m') ∧ m' ∈ legalMoves gs ∧
         completes gs (currentPlayer gs) m' = true ∧
         ∀ m1, m1 ∈ legalMoves gs → completes gs (currentPlayer gs) m1 = true →
               move_le m' m1) ∧
  ((∀ m, m ∈ legalMoves gs → completes gs (currentPlayer gs) m = false) →
   (∃ m, m ∈ legalMoves gs ∧ completes gs (other (currentPlayer gs)) m = true) →
   ∃ m', getAiMove random gs = Ok (Some m') ∧ m' ∈ legalMoves gs ∧
         completes gs (other (currentPlayer gs)) m' = true ∧
         ∀ m1, m1 ∈ legalMoves gs → completes gs (other (currentPlayer gs)) m1 = true →
               move_le m' m1).
Proof.
  intros Hwf Hd. split.
  - intros Hex.
    assert (Hne : legalMoves gs ≠ []).
    { destruct Hex as (m & Hm & _). intros E. rewrite E in Hm. by apply elem_of_nil in Hm. }
    destruct (first_move_for_finds gs _ Hwf Hex) as (m' & Hr & Hin & Hc).
    exists m'. split_and!; [|done|done|by apply first_move_for_least].
    rewrite getAiMove_Intermediate_unfold by done. by rewrite Hr.
  - intros Hnone Hex.
    assert (Hne : legalMoves gs ≠ []).
    { destruct Hex as (m & Hm & _). intros E. rewrite E in Hm. by apply elem_of_nil in Hm. }
    destruct (first_move_for_finds gs _ Hwf Hex) as (m' & Hr & Hin & Hc).
    exists m'. split_and!; [|done|done|by apply first_move_for_least].
    rewrite getAiMove_Intermediate_unfold by done.
    rewrite (first_move_for_misses gs _ Hwf Hnone), bind_Ok. by rewrite Hr.
Qed.

Lemma getAiMove_Intermediate_first_witness :
  ∃ m, getAiMove (λ _, 0%float) center_win_mid = Ok (Some m) ∧
       m ∈ legalMoves center_win_mid ∧
       ∀ m1, m1 ∈ legalMoves center_win_mid →
             completes center_win_mid (currentPlayer center_win_mid) m1 = true →
             move_le m m1.
Proof.
  destruct (getAiMove_Intermediate_first (λ _, 0%float) center_win_mid) as [Hwin _].
  - decide_by_computing.
  - by vm_compute.
  - destruct Hwin as (m & Hm & Hin & _ & Hleast).
    + exists (mv 4 4). split; [decide_by_computing | vm_compute; reflexivity].
    + exists m. split_and!; [exact Hm | exact Hin | exact Hleast].
Defined.

(** For every length [n] up to 81 and every index [i] below it,
    [draw_for i n] is a double in [0, 1) that [Math.floor(r * n)] takes to
    [i]; checked by computing all the cases. *)
Lemma draw_for_index (i n : nat) :
  i < n ≤ 81 →
  unit_interval (draw_for i n) = true ∧
  Math_floor (draw_for i n * of_int (Z.of_nat n)) = Some (Z.of_nat i).
Proof.
  intros Hin.
  assert (Hall : forallb (λ n, forallb (λ i,
            unit_interval (draw_for i n) &&
            bool_decide (Math_floor (draw_for i n * of_int (Z.of_nat n))
                         = Some (Z.of_nat i))) (seq 0 n)) (seq 1 81) = true).
  { vm_compute. reflexivity. }
  rewrite forallb_forall in Hall. specialize (Hall n ltac:(apply in_seq; lia)).
  rewrite forallb_forall in Hall. specialize (Hall i ltac:(apply in_seq; lia)).
  apply andb_true_iff in Hall as [H1 H2]. split; [done|]. by apply bool_decide_eq_true in H2.
Qed.

(** X10. The Beginner tier can play every legal move: for each legal move of
    a well-formed state there is a double in [0, 1) which, returned by
    [Math.random()], makes [getAiMove] return that move. *)
Theorem getAiMove_Beginner_any (gs : GameState) (m : Move) :
  well_formed gs → aiDifficulty gs = Beginner → m ∈ legalMoves gs →
  ∃ r, unit_interval r = true ∧ getAiMove (λ _, r) gs = Ok (Some m).
Proof.
  intros Hwf Hd [i Hi]%list_elem_of_lookup_1.
  pose proof (lookup_lt_Some _ _ _ Hi) as Hlt.
  pose proof (legalMoves_length gs Hwf) as Hlen.
  destruct (draw_for_index i (length (legalMoves gs))) as [Hunit Hfloor]; [lia|].
  exists (draw_for i (length (legalMoves gs))). split; [done|].
  unfold getAiMove. rewrite getValidMoves_legalMoves by done. rewrite bind_Ok.
  rewrite decide_False by lia. rewrite Hd. unfold pick, array_at_floor.
  rewrite Hfloor. cbn. unfold array_at. rewrite decide_False by lia.
  by rewrite Nat2Z.id, Hi.
Qed.

Lemma getAiMove_Beginner_any_witness :
  ∃ r, unit_interval r = true ∧
       getAiMove (λ _, r) (resetGameState PvCPU Beginner) = Ok (Some (mv 8 8)).
Proof.
  apply (getAiMove_Beginner_any (resetGameState PvCPU Beginner) (mv 8 8)).
  - decide_by_computing.
  - reflexivity.
  - decide_by_computing.
Defined.

(** X11. The score of [evaluateMove] lies in one of two bands: from 10000 to
    10205 for a move that wins the game, from -100 to 205 for any other
    move; so a move that wins the game outscores every other move by more
    than the noise of the Advanced tier can make up: whatever the two
    draws in [0, 1), its noisy score is the greater in double arithmetic. *)
Theorem evaluateMove_bands (gs : GameState) (m1 m2 : Move) (z1 z2 : Z) :
  evaluateMove gs m1 = Ok z1 → evaluateMove gs m2 = Ok z2 →
  (wins_game gs (currentPlayer gs) m1 = true → (10000 <= z1 <= 10205)%Z) ∧
  (wins_game gs (currentPlayer gs) m1 = false → (-100 <= z1 <= 205)%Z) ∧
  (wins_game gs (currentPlayer gs) m1 = true →
   wins_game gs (currentPlayer gs) m2 = false →
   (z2 + 5 < z1)%Z ∧
   ∀ r1 r2, unit_interval r1 = true → unit_interval r2 = true →
     (noisy_score z2 r2 <? noisy_score z1 r1)%float = true).
Proof.
  intros Hz1 Hz2.
  pose proof (evaluateMove_band _ _ _ Hz1) as H1.
  pose proof (evaluateMove_band _ _ _ Hz2) as H2.
  split_and!.
  - intros Hw. by rewrite Hw in H1.
  - intros Hw. by rewrite Hw in H1.
  - intros Hw1 Hw2. rewrite Hw1 in H1. rewrite Hw2 in H2. split; [lia|].
    intros r1 r2 Hr1 Hr2.
    destruct (evaluateMove_noisy _ _ _ r1 Hz1 Hr1) as [Hf1 Hv1].
    destruct (evaluateMove_noisy _ _ _ r2 Hz2 Hr2) as [Hf2 Hv2].
    assert (Hg : (0 < 2 ^ grid)%Z) by done.
    apply (far_apart _ _ Hf2 Hf1); nia.
Qed.

Lemma evaluateMove_bands_witness :
  (10000 <= 10105 <= 10205)%Z ∧
  (noisy_score 3 0x1.fffffffffffffp-1 <? noisy_score 10105 0)%float = true.
Proof.
  destruct (evaluateMove_bands center_race (mv 4 4) (mv 0 0) 10105 3) as (Hwin & _ & Hgap).
  - vm_compute. reflexivity.
  - vm_compute. reflexivity.
  - split.
    + apply Hwin. vm_compute. reflexivity.
    + apply Hgap; vm_compute; reflexivity.
Defined.

(** Once the best score is that of a move that wins the game, the loop
    keeps only moves that win the game: the score of any other move is
    neither greater nor within 0.1. *)
Lemma score_moves_after_win random gs moves k bestScore bestMoves k' bestMoves' :
  (∀ j, unit_interval (random j) = true) →
  fin bestScore → (9999 * 2 ^ grid ≤ val bestScore ≤ 11000 * 2 ^ grid)%Z →
  Forall (λ m, wins_game gs (currentPlayer gs) m = true) bestMoves →
  score_moves random gs moves k bestScore bestMoves = Ok (k', bestMoves') →
  Forall (λ m, wins_game gs (currentPlayer gs) m = true) bestMoves'.
Proof.
  intros Hrand. revert k bestScore bestMoves.
  induction moves as [|move rest IH]; intros k bestScore bestMoves Hfin Hval Hall;
    cbn [score_moves].
  { by intros [= <- <-]. }
  intros (z & Hz & H)%bind_Ok_inv.
  destruct (evaluateMove_noisy gs move z (random k) Hz (Hrand k)) as [Hf Hv].
  pose proof (evaluateMove_band gs move z Hz) as Hband.
  fold (noisy_score z (random k)) in H.
  assert (Hg : (0 < 2 ^ grid)%Z) by done.
  destruct (wins_game gs (currentPlayer gs) move) eqn:Hw.
  - destruct (exceeds _ bestScore); [|destruct (near _ bestScore)].
    + apply (IH _ _ _ Hf) in H; [done|nia|]. by apply Forall_singleton.
    + apply (IH _ _ _ Hfin Hval) in H; [done|].
      apply Forall_app. split; [done|by apply Forall_singleton].
    + by apply (IH _ _ _ Hfin Hval Hall) in H.
  - destruct (far_apart (noisy_score z (random k)) bestScore Hf Hfin) as (He & _ & Hn);
      [nia | done |].
    unfold exceeds, near in H. rewrite He, Hn in H.
    by apply (IH _ _ _ Hfin Hval Hall) in H.
Qed.

(** Until then the best score is [-Infinity] or the score of a move that
    does not win the game, and the first move that wins the game takes
    its place. *)
Lemma score_moves_before_win random gs moves k bestScore bestMoves k' bestMoves' :
  (∀ j, unit_interval (random j) = true) →
  bestScore = neg_infinity ∨
    (fin bestScore ∧ (-200 * 2 ^ grid ≤ val bestScore ≤ 212 * 2 ^ grid)%Z) →
  (∃ m, m ∈ moves ∧ wins_game gs (currentPlayer gs) m = true) →
  score_moves random gs moves k bestScore bestMoves = Ok (k', bestMoves') →
  Forall (λ m, wins_game gs (currentPlayer gs) m = true) bestMoves'.
Proof.
  intros Hrand. revert k bestScore bestMoves.
  induction moves as [|move rest IH]; intros k bestScore bestMoves Hlow (m0 & Hm0 & Hw0);
    cbn [score_moves].
  { by apply elem_of_nil in Hm0. }
  intros (z & Hz & H)%bind_Ok_inv.
  destruct (evaluateMove_noisy gs move z (random k) Hz (Hrand k)) as [Hf Hv].
  pose proof (evaluateMove_band gs move z Hz) as Hband.
  fold (noisy_score z (random k)) in H.
  assert (Hg : (0 < 2 ^ grid)%Z) by done.
  destruct (wins_game gs (currentPlayer gs) move) eqn:Hw.
  - assert (He : exceeds (noisy_score z (random k)) bestScore = true).
    { unfold exceeds. destruct Hlow as [->|[Hfb Hvb]]; [by apply neg_infinity_ltb|].
      apply (far_apart _ _ Hfb Hf); [done|nia]. }
    rewrite He in H.
    apply (score_moves_after_win _ _ _ _ _ _ _ _ Hrand Hf) in H; [done|nia|].
    apply Forall_singleton. exact Hw.
  - assert (Hrest : ∃ m, m ∈ rest ∧ wins_game gs (currentPlayer gs) m = true).
    { apply elem_of_cons in Hm0 as [->|Hm0]; [congruence|]. by exists m0. }
    destruct (exceeds _ bestScore); [|destruct (near _ bestScore)].
    + apply (IH _ _ _ ) in H; [done| |done]. right. split; [done|nia].
    + by apply (IH _ _ _ Hlow Hrest) in H.
    + by apply (IH _ _ _ Hlow Hrest) in H.
Qed.

(** X12. The Advanced tier never passes up a win of the game: in a
    well-formed state where some legal move wins the game, the move it
    returns wins the game, whatever doubles in [0, 1) [Math.random()]
    returns. *)
Theorem getAiMove_Advanced_wins (random : nat → float) (gs : GameState) :
  well_formed gs → aiDifficulty gs = Advanced → (∀ k, unit_interval (random k) = true) →
  (∃ m, m ∈ legalMoves gs ∧ wins_game gs (currentPlayer gs) m = true) →
  ∃ m', getAiMove random gs = Ok (Some m') ∧ m' ∈ legalMoves gs ∧
        wins_game gs (currentPlayer gs) m' = true.
Proof.
  intros Hwf Hd Hrand Hex.
  assert (Hne : legalMoves gs ≠ []).
  { destruct Hex as (m0 & Hm0 & _). intros E. rewrite E in Hm0. by apply elem_of_nil in Hm0. }
  destruct (getAiMove_Advanced_unfold random gs Hwf Hd Hne (Hrand 0))
    as (bm & Hloop & Hbm & Hlen & ->).
  destruct (pick_in_range random bm (length (legalMoves gs)) (Hrand _) Hbm Hlen)
    as (i & m' & Hp & Hi).
  apply list_elem_of_lookup_2 in Hi.
  exists m'. split_and!; [by rewrite Hp | |].
  - destruct (score_moves_elem_of _ _ _ _ _ _ _ _ Hloop m' Hi) as [?%elem_of_nil|?]; done.
  - pose proof (score_moves_before_win _ _ _ _ _ _ _ _ Hrand (or_introl eq_refl) Hex Hloop)
      as Hall.
    rewrite Forall_forall in Hall. by apply Hall.
Qed.

Lemma getAiMove_Advanced_wins_witness :
  ∃ m', getAiMove (late_best 0x1p-1) center_race = Ok (Some m') ∧
        wins_game center_race (currentPlayer center_race) m' = true.
Proof.
  destruct (getAiMove_Advanced_wins (late_best 0x1p-1) center_race)
    as (m' & Hm' & _ & Hw).
  - decide_by_computing.
  - vm_compute. reflexivity.
  - intros k. unfold late_best. repeat case_decide; vm_compute; reflexivity.
  - exists (mv 4 4). split; [decide_by_computing | vm_compute; reflexivity].
  - exists m'. split; [exact Hm' | exact Hw].
Defined.

(** ** Undo *)

Lemma accepted_not_drawn b c gs gs' :
  accepted b c gs gs' → draw_consistent gs → isGlobalDraw gs = false.
Proof.
  intros Hacc Hdc. destruct (isGlobalDraw gs) eqn:Hd; [|done].
  destruct (acc_target _ _ _ _ Hacc) as (st & Hst & Hund).
  specialize (Hdc Hd). rewrite forallb_forall in Hdc.
  rewrite Hdc in Hund; [done|]. apply list_elem_of_In. by eapply list_elem_of_lookup_2.
Qed.

(** The history item of an accepted move stands for the state the move
    was made in. *)
Lemma state_before_item lastMove onlineRole b c isRemote gs gs' :
  reachable gs →
  handleCellClick lastMove onlineRole b c isRemote gs = Ok gs' → gs' ≠ gs →
  state_before (item_of gs lastMove) (history gs) gs' = gs.
Proof.
  intros Hr Hstep Hne.
  pose proof (handleCellClick_accepted _ _ _ _ _ _ _ Hstep Hne) as Hacc.
  destruct (handleCellClick_rest _ _ _ _ _ _ _ Hstep Hne) as (_ & _ & Hmode & Hdiff).
  pose proof (accepted_not_drawn _ _ _ _ Hacc (reachable_draw_consistent gs Hr)) as Hdraw.
  pose proof (acc_winner _ _ _ _ Hacc) as Hw.
  destruct (reachable_count gs Hr) as [Hcount _].
  unfold state_before, item_of. rewrite Hmode, Hdiff, <- Hcount.
  destruct gs; simpl in *. by subst.
Qed.

(** Every item of the history stands for a state the match went through. *)
Lemma reachable_history gs k item :
  reachable gs → history gs !! k = Some item →
  reachable (state_before item (take k (history gs)) gs).
Proof.
  intros Hr. revert k item.
  induction Hr as [|lm role b c r gs gs' Hr IH Hstep]; intros k item; [done|].
  destruct (decide (gs' = gs)) as [->|Hne]; [apply IH|].
  destruct (handleCellClick_rest _ _ _ _ _ _ _ Hstep Hne) as (_ & Hh & Hmode & Hdiff).
  rewrite Hh. intros Hk.
  destruct (decide (k < length (history gs))) as [Hlt|Hge].
  - rewrite lookup_app_l in Hk by done. rewrite take_app_le by lia.
    specialize (IH k item Hk). unfold state_before in *. by rewrite Hmode, Hdiff.
  - assert (k = length (history gs)) as ->.
    { apply lookup_lt_Some in Hk. rewrite length_app in Hk. simpl in Hk. lia. }
    rewrite list_lookup_middle in Hk by done. injection Hk as <-.
    rewrite take_app_length.
    by rewrite (state_before_item _ _ _ _ _ _ _ Hr Hstep Hne).
Qed.

(** What [undoMove] returns when it undoes [steps] moves of a state of a
    match. *)
Lemma undoMove_state_before gs lastMove gs' lastMove' :
  reachable gs → undoMove gs lastMove = Ok (gs', lastMove') → gs' ≠ gs →
  ∃ k item, history gs !! k = Some item ∧
            gs' = state_before item (take k (history gs)) gs ∧
            lastMove' = h_lastMove item.
Proof.
  intros Hr. destruct (reachable_count gs Hr) as [Hcount _]. unfold undoMove.
  destruct (decide (length (history gs) = 0)); [by intros [= <- <-]|].
  destruct (decide (gameMode gs = PvOnline)); [by intros [= <- <-]|].
  set (steps := if _ && _ then 2 else 1).
  destruct (decide (length (history gs) < steps)); [by intros [= <- <-]|].
  intros (item & Hitem%defined_Ok & Hres)%bind_Ok_inv.
  destruct (decide (moveCount gs < steps)); [done|]. injection Hres as <- <-. intros _.
  exists (length (history gs) - steps), item. split_and!; [done| |done].
  unfold state_before. rewrite length_take, Hcount. f_equal. lia.
Qed.

(** X13. Undo takes back moves.  From a state of a match that is not online,
    after a move that [handleCellClick] accepted, [undoMove] gives back
    the very state the move was made in and the last move of that time;
    against the CPU, with the human (X) to move again after the CPU's
    answer, it gives back the state before the human's move. *)
Theorem undoMove_restores (lm0 lm1 lm2 : option Move) (role : option OnlineRole)
    (b0 c0 b1 c1 : nat) (r0 r1 : bool) (gs gs1 gs2 : GameState) :
  reachable gs → gameMode gs ≠ PvOnline →
  handleCellClick lm0 role b0 c0 r0 gs = Ok gs1 → gs1 ≠ gs →
  (¬ (gameMode gs = PvCPU ∧ currentPlayer gs = Player.O) →
   undoMove gs1 lm1 = Ok (gs, lm0)) ∧
  (gameMode gs = PvCPU → currentPlayer gs = Player.X →
   handleCellClick lm1 role b1 c1 r1 gs1 = Ok gs2 → gs2 ≠ gs1 →
   undoMove gs2 lm2 = Ok (gs, lm0)).
Proof.
  intros Hr Honline Hstep Hne.
  pose proof (handleCellClick_accepted _ _ _ _ _ _ _ Hstep Hne) as Hacc.
  destruct (handleCellClick_rest _ _ _ _ _ _ _ Hstep Hne) as (_ & Hh & Hmode & Hdiff).
  pose proof (state_before_item _ _ _ _ _ _ _ Hr Hstep Hne) as Hback.
  destruct (reachable_count gs Hr) as [Hcount _].
  split.
  - intros Hcpu. unfold undoMove. rewrite Hh, length_app. cbn [length].
    rewrite decide_False by lia. rewrite decide_False by congruence.
    assert (Hsteps : bool_decide (gameMode gs1 = PvCPU)
                     && bool_decide (currentPlayer gs1 = Player.X) = false).
    { rewrite Hmode, (acc_turn _ _ _ _ Hacc). apply andb_false_iff.
      destruct (decide (gameMode gs = PvCPU)) as [Hm|Hm];
        [right | left; by apply bool_decide_eq_false].
      apply bool_decide_eq_false. intros Ho. apply Hcpu. split; [done|].
      by destruct (currentPlayer gs). }
    rewrite Hsteps. rewrite decide_False by lia.
    replace (length (history gs) + 1 - 1) with (length (history gs)) by lia.
    rewrite list_lookup_middle by done. cbn [defined]. rewrite bind_Ok.
    rewrite (acc_count _ _ _ _ Hacc). rewrite decide_False by lia.
    rewrite take_app_length. do 2 f_equal.
    transitivity (state_before (item_of gs lm0) (history gs) gs1); [|exact Hback].
    unfold state_before, item_of. simpl. f_equal. lia.
  - intros Hcpu Hx Hstep2 Hne2.
    pose proof (handleCellClick_accepted _ _ _ _ _ _ _ Hstep2 Hne2) as Hacc2.
    destruct (handleCellClick_rest _ _ _ _ _ _ _ Hstep2 Hne2) as (_ & Hh2 & Hmode2 & Hdiff2).
    unfold undoMove. rewrite Hh2, Hh, !length_app. cbn [length].
    rewrite decide_False by lia. rewrite decide_False by congruence.
    rewrite Hmode2, Hmode, (acc_turn _ _ _ _ Hacc2), (acc_turn _ _ _ _ Hacc), Hx.
    rewrite (bool_decide_eq_true_2 _ Hcpu). cbn [other andb].
    rewrite bool_decide_eq_true_2 by done. rewrite decide_False by lia.
    replace (length (history gs) + 1 + 1 - 2) with (length (history gs)) by lia.
    rewrite <- (app_assoc (history gs) [item_of gs lm0] [item_of gs1 lm1]). cbn [app].
    rewrite list_lookup_middle by done. cbn [defined]. rewrite bind_Ok.
    rewrite (acc_count _ _ _ _ Hacc2), (acc_count _ _ _ _ Hacc).
    rewrite decide_False by lia. rewrite take_app_length.
    do 2 f_equal.
    transitivity (state_before (item_of gs lm0) (history gs) gs1); [|exact Hback].
    unfold state_before, item_of. simpl. rewrite Hdiff2. f_equal; [lia | done].
Qed.

Lemma undoMove_restores_witness :
  undoMove (game_of Beginner [mv 0 4; mv 4 4]) None = Ok (resetGameState PvCPU Beginner, None).
Proof.
  assert (H1 : ∃ gs1, handleCellClick None None 0 4 false (resetGameState PvCPU Beginner)
                      = Ok gs1 ∧ moveCount gs1 = 1 ∧
                      handleCellClick (Some (mv 0 4)) None 4 4 false gs1
                      = Ok (game_of Beginner [mv 0 4; mv 4 4]))
    by (eexists; split_and!; vm_compute; reflexivity).
  destruct H1 as (gs1 & Hs1 & Hc1 & Hs2).
  destruct (undoMove_restores None (Some (mv 0 4)) None None 0 4 4 4 false false
              (resetGameState PvCPU Beginner) gs1 (game_of Beginner [mv 0 4; mv 4 4]))
    as [_ Htwo].
  - apply reachable_start.
  - discriminate.
  - exact Hs1.
  - intros E. rewrite E in Hc1. revert Hc1. vm_compute. discriminate.
  - apply Htwo; [reflexivity | reflexivity | exact Hs2 |].
    intros E. apply (f_equal moveCount) in E. rewrite Hc1 in E. revert E.
    vm_compute. discriminate.
Defined.

(** X14. Undo never leaves the match: from a state of a match [undoMove]
    returns, never throws, and the state it returns is again a state of
    the match, so that everything a match keeps holds after an undo as
    well; in online mode and with an empty history it returns the state
    it was given. *)
Theorem undoMove_reachable (gs : GameState) (lastMove : option Move) :
  reachable gs →
  ∃ gs' lastMove', undoMove gs lastMove = Ok (gs', lastMove') ∧ reachable gs' ∧
    (gameMode gs = PvOnline ∨ history gs = [] → gs' = gs ∧ lastMove' = lastMove).
Proof.
  intros Hr. destruct (reachable_count gs Hr) as [Hcount _].
  assert (Hok : ∃ res, undoMove gs lastMove = Ok res).
  { unfold undoMove.
    destruct (decide (length (history gs) = 0)); [by eexists|].
    destruct (decide (gameMode gs = PvOnline)); [by eexists|].
    set (steps := if _ && _ then 2 else 1).
    destruct (decide (length (history gs) < steps)); [by eexists|].
    destruct (lookup_lt_is_Some_2 (history gs) (length (history gs) - steps))
      as [item Hitem]; [unfold steps; destruct (_ && _); lia|].
    rewrite Hitem. cbn [defined]. rewrite bind_Ok.
    destruct (decide (moveCount gs < steps)); [lia | by eexists]. }
  destruct Hok as [[gs' lastMove'] Hundo]. exists gs', lastMove'.
  split; [done|]. split.
  - destruct (decide (gs' = gs)) as [->|Hne]; [done|].
    destruct (undoMove_state_before gs lastMove gs' lastMove' Hr Hundo Hne)
      as (k & item & Hk & -> & _).
    by apply reachable_history.
  - intros Hcase. revert Hundo. unfold undoMove.
    destruct (decide (length (history gs) = 0)) as [|Hlen]; [by intros [= <- <-]|].
    destruct (decide (gameMode gs = PvOnline)) as [|Hmode]; [by intros [= <- <-]|].
    destruct Hcase as [?|Hnil]; [done|]. by rewrite Hnil in Hlen.
Qed.

Lemma undoMove_reachable_witness :
  ∃ gs' lastMove', undoMove center_race None = Ok (gs', lastMove') ∧ reachable gs'.
Proof.
  destruct (undoMove_reachable center_race None) as (gs' & lm' & Hu & Hr & _).
  - apply game_of_reachable.
  - exists gs', lm'. split; [exact Hu | exact Hr].
Defined.

(** ** The computer's turn and the buttons of the board *)

(** A move [getAiMove] returns is a legal move. *)
Lemma getAiMove_elem random gs m :
  well_formed gs → getAiMove random gs = Ok (Some m) → m ∈ legalMoves gs.
Proof.
  intros Hwf. unfold getAiMove. rewrite getValidMoves_legalMoves by done.
  rewrite bind_Ok. intros H.
  case_decide as Hlen; [done|].
  destruct (aiDifficulty gs).
  - injection H as H. by apply pick_elem_of in H.
  - apply bind_Ok_inv in H as (won & Hwon & H). destruct won as [move|].
    + injection H as ->. by apply first_move_for_Some in Hwon as (? & _).
    + apply bind_Ok_inv in H as (blocked & Hbl & H). destruct blocked as [move|].
      * injection H as ->. by apply first_move_for_Some in Hbl as (? & _).
      * injection H as H. by apply pick_elem_of in H.
  - apply bind_Ok_inv in H as ([k bestMoves] & Hs & H).
    case_decide; injection H as H.
    + apply pick_elem_of in H.
      destruct (score_moves_elem_of _ _ _ _ _ _ _ _ Hs m H) as [?%elem_of_nil|?]; done.
    + by apply list_elem_of_lookup_2 in H.
Qed.

(** X15. The computer never passes its turn.  In every state of a match
    against the CPU in which O is to move and the game is not over,
    whatever doubles in [0, 1) [Math.random()] returns, the effect plays
    one legal move:
    the move becomes the last move, the turn goes to X and the move count
    grows by one. *)
Theorem aiEffect_plays (random : nat → float) (s : Session) :
  reachable (gameState s) → (∀ k, unit_interval (random k) = true) →
  gameMode (gameState s) = PvCPU → currentPlayer (gameState s) = Player.O →
  globalWinner (gameState s) = None → isGlobalDraw (gameState s) = false →
  ∃ s' m, aiEffect random s = Ok s' ∧ m ∈ legalMoves (gameState s) ∧
    lastMove s' = Some m ∧
    cell_at (gameState s') (boardIndex m) (cellIndex m) = Some (Some Player.O) ∧
    currentPlayer (gameState s') = Player.X ∧
    moveCount (gameState s') = moveCount (gameState s) + 1.
Proof.
  intros Hr Hrand Hmode Hturn Hw Hd.
  pose proof (reachable_well_formed _ Hr) as Hwf.
  assert (Hne : legalMoves (gameState s) ≠ []).
  { intros E. apply (reachable_no_moves _ Hr) in E as [E|E]; congruence. }
  destruct (getAiMove_total random _ Hwf Hne Hrand) as [m Hm].
  pose proof (getAiMove_elem _ _ _ Hwf Hm) as Hin.
  destruct (legal_move_accepted (lastMove s) (onlineRole s) (boardIndex m) (cellIndex m)
              false (gameState s) Hr) as (gs' & Hstep & Hneq).
  { unfold turn_allowed. by rewrite Hmode. }
  { by destruct m. }
  pose proof (handleCellClick_accepted _ _ _ _ _ _ _ Hstep Hneq) as Hacc.
  eexists _, m. unfold aiEffect.
  rewrite (bool_decide_eq_true_2 _ Hmode), (bool_decide_eq_true_2 _ Hturn),
    (bool_decide_eq_true_2 _ Hw), Hd. cbn [andb negb].
  rewrite Hm, bind_Ok, Hstep, bind_Ok. split; [done|]. cbn [gameState lastMove].
  split_and!.
  - done.
  - by rewrite decide_False.
  - unfold cell_at. rewrite (acc_board _ _ _ _ Hacc).
    destruct (acc_cell _ _ _ _ Hacc) as (cells & Hcells & Hcell).
    rewrite list_lookup_imap, Hcells. cbn. rewrite decide_True by done.
    rewrite list_lookup_imap, Hcell. cbn. rewrite decide_True by done.
    by rewrite Hturn.
  - rewrite (acc_turn _ _ _ _ Hacc), Hturn. done.
  - exact (acc_count _ _ _ _ Hacc).
Qed.

(** After X opens at the centre of board 0 the CPU, whatever its draws
    below 1, answers. *)
Lemma aiEffect_plays_witness :
  ∃ s' m, aiEffect (λ _, 0%float)
            {| gameState := game_of Beginner [mv 0 4]; onlineState := IDLE;
               onlineRole := None; lastMove := Some (mv 0 4) |} = Ok s' ∧
          m ∈ legalMoves (game_of Beginner [mv 0 4]) ∧ lastMove s' = Some m.
Proof.
  destruct (aiEffect_plays (λ _, 0%float)
              {| gameState := game_of Beginner [mv 0 4]; onlineState := IDLE;
                 onlineRole := None; lastMove := Some (mv 0 4) |})
    as (s' & m & H1 & H2 & H3 & _).
  - apply game_of_reachable.
  - intros _. vm_compute. reflexivity.
  - vm_compute. reflexivity.
  - vm_compute. reflexivity.
  - vm_compute. reflexivity.
  - vm_compute. reflexivity.
  - exists s', m. split_and!; [exact H1 | exact H2 | exact H3].
Defined.

(** X16. The buttons of the board show the rules.  In every state of a
    match, the button of a cell is enabled exactly when interaction is
    allowed and the cell is a legal move; and in an online match where the
    player has a role, or in any local match, a click on an enabled button
    is played. *)
Theorem enabled_iff_legal (s : Session) (b c : nat) :
  reachable (gameState s) →
  (cellDisabled s b c = Ok false ↔
   isInteractionAllowed s = true ∧ mv b c ∈ legalMoves (gameState s)) ∧
  ((gameMode (gameState s) = PvOnline → onlineRole s ≠ None) →
   cellDisabled s b c = Ok false →
   ∃ s', onCellClick s b c = Ok s' ∧ gameState s' ≠ gameState s ∧
         lastMove s' = Some (mv b c)).
Proof.
  intros Hr. pose proof (reachable_well_formed _ Hr) as Hwf.
  pose proof (reachable_draw_consistent _ Hr) as Hdc.
  assert (Hiff : cellDisabled s b c = Ok false ↔
    isInteractionAllowed s = true ∧ mv b c ∈ legalMoves (gameState s)).
  { rewrite elem_of_legalMoves by done. cbn [boardIndex cellIndex mv].
    unfold cellDisabled, isValidTarget, empty_at, undecided.
    destruct (board (gameState s) !! b) as [cells|] eqn:Hcells; cbn [defined].
    2:{ split; [done | by intros (_ & _ & _ & _ & _ & ? & _)]. }
    rewrite bind_Ok.
    destruct (smallBoardStatuses (gameState s) !! b) as [st|] eqn:Hst; cbn [defined].
    2:{ split; [done | by intros (_ & _ & _ & _ & ? & _)]. }
    rewrite !bind_Ok.
    assert (Hb : b < 9).
    { apply lookup_lt_Some in Hst. destruct Hwf as (_ & _ & <- & _). done. }
    destruct (well_formed_cells _ b Hwf Hb) as (cells' & Hcells' & Hlen).
    assert (cells' = cells) as -> by congruence.
    split.
    - intros [= H]. apply orb_false_iff in H as [H Hcomplete].
      apply orb_false_iff in H as [Hcell H].
      apply negb_false_iff, andb_true_iff in H as [H Hallowed].
      apply andb_true_iff in H as [H Hforced].
      apply andb_true_iff in H as [H _].
      apply andb_true_iff in H as [Hw%bool_decide_eq_true _].
      apply bool_decide_eq_false in Hcell. apply dec_stable in Hcell.
      split; [done|]. split_and!; try done.
      + apply lookup_lt_Some in Hcell. lia.
      + by rewrite Hcomplete.
      + by apply bool_decide_eq_true.
      + intros n Hn _. apply orb_true_iff in Hforced as [E|E];
          apply bool_decide_eq_true in E; congruence.
    - intros (Hallowed & Hw & _ & _ & Hu%negb_true_iff & Hcell%bool_decide_eq_true & Hf).
      f_equal. rewrite Hu, Hallowed, (bool_decide_eq_true_2 _ Hw).
      rewrite (bool_decide_eq_false_2 (cells !! c ≠ Some None)) by (by intros ?).
      assert (isGlobalDraw (gameState s) = false) as ->.
      { destruct (isGlobalDraw (gameState s)) eqn:Hd; [|done].
        pose proof (Hdc Hd) as Hall. rewrite forallb_forall in Hall.
        assert (decided st = true); [|congruence].
        apply Hall. apply list_elem_of_In. by eapply list_elem_of_lookup_2. }
      cbn [negb andb orb].
      destruct (nextBoardIndex (gameState s)) as [n|] eqn:Hn; [|done].
      rewrite (bool_decide_eq_false_2 (Some n = None)) by done.
      rewrite bool_decide_eq_true_2; [done|].
      f_equal. symmetry. apply Hf; [done|]. by apply reachable_forced. }
  split; [exact Hiff|].
  intros Hrole [Hallowed Hin]%Hiff.
  destruct (legal_move_accepted (lastMove s) (onlineRole s) b c false (gameState s) Hr)
    as (gs' & Hstep & Hneq); [|done|].
  { unfold turn_allowed. unfold isInteractionAllowed in Hallowed.
    destruct (bool_decide (gameMode (gameState s) = PvOnline)) eqn:Hmode; [|done].
    apply bool_decide_eq_true in Hmode. specialize (Hrole Hmode).
    destruct (onlineRole s) as [[]|]; [| |done].
    - rewrite decide_True by done.
      destruct (currentPlayer (gameState s)); [done|].
      exfalso. revert Hallowed. rewrite Hmode. cbn.
      by destruct (bool_decide (onlineState s ≠ CONNECTED)).
    - rewrite decide_False by done.
      destruct (currentPlayer (gameState s)); [|done].
      exfalso. revert Hallowed. rewrite Hmode. cbn.
      by destruct (bool_decide (onlineState s ≠ CONNECTED)). }
  eexists. unfold onCellClick. rewrite Hallowed, Hstep, bind_Ok.
  split; [done|]. cbn [gameState lastMove]. split; [done|]. by rewrite decide_False.
Qed.

(** The guest, connected and to move after the host's first move, finds
    the centre of board 4 enabled and plays it. *)
Lemma enabled_iff_legal_witness :
  cellDisabled guest_session 4 4 = Ok false ∧
  ∃ s', onCellClick guest_session 4 4 = Ok s' ∧ lastMove s' = Some (mv 4 4).
Proof.
  destruct (enabled_iff_legal guest_session 4 4) as [Hiff Hclick].
  - unfold guest_session, after_host_move. cbn [gameState].
    apply (reachable_move None (Some GUEST) 0 4 true (resetGameState PvOnline Beginner));
      [apply reachable_start | vm_compute; reflexivity].
  - assert (H : cellDisabled guest_session 4 4 = Ok false).
    { apply Hiff. split; [vm_compute; reflexivity | decide_by_computing]. }
    split; [exact H|].
    destruct (Hclick ltac:(intros _; discriminate) H) as (s' & H1 & _ & H3).
    exists s'. split; [exact H1 | exact H3].
Defined.

(** ** Saving and loading *)

(** [getValidMoves] reads the boards, the statuses, the forced board and
    the winner, nothing else. *)
Lemma collect_moves_reads gs gs' targetBoards moves :
  board gs' = board gs → smallBoardStatuses gs' = smallBoardStatuses gs →
  collect_moves gs' targetBoards moves = collect_moves gs targetBoards moves.
Proof.
  intros Hb Hs. revert moves.
  induction targetBoards as [|bIdx rest IH]; intros moves; [done|].
  cbn [collect_moves]. rewrite Hb, Hs.
  destruct (defined (smallBoardStatuses gs !! bIdx)) as [status| |]; [|done..].
  rewrite !bind_Ok. destruct (negb (decided status)); [|apply IH].
  destruct (defined (board gs !! bIdx)) as [cells| |]; [|done..].
  rewrite !bind_Ok. apply IH.
Qed.

Lemma getValidMoves_reads gs gs' :
  board gs' = board gs → smallBoardStatuses gs' = smallBoardStatuses gs →
  nextBoardIndex gs' = nextBoardIndex gs → globalWinner gs' = globalWinner gs →
  getValidMoves gs' = getValidMoves gs.
Proof.
  intros Hb Hs Hn Hw. unfold getValidMoves. rewrite Hs, Hn, Hw.
  destruct (globalWinner gs); [done|].
  match goal with |- ?m ≫= _ = _ => destruct m as [targetBoards| |] end; [|done..].
  rewrite !bind_Ok. by apply collect_moves_reads.
Qed.

(** X17. Saving and loading.  Loading a file that [saveGame] wrote gives
    back the saved game with an empty history, whatever was on screen
    before, and keeps the connection state and role of the session that
    loads.  The last move is the saved one, except that a file saved
    without a last move leaves the last move of the loading session in
    place.  The loaded game has the legal moves of the saved one, every
    click has the outcome it would have had in the saved game, the history
    apart, and undo does nothing until a move is played. *)
Theorem load_save (s now : Session) :
  let loaded := loadGame (Some (saveGame s)) now in
  gameState loaded = with_history [] (gameState s) ∧
  onlineState loaded = onlineState now ∧ onlineRole loaded = onlineRole now ∧
  lastMove loaded = match lastMove s with
                    | Some m => Some m
                    | None => lastMove now
                    end ∧
  getValidMoves (gameState loaded) = getValidMoves (gameState s) ∧
  (∀ lm, undoMove (gameState loaded) lm = Ok (gameState loaded, lm)) ∧
  (∀ lm role b c isRemote gs',
     handleCellClick lm role b c isRemote (gameState s) = Ok gs' →
     ∃ gl', handleCellClick lm role b c isRemote (gameState loaded) = Ok gl' ∧
       with_history [] gl' = with_history [] gs' ∧
       (gs' ≠ gameState s → history gl' = [item_of (gameState s) lm])).
Proof.
  cbn zeta. split_and!; try done.
  - by apply getValidMoves_reads.
  - intros lm role b c isRemote gs' Hstep.
    apply (handleCellClick_position [] _ lm _ _ _ _ _ _ Hstep).
Qed.
